(** * The ad-hoc dataset generator of qiskit-machine-learning, in Rocq

    A shallow embedding of [qiskit_machine_learning/datasets/ad_hoc.py],
    the properties its specification states about it, and further
    properties of its functions.

    Conventions of the embedding.
    - Python [int] values are [Z]; sizes and counts that the source only
      uses as lengths are [nat].
    - NumPy [float64] values are modelled by the real numbers [R] and
      [complex128] by pairs of reals: the development is about the exact
      arithmetic the code approximates.  Where rounding changes what a
      property says, the function is embedded once more over binary64
      floats (module [F64]) and the difference is computed.
    - A Python call either returns, raises, or (for the one unbounded
      loop of the module) is cut off by the fuel of the model: [result].
    - The random generator [algorithm_globals.random] and SciPy's Sobol
      sampler are the fields of a record [Generator]; what NumPy and
      SciPy document about them is the predicate [GeneratorOK].  The
      deterministic library calls that no property depends on are the
      fields of [Collaborators]. *)

From Stdlib Require Import String.
From Stdlib Require Import List ZArith Reals Lra Lia Bool Arith.
From Stdlib Require Import Permutation.
From Stdlib Require PrimFloat.
From Equations Require Import Equations.
Import ListNotations.

Set Implicit Arguments.

(** ** Python outcomes *)

Module Py.

(** The exceptions the module can raise. *)
Inductive exn : Type :=
| NameError (name : string)
| ValueError
| TypeError
| IndexError
| ZeroDivisionError
| MissingOptionalLibraryError.

(** The outcome of running a piece of Python. *)
Inductive result (A : Type) : Type :=
| Ret (a : A)
| Raise (e : exn)
| OutOfFuel.

Arguments Ret {A} a.
Arguments Raise {A} e.
Arguments OutOfFuel {A}.

Definition bind {A B : Type} (m : result A) (k : A -> result B) : result B :=
  match m with
  | Ret a => k a
  | Raise e => Raise e
  | OutOfFuel => OutOfFuel
  end.

End Py.

Import Py.

Notation "x <- m ;; k" := (bind m (fun x => k))
  (at level 61, m at next level, right associativity).

(** ** Kronecker products of NumPy arrays *)

Section KroneckerLists.

Variable X : Type.
Variable op : X -> X -> X.

(** Every element of [l1] against every element of [l2], the elements of
    [l1] varying slowest: one row (or one block row) of [np.kron]. *)
Definition kprod (l1 l2 : list X) : list X :=
  flat_map (fun a => map (op a) l2) l1.

End KroneckerLists.

Definition matrix : Type := list (list R).

(** [np.kron] of two 2-d arrays: entry [(i*p + k, j*q + l)] is
    [a[i][j] * b[k][l]]. *)
Definition kron (a b : matrix) : matrix := kprod (kprod Rmult) a b.

(** The arrays [_n_hadamard] handles: its accumulator starts as the Python
    number [1] and becomes a 2-d array at the first [np.kron]. *)
Inductive ndarray : Type :=
| Scalar (x : R)
| Matrix (m : matrix).

Definition scale_l (x : R) (m : matrix) : matrix := map (map (Rmult x)) m.
Definition scale_r (m : matrix) (y : R) : matrix := map (map (fun v => (v * y)%R)) m.

(** [np.kron(a, b)]: when either argument is 0-dimensional NumPy returns
    [np.multiply(a, b)]. *)
Definition np_kron (a b : ndarray) : ndarray :=
  match a, b with
  | Scalar x, Scalar y => Scalar (x * y)
  | Scalar x, Matrix m => Matrix (scale_l x m)
  | Matrix m, Scalar y => Matrix (scale_r m y)
  | Matrix m1, Matrix m2 => Matrix (kron m1 m2)
  end.

(** ** [_n_hadamard] (ad_hoc.py, lines 277-289) *)

(** [np.array([[1, 1], [1, -1]]) / np.sqrt(2)] *)
Definition hadamard_base : matrix :=
  map (map (fun x => (x / sqrt 2)%R)) [[1; 1]; [1; -1]]%R.

(** The [while expo > 0] loop: [expo % 2] and [expo //= 2] are Python's
    floor operations, which [Z.modulo] and [Z.div] are for the divisor 2. *)
Equations? hadamard_loop (expo : Z) (result base : ndarray) : ndarray
  by wf (Z.to_nat expo) lt :=
  hadamard_loop expo result base with Z_lt_dec 0 expo := {
    | left _ =>
        hadamard_loop (expo / 2)
          (if (expo mod 2 =? 1)%Z then np_kron result base else result)
          (np_kron base base)
    | right _ => result }.
Proof.
  apply Z2Nat.inj_lt; try lia.
  - apply Z.div_pos; lia.
  - apply Z.div_lt; lia.
Qed.

Definition _n_hadamard (n : Z) : ndarray :=
  hadamard_loop n (Scalar 1) (Matrix hadamard_base).

(** The naive [n]-fold Kronecker product the specification compares with:
    [a (x) a (x) ... (x) a], the empty product being the scalar 1. *)
Fixpoint kron_power (a : ndarray) (n : nat) : ndarray :=
  match n with
  | O => Scalar 1
  | S k => np_kron (kron_power a k) a
  end.

(** ** [_i_z] and [_n_z] (ad_hoc.py, lines 291-306) *)

(** [np.sign] on a float: -1, 0 or 1. *)
Definition np_sign (x : R) : R :=
  match total_order_T x 0 with
  | inleft (left _) => (-1)%R
  | inleft (right _) => 0%R
  | inright _ => 1%R
  end.

(** [np.diag(v)] for a 1-d [v]: the square matrix with [v] on its diagonal. *)
Fixpoint diag_matrix (v : list R) : matrix :=
  match v with
  | [] => []
  | x :: v' => (x :: repeat 0%R (length v')) :: map (cons 0%R) (diag_matrix v')
  end.

(** [np.diag(m)] for a 2-d [m]: the entries [m[k][k]], as many as the
    smaller dimension has; [diagonal_from k] reads rows from column [k] on. *)
Fixpoint diagonal_from (k : nat) (m : matrix) : list R :=
  match m with
  | [] => []
  | row :: m' =>
      match nth_error row k with
      | Some x => x :: diagonal_from (S k) m'
      | None => []
      end
  end.

(** [np.diag] of what [_n_hadamard] returns: a 0-d input is refused
    ("Input must be 1- or 2-d"). *)
Definition np_diag (a : ndarray) : result (list R) :=
  match a with
  | Scalar _ => Raise ValueError
  | Matrix m => Ret (diagonal_from 0 m)
  end.

(** [np.eye(k)] *)
Definition np_eye (k : nat) : matrix :=
  map (fun i => map (fun j => if Nat.eqb i j then 1%R else 0%R) (seq 0 k)) (seq 0 k).

(** [np.eye(2**e)]: for a negative [e] Python's [2**e] is a float, which
    [np.eye] refuses with a TypeError. *)
Definition np_eye_pow2 (e : Z) : result matrix :=
  if (e <? 0)%Z then Raise TypeError else Ret (np_eye (2 ^ Z.to_nat e)).

(** [np.diag([1, -1])] *)
Definition pauli_z : matrix := diag_matrix [1; -1]%R.

Definition _i_z (i n : Z) : result matrix :=
  let z := pauli_z in
  i_1 <- np_eye_pow2 i ;;
  i_2 <- np_eye_pow2 (n - i - 1) ;;
  let result := kron i_1 z in
  let result := kron result i_2 in
  Ret result.

Definition _n_z (h_n : ndarray) : result matrix :=
  res <- np_diag h_n ;;
  let res := map np_sign res in
  let res := diag_matrix res in
  Ret res.

(** The number of 1-bits of [k]. *)
Fixpoint pos_popcount (p : positive) : nat :=
  match p with
  | xH => 1
  | xO q => pos_popcount q
  | xI q => S (pos_popcount q)
  end.

Definition popcount (k : nat) : nat :=
  match N.of_nat k with
  | N0 => 0
  | Npos p => pos_popcount p
  end.

(** [(-1) ** popcount(k)] *)
Definition parity_sign (k : nat) : R := ((-1) ^ popcount k)%R.

(** ** The random collaborators *)

(** [algorithm_globals.random] (a NumPy [Generator]) and SciPy's scrambled
    Sobol sampler.  Each call consumes the generator state [rng] and
    returns the next one. *)
Record Generator : Type := {
  rng : Type;
  (** [random(k)]: [k] floats *)
  rng_random : rng -> nat -> list R * rng;
  (** [shuffle(x)]: the array [x] after the in-place shuffle *)
  rng_shuffle : rng -> list nat -> list nat * rng;
  (** [choice(a)] for an integer [a > 0] *)
  rng_choice : rng -> nat -> nat * rng;
  (** [Sobol(d=d, scramble=True).random(k)]: [k] points of dimension [d] *)
  sobol_random : rng -> nat -> nat -> matrix * rng
}.

Definition unit_interval (u : R) : Prop := (0 <= u < 1)%R.

(** What NumPy and SciPy document about these calls. *)
Record GeneratorOK (G : Generator) : Prop := {
  random_length : forall g k, length (fst (rng_random G g k)) = k;
  random_range : forall g k, Forall unit_interval (fst (rng_random G g k));
  shuffle_perm : forall g l, Permutation l (fst (rng_shuffle G g l));
  choice_range : forall g a, 0 < a -> fst (rng_choice G g a) < a;
  sobol_rows : forall g d k, length (fst (sobol_random G g d k)) = k;
  sobol_range : forall g d k,
      Forall (fun row => length row = d /\ Forall unit_interval row)
             (fst (sobol_random G g d k))
}.

(** ** [_modified_LHC] and [_sobol_sampling] (ad_hoc.py, lines 308-326) *)

(** [np.tile(np.arange(n_div), n_passes)] *)
Definition np_tile_arange (n_div n_passes : nat) : list nat :=
  concat (repeat (seq 0 n_div) n_passes).

Section Sampling.

Variable G : Generator.

(** One turn of [for dim in range(n)]: the shuffle is in place, so the
    shuffled [all_bins] is what the next turn starts from; the turn yields
    [chosen_bins] and [offsets]. *)
Definition lhc_draw (n_samples : nat) (all_bins : list nat) (g : rng G)
  : (list nat * list R) * list nat * rng G :=
  let (all_bins', g1) := rng_shuffle G g all_bins in
  let chosen_bins := firstn n_samples all_bins' in
  let (offsets, g2) := rng_random G g1 n_samples in
  ((chosen_bins, offsets), all_bins', g2).

Fixpoint lhc_draws (n n_samples : nat) (all_bins : list nat) (g : rng G)
  : list (list nat * list R) * rng G :=
  match n with
  | O => ([], g)
  | S n' =>
      let '(d, all_bins', g1) := lhc_draw n_samples all_bins g in
      let (ds, g2) := lhc_draws n' n_samples all_bins' g1 in
      (d :: ds, g2)
  end.

(** [(chosen_bins + offsets) * bin_size] *)
Definition lhc_column (bin_size : R) (d : list nat * list R) : list R :=
  map (fun bo => ((INR (fst bo) + snd bo) * bin_size)%R) (combine (fst d) (snd d)).

(** The array [samples] of shape [(n_samples, n)], given its columns. *)
Definition rows_of_columns (n_samples : nat) (cols : list (list R)) : matrix :=
  map (fun s => map (fun col => nth s col 0%R) cols) (seq 0 n_samples).

(** The bins chosen in each dimension. *)
Definition lhc_bins (n n_samples n_div : nat) (g : rng G) : list (list nat) :=
  let n_passes := (n_samples + n_div - 1) / n_div in
  let all_bins := np_tile_arange n_div n_passes in
  map fst (fst (lhc_draws n n_samples all_bins g)).

(** [2*np.pi/n_div] raises ZeroDivisionError when [n_div] is 0. *)
Definition _modified_LHC (n n_samples n_div : nat) (g : rng G)
  : result (matrix * rng G) :=
  if Nat.eqb n_div 0 then Raise ZeroDivisionError
  else
    let bin_size := (2 * PI / INR n_div)%R in
    let n_passes := (n_samples + n_div - 1) / n_div in
    let all_bins := np_tile_arange n_div n_passes in
    let (draws, g') := lhc_draws n n_samples all_bins g in
    Ret (rows_of_columns n_samples (map (lhc_column bin_size) draws), g').

Definition _sobol_sampling (n n_samples : nat) (g : rng G) : matrix * rng G :=
  let (p, g') := sobol_random G g n n_samples in
  (map (map (fun u => (2 * PI * u)%R)) p, g').

(** Lines 136-139 of [ad_hoc_data]: the choice of the sampler. *)
Definition sample_x_vecs (train_size test_size n : nat) (divisions : Z) (g : rng G)
  : result (matrix * rng G) :=
  let n_samples := train_size + test_size in
  if (divisions >? 0)%Z then _modified_LHC n n_samples (Z.to_nat divisions) g
  else Ret (_sobol_sampling n n_samples g).

End Sampling.

(** ** [_sample_ad_hoc_data] (ad_hoc.py, lines 208-221) *)

(** The labelled grid [sample_total]: a NumPy array of labels, row-major. *)
Record ndgrid : Type := {
  shape : list nat;
  cells : list Z
}.

(** [a[idx]] for a tuple [idx] of non-negative integers: the cells of the
    sub-array selected.  An index past its axis, or more indices than
    axes, is an IndexError. *)
Fixpoint sub_array (shp : list nat) (data : list Z) (idx : list nat)
  : result (list Z) :=
  match idx with
  | [] => Ret data
  | i :: idx' =>
      match shp with
      | [] => Raise IndexError
      | d :: shp' =>
          if i <? d then
            let stride := fold_right Nat.mul 1 shp' in
            sub_array shp' (firstn stride (skipn (i * stride) data)) idx'
          else Raise IndexError
      end
  end.

(** [if sample_total[draws] == label]: the truth value of the comparison
    is that of its only cell; an array of several cells has none
    (ValueError), and neither has an empty one in current NumPy. *)
Definition cell_equals (sample_total : ndgrid) (draws : list nat) (label : Z)
  : result bool :=
  sub <- sub_array (shape sample_total) (cells sample_total) draws ;;
  match sub with
  | [x] => Ret (x =? label)%Z
  | _ => Raise ValueError
  end.

Section RejectionSampling.

Variable G : Generator.
(** The type of the grid coordinates [xvals]. *)
Variable X : Type.

(** [tuple(algorithm_globals.random.choice(count) for i in range(n))];
    [choice(0)] is a ValueError. *)
Fixpoint draw_indices (count n : nat) (g : rng G) : result (list nat * rng G) :=
  match n with
  | O => Ret ([], g)
  | S n' =>
      if Nat.eqb count 0 then Raise ValueError
      else
        let (d, g1) := rng_choice G g count in
        r <- draw_indices count n' g1 ;;
        Ret (d :: fst r, snd r)
  end.

(** [[xvals[d] for d in draws]] *)
Fixpoint grid_row (xvals : list X) (draws : list nat) : result (list X) :=
  match draws with
  | [] => Ret []
  | d :: ds =>
      match nth_error xvals d with
      | Some x => r <- grid_row xvals ds ;; Ret (x :: r)
      | None => Raise IndexError
      end
  end.

(** [while len(sample_list) < num_samples: ...], one unit of fuel a turn. *)
Fixpoint sample_loop (fuel : nat) (sample_total : ndgrid) (xvals : list X)
    (count num_samples n : nat) (label : Z)
    (sample_list : list (list X)) (g : rng G)
  : result (list (list X) * rng G) :=
  if length sample_list <? num_samples then
    match fuel with
    | O => OutOfFuel
    | S fuel' =>
        r <- draw_indices count n g ;;
        let draws := fst r in
        hit <- cell_equals sample_total draws label ;;
        if hit : bool then
          row <- grid_row xvals draws ;;
          sample_loop fuel' sample_total xvals count num_samples n label
            (sample_list ++ [row]) (snd r)
        else
          sample_loop fuel' sample_total xvals count num_samples n label
            sample_list (snd r)
    end
  else Ret (sample_list, g).

(** [sample_total.shape[0]]: a 0-d array has no first axis. *)
Definition shape0 (a : ndgrid) : result nat :=
  match shape a with
  | [] => Raise IndexError
  | c :: _ => Ret c
  end.

(** The function; [fuel] bounds the turns of each of the two [while] loops.
    [np.reshape([sample_a, sample_b], (2 * num_samples, n))] is the rows of
    [sample_a] followed by those of [sample_b]. *)
Definition _sample_ad_hoc_data (fuel : nat) (sample_total : ndgrid)
    (xvals : list X) (num_samples n : nat) (g : rng G)
  : result ((list (list X) * list Z) * rng G) :=
  count <- shape0 sample_total ;;
  a <- sample_loop fuel sample_total xvals count num_samples n 1%Z [] g ;;
  b <- sample_loop fuel sample_total xvals count num_samples n (-1)%Z [] (snd a) ;;
  let sample_a := fst a in
  let sample_b := fst b in
  let labels := repeat 0%Z num_samples ++ repeat 1%Z num_samples in
  let samples := sample_a ++ sample_b in
  Ret ((samples, labels), snd b).

(** The tuple drawn by the [k]-th turn from [g] on, and the generator left
    after [k] turns. *)
Definition next_rng (count n : nat) (g : rng G) : rng G :=
  match draw_indices count n g with
  | Ret r => snd r
  | _ => g
  end.

Fixpoint rng_after (count n k : nat) (g : rng G) : rng G :=
  match k with
  | O => g
  | S k' => rng_after count n k' (next_rng count n g)
  end.

(** The turn that starts from [g] draws a cell labelled [label]. *)
Definition hits (sample_total : ndgrid) (count n : nat) (label : Z) (g : rng G)
  : Prop :=
  exists r, draw_indices count n g = Ret r
            /\ cell_equals sample_total (fst r) label = Ret true.

(** The index stream that starts at [g] hits [label] again and again:
    after any number of turns, some later turn draws a cell labelled
    [label]. *)
Definition eventually_hits (sample_total : ndgrid) (count n : nat) (label : Z)
    (g : rng G) : Prop :=
  forall j, exists k,
    hits sample_total count n label (rng_after count n (j + k) g).

End RejectionSampling.

(** A grid of [n] axes of [count] cells each, as the reshape at the end of
    the labelling makes it, with a coordinate for every index. *)
Record grid_ok (X : Type) (sample_total : ndgrid) (xvals : list X) (count n : nat)
  : Prop := {
  grid_axes : 1 <= n;
  grid_count : 1 <= count;
  grid_shape : shape sample_total = repeat count n;
  grid_cells : length (cells sample_total) = count ^ n;
  grid_xvals : count <= length xvals
}.

(** A returned row: the coordinates [xvals[d]] of a drawn index tuple
    whose cell carries the label. *)
Definition drawn_from (X : Type) (sample_total : ndgrid) (xvals : list X)
    (count n : nat) (label : Z) (row : list X) : Prop :=
  exists draws,
    length draws = n /\ Forall (fun d => d < count) draws
    /\ cell_equals sample_total draws label = Ret true
    /\ grid_row xvals draws = Ret row.

(** ** Names of the module *)

(** The names bound in the module's namespace when line 334 runs: the
    imports of lines 18-26 and the functions defined at lines 29-332. *)
Definition module_names : list string :=
  [ "annotations"; "reduce"; "it"; "Tuple"; "Dict"; "List"; "np";
    "preprocessing"; "optionals"; "algorithm_globals"; "Sobol";
    "ad_hoc_data"; "_sample_ad_hoc_data"; "_plot_ad_hoc_data";
    "_features_and_labels_transform"; "_n_hadamard"; "_i_z"; "_n_z";
    "_modified_LHC"; "_sobol_sampling"; "_phi_i"; "_phi_ij" ]%string.

(** Python's built-in functions and constants. *)
Definition builtin_names : list string :=
  [ "abs"; "aiter"; "all"; "anext"; "any"; "ascii"; "bin"; "bool";
    "breakpoint"; "bytearray"; "bytes"; "callable"; "chr"; "classmethod";
    "compile"; "complex"; "delattr"; "dict"; "dir"; "divmod"; "enumerate";
    "eval"; "exec"; "filter"; "float"; "format"; "frozenset"; "getattr";
    "globals"; "hasattr"; "hash"; "help"; "hex"; "id"; "input"; "int";
    "isinstance"; "issubclass"; "iter"; "len"; "list"; "locals"; "map";
    "max"; "memoryview"; "min"; "next"; "object"; "oct"; "open"; "ord";
    "pow"; "print"; "property"; "range"; "repr"; "reversed"; "round";
    "set"; "setattr"; "slice"; "sorted"; "staticmethod"; "str"; "sum";
    "super"; "tuple"; "type"; "vars"; "zip"; "True"; "False"; "None";
    "Ellipsis"; "NotImplemented" ]%string.

(** A free name of a function body resolves in the module's namespace,
    then among the built-ins. *)
Definition bound (name : string) : bool :=
  existsb (String.eqb name) (module_names ++ builtin_names).

(** The free names of [ad_hoc_data] that nothing binds. *)
Definition unbound_names : list string :=
  [ "n_hadamard"; "combinations"; "_sample_total"; "count"; "xvals";
    "training_size" ]%string.

(** Reading a name that is not bound raises NameError; the type [A] is
    that of the value the code goes on to use. *)
Definition unbound_name {A : Type} (name : string) : result A :=
  Raise (NameError name).

(** ** Complex numbers and matrices *)

Definition C : Type := (R * R)%type.
Definition C0 : C := (0, 0)%R.
Definition RtoC (x : R) : C := (x, 0%R).
Definition Cadd (a b : C) : C := (fst a + fst b, snd a + snd b)%R.
Definition Cmul (a b : C) : C :=
  (fst a * fst b - snd a * snd b, fst a * snd b + snd a * fst b)%R.
Definition Cconj (a : C) : C := (fst a, - snd a)%R.
(** [np.exp(1j * t)] for a real [t] *)
Definition Cexp_i (t : R) : C := (cos t, sin t).
(** The squared modulus. *)
Definition Cnorm2 (a : C) : R := (fst a * fst a + snd a * snd a)%R.

Definition cmatrix : Type := list (list C).

Definition cdot (u v : list C) : C :=
  fold_right Cadd C0 (map (fun p => Cmul (fst p) (snd p)) (combine u v)).

Definition column {A : Type} (d : A) (j : nat) (m : list (list A)) : list A :=
  map (fun row => nth j row d) m.

(** [a @ b] for 2-d complex arrays, [b] having [width] columns. *)
Definition cmatmul (width : nat) (a b : cmatrix) : cmatrix :=
  map (fun row => map (fun j => cdot row (column C0 j b)) (seq 0 width)) a.

(** [a @ v] for a 1-d [v]. *)
Definition cmatvec (a : cmatrix) (v : list C) : list C :=
  map (fun row => cdot row v) a.

(** [a.conj().T], [a] having [width] columns. *)
Definition cdagger (width : nat) (a : cmatrix) : cmatrix :=
  map (fun j => map Cconj (column C0 j a)) (seq 0 width).

Definition to_complex (m : matrix) : cmatrix := map (map RtoC) m.

(** The squared Euclidean norm of a state vector. *)
Definition norm2 (v : list C) : R := fold_right Rplus 0%R (map Cnorm2 v).

(** ** The feature map of [ad_hoc_data] (lines 141-158) *)

Definition _phi_i (x_vecs : matrix) (i : nat) : list R :=
  map (fun x => nth i x 0%R) x_vecs.

Definition _phi_ij (x_vecs : matrix) (i j : nat) : list R :=
  map (fun x => ((PI - nth i x 0) * (PI - nth j x 0))%R) x_vecs.

(** A column [(k, 1)] times a row [(1, d)]: NumPy broadcasts the product
    to shape [(k, d)]. *)
Definition col_times_row (col row : list R) : matrix :=
  map (fun c => map (Rmult c) row) col.

(** [a += b] for two arrays of one shape. *)
Definition add_in_place (a b : matrix) : matrix :=
  map (fun p => map (fun q => (fst q + snd q)%R) (combine (fst p) (snd p)))
      (combine a b).

(** [np.zeros((rows, cols))] *)
Definition np_zeros (rows cols : nat) : matrix := repeat (repeat 0%R cols) rows.

(** [a * b] for two arrays of one shape, entry by entry, as on line 120. *)
Definition mul_rows (a b : list R) : list R :=
  map (fun p => (fst p * snd p)%R) (combine a b).

Definition pair_eqb (a b : nat * nat) : bool :=
  Nat.eqb (fst a) (fst b) && Nat.eqb (snd a) (snd b).

(** [d[key] = value] on a dictionary kept as the list of its items in
    insertion order: a key that is present keeps its place and takes the
    new value. *)
Fixpoint dict_set {V : Type} (key : nat * nat) (value : V)
    (d : list ((nat * nat) * V)) : list ((nat * nat) * V) :=
  match d with
  | [] => [(key, value)]
  | kv :: d' =>
      if pair_eqb (fst kv) key then (fst kv, value) :: d'
      else kv :: dict_set key value d'
  end.

(** Lines 118-120: the dictionary [zz_diags], filled pair by pair. *)
Definition zz_diags_of (pairs : list (nat * nat)) (z_diags : list (list R))
  : list ((nat * nat) * list R) :=
  fold_left (fun zz_diags ij =>
               dict_set ij (mul_rows (nth (fst ij) z_diags [])
                                     (nth (snd ij) z_diags []))
                        zz_diags)
            pairs [].

(** Lines 143-150: the first- and second-order terms; [z_diags] holds the
    rows [z_diags[i]] and [zz_diags] the items of the dictionary, in the
    order of [zz_diags.keys()]. *)
Definition pre_exp_of (n n_samples dims : nat) (x_vecs : matrix)
    (z_diags : list (list R)) (zz_diags : list ((nat * nat) * list R)) : matrix :=
  let pre_exp := np_zeros n_samples dims in
  let pre_exp :=
    fold_left (fun acc i =>
                 add_in_place acc (col_times_row (_phi_i x_vecs i) (nth i z_diags [])))
              (seq 0 n) pre_exp in
  fold_left (fun acc kv =>
               add_in_place acc
                 (col_times_row (_phi_ij x_vecs (fst (fst kv)) (snd (fst kv))) (snd kv)))
            zz_diags pre_exp.

(** Line 153: [np.exp(1j * pre_exp)] *)
Definition post_exp_of (pre_exp : matrix) : cmatrix := map (map Cexp_i) pre_exp.

(** The complex matrix with [v] on its diagonal. *)
Fixpoint cdiag (v : list C) : cmatrix :=
  match v with
  | [] => []
  | x :: v' => (x :: repeat C0 (length v')) :: map (cons C0) (cdiag v')
  end.

(** Lines 154-156: [Uphi] has the fixed leading dimension 10, and the
    assignment [Uphi[:, cols, cols] = post_exp[:, cols]] broadcasts
    [post_exp], of shape [(n_samples, dims)], to [(10, dims)]: that needs
    [n_samples] to be 10 or 1, and is a ValueError otherwise. *)
Definition Uphi_of (post_exp : cmatrix) : result (list cmatrix) :=
  let n_samples := length post_exp in
  if n_samples =? 10 then Ret (map cdiag post_exp)
  else if n_samples =? 1 then Ret (repeat (cdiag (hd [] post_exp)) 10)
  else Raise ValueError.

(** Line 158: [Uphi @ h_n @ Uphi @ psi_0], one state per matrix of [Uphi];
    [@] refuses a 0-d [h_n]. *)
Definition Psi_of (dims : nat) (Uphi : list cmatrix) (h_n : ndarray)
    (psi_0 : list R) : result (list (list C)) :=
  match h_n with
  | Scalar _ => Raise ValueError
  | Matrix h =>
      Ret (map (fun U =>
                  cmatvec (cmatmul dims (cmatmul dims U (to_complex h)) U)
                          (map RtoC psi_0))
               Uphi)
  end.

(** ** The labelling of [ad_hoc_data] (lines 160-168) *)

(** [bool(a)] for an array [a] of booleans, as an [if] takes it: defined
    for an array of one element only. *)
Definition truth_value (a : list bool) : result bool :=
  match a with
  | [b] => Ret b
  | _ => Raise ValueError
  end.

Definition Rgt_bool (x y : R) : bool := if Rlt_dec y x then true else false.

(** [np.real(Psi_dag @ O @ Psi)], one value per state. *)
Definition exp_val_of (O : cmatrix) (Psi : list (list C)) : list R :=
  map (fun psi => fst (cdot (map Cconj psi) (cmatvec O psi))) Psi.

(** [np.sign] of an expectation value, as a label. *)
Definition sign_label (e : R) : Z :=
  match total_order_T e 0 with
  | inleft (left _) => (-1)%Z
  | inleft (right _) => 0%Z
  | inright _ => 1%Z
  end.

(** Lines 164-168.  The condition of the [if] is the whole array
    [np.abs(exp_val) > gap]; the list appended to and the grid size are the
    free names [_sample_total] and [count]. *)
Definition label_block (exp_val : list R) (gap : R) (n : nat) : result ndgrid :=
  big <- truth_value (map (fun e => Rgt_bool (Rabs e) gap) exp_val) ;;
  _sample_total <- unbound_name "_sample_total" ;;
  let _sample_total :=
    _sample_total ++ [if big : bool then sign_label (hd 0%R exp_val) else 0%Z] in
  count <- unbound_name "count" ;;
  if length _sample_total =? count ^ n
  then Ret {| shape := repeat count n; cells := _sample_total |}
  else Raise ValueError.

(** ** [_features_and_labels_transform] (ad_hoc.py, lines 238-275) *)

(** The label array: one-hot rows, or the encoded classes. *)
Inductive label_array : Type :=
| OneHot (m : list (list Z))
| Encoded (v : list Z).

(** The position of [category] among the (sorted) [class_labels]. *)
Fixpoint class_index (class_labels : list string) (category : string) : nat :=
  match class_labels with
  | [] => 0
  | c :: cs => if String.eqb c category then 0 else S (class_index cs category)
  end.

(** The dictionary [dataset] is the list of its items, in insertion order.
    The embedding is that of the calls [ad_hoc_data] makes: a dataset that
    is not empty, whose keys are the class labels, themselves in sorted
    order (the order scikit-learn gives the categories); elsewhere
    [np.concatenate] and the encoders raise ValueError. *)
Definition _features_and_labels_transform (dataset : list (string * matrix))
    (class_labels : list string) (one_hot : bool) : matrix * label_array :=
  let features := concat (map snd dataset) in
  let raw_labels :=
    flat_map (fun kv => repeat (fst kv) (length (snd kv))) dataset in
  match raw_labels with
  | [] => (features, OneHot [])
  | _ =>
      if one_hot then
        (features,
         OneHot (map (fun c =>
                        map (fun k => if Nat.eqb k (class_index class_labels c)
                                      then 1%Z else 0%Z)
                            (seq 0 (length class_labels)))
                     raw_labels))
      else
        (features,
         Encoded (map (fun c => Z.of_nat (class_index class_labels c)) raw_labels))
  end.

(** ** [ad_hoc_data] (ad_hoc.py, lines 29-205) *)

(** The deterministic collaborators: [np.linalg.eig], [argsort] on complex
    eigenvalues, and whether matplotlib is installed. *)
Record Collaborators : Type := {
  np_linalg_eig : cmatrix -> list C * cmatrix;
  np_argsort : list C -> list nat;
  has_matplotlib : bool
}.

(** What [ad_hoc_data] returns: four arrays, and [sample_total] as a fifth
    when [include_sample_total] is set. *)
Record dataset : Type := {
  training_feature_array : matrix;
  training_label_array : label_array;
  test_feature_array : matrix;
  test_label_array : label_array;
  sample_total_of : option ndgrid
}.

(** [m.reshape((rows, width))] of a flat list. *)
Definition reshape2 {A : Type} (rows width : nat) (m : list A) : list (list A) :=
  map (fun r => firstn width (skipn (r * width) m)) (seq 0 rows).

(** [x_sample[y_sample == k, :]] *)
Definition rows_with_label (x_sample : matrix) (y_sample : list Z) (k : Z) : matrix :=
  map fst (filter (fun p => (snd p =? k)%Z) (combine x_sample y_sample)).

(** [[f(x) for x in l]] where [f] may raise. *)
Fixpoint map_result {A B : Type} (f : A -> result B) (l : list A) : result (list B) :=
  match l with
  | [] => Ret []
  | x :: l' => y <- f x ;; ys <- map_result f l' ;; Ret (y :: ys)
  end.

(** Lines 176-189 of [ad_hoc_data]: of the rows of each class, the first
    [training_size] are the training input and the next [test_size] the test
    input; each input is then turned into a feature and a label array. *)
Definition split_samples (x_sample : matrix) (y_sample : list Z)
    (training_size test_size : nat) (class_labels : list string) (one_hot : bool)
  : (matrix * label_array) * (matrix * label_array) :=
  let training_input :=
    map (fun kk => (snd kk,
                    firstn training_size
                      (rows_with_label x_sample y_sample (Z.of_nat (fst kk)))))
        (combine (seq 0 (length class_labels)) class_labels) in
  let test_input :=
    map (fun kk => (snd kk,
                    firstn test_size
                      (skipn training_size
                         (rows_with_label x_sample y_sample (Z.of_nat (fst kk))))))
        (combine (seq 0 (length class_labels)) class_labels) in
  (_features_and_labels_transform training_input class_labels one_hot,
   _features_and_labels_transform test_input class_labels one_hot).

Section AdHocData.

Variable G : Generator.
Variable L : Collaborators.

(** [_plot_ad_hoc_data] draws and returns nothing; its decorator raises
    when matplotlib is missing. *)
Definition _plot_ad_hoc_data : result unit :=
  if has_matplotlib L then Ret tt else Raise MissingOptionalLibraryError.

(** The body, statement by statement.  A free name that the module does
    not bind ([unbound_names]) is read with [unbound_name]. *)
Definition ad_hoc_data (fuel : nat) (train_size test_size : nat) (n : Z) (gap : R)
    (divisions : Z) (plot_data one_hot include_sample_total : bool) (g : rng G)
  : result (dataset * rng G) :=
  let class_labels := ["A"; "B"]%string in
  (* Initial State: [2**n] is a float for a negative [n], and [np.ones]
     takes no float *)
  dims <- (if (n <? 0)%Z then Raise TypeError else Ret (2 ^ Z.to_nat n)) ;;
  let psi_0 := map (fun x => (x / sqrt (INR dims))%R) (repeat 1%R dims) in
  (* n-qubit Hadamard *)
  n_hadamard <- unbound_name "n_hadamard" ;;
  h_n <- (n_hadamard : Z -> result ndarray) n ;;
  (* Single qubit Z gates *)
  z_gates <- map_result (fun i => _i_z (Z.of_nat i) n) (seq 0 (Z.to_nat n)) ;;
  let z_diags := map (diagonal_from 0) z_gates in
  (* Precompute Pairwise ZZ block diagonals *)
  combinations <- unbound_name "combinations" ;;
  let zz_diags :=
    zz_diags_of
      ((combinations : list nat -> nat -> list (nat * nat)) (seq 0 (Z.to_nat n)) 2)
      z_diags in
  (* n-qubit Z gate *)
  z_n <- _n_z h_n ;;
  (* V change of basis *)
  let (u, g1) := rng_random G g dims in
  let (m, g2) := rng_random G g1 (dims * dims) in
  let A := map (fun row => combine u row) (reshape2 dims dims m) in
  let Herm := cmatmul dims (cdagger dims A) A in
  let (eigvals, eigvecs) := np_linalg_eig L Herm in
  let idx := rev (np_argsort L eigvals) in
  let V := map (fun row => map (fun j => nth j row C0) idx) eigvecs in
  (* Observable for labelling boundary *)
  let O := cmatmul dims (cmatmul dims (cdagger dims V) (to_complex z_n)) V in
  (* Stratified Sampling for x vector *)
  let n_samples := train_size + test_size in
  xs <- sample_x_vecs G train_size test_size (Z.to_nat n) divisions g2 ;;
  let x_vecs := fst xs in
  (* Seperable ZZFeaturemap *)
  let pre_exp := pre_exp_of (Z.to_nat n) n_samples dims x_vecs z_diags zz_diags in
  let post_exp := post_exp_of pre_exp in
  Uphi <- Uphi_of post_exp ;;
  Psi <- Psi_of dims Uphi h_n psi_0 ;;
  (* Labelling *)
  let exp_val := exp_val_of O Psi in
  sample_total <- label_block exp_val gap (Z.to_nat n) ;;
  (* Extract training and testing samples from grid *)
  xvals <- unbound_name "xvals" ;;
  training_size <- unbound_name "training_size" ;;
  r <- _sample_ad_hoc_data G fuel sample_total (xvals : list R)
         (training_size + test_size) (Z.to_nat n) (snd xs) ;;
  let x_sample := fst (fst r) in
  let y_sample := snd (fst r) in
  _ <- (if plot_data then _plot_ad_hoc_data else Ret tt) ;;
  let split := split_samples x_sample y_sample training_size test_size
                 class_labels one_hot in
  let training := fst split in
  let test := snd split in
  Ret ({| training_feature_array := fst training;
          training_label_array := snd training;
          test_feature_array := fst test;
          test_label_array := snd test;
          sample_total_of :=
            if include_sample_total then Some sample_total else None |},
       snd r).

End AdHocData.

(** ** A concrete generator *)

(** A generator whose shuffle sorts, whose floats are all 1/2 and whose
    [choice] counts up: one of the behaviours the documentation of NumPy
    and SciPy allows, used to run the model on concrete inputs. *)
Fixpoint insert_sorted (x : nat) (l : list nat) : list nat :=
  match l with
  | [] => [x]
  | y :: l' => if x <=? y then x :: l else y :: insert_sorted x l'
  end.

Definition sort_bins (l : list nat) : list nat := fold_right insert_sorted [] l.

Definition sorting_generator : Generator := {|
  rng := nat;
  rng_random := fun g k => (repeat (1 / 2)%R k, g);
  rng_shuffle := fun g l => (sort_bins l, g);
  rng_choice := fun g a => (g mod a, S g);
  sobol_random := fun g d k => (repeat (repeat (1 / 2)%R d) k, g)
|}.

(** A grid of one axis and two cells, one of each label. *)
Definition two_cell_grid : ndgrid := {| shape := [2]; cells := [1; -1]%Z |}.

(** ** [_n_hadamard] and [_modified_LHC] in float64

    The embedding above computes in the real numbers.  NumPy rounds every
    product, sum and quotient to float64; the two functions whose results
    that changes are embedded here once more, over the kernel's binary64
    floats, with the same statements in the same order. *)

Module F64.

Import PrimFloat.
Local Open Scope float_scope.

(** [np.pi] *)
Definition np_pi : float := 0x1.921fb54442d18p+1.

(** [2*np.pi] *)
Definition two_pi : float := 2 * np_pi.

(** A small Python [int] as a float64: exact below 2^53. *)
Fixpoint of_nat (k : nat) : float :=
  match k with
  | O => 0
  | S k' => of_nat k' + 1
  end.

Definition matrix : Type := list (list float).

Definition kron (a b : matrix) : matrix := kprod (kprod mul) a b.

Inductive ndarray : Type :=
| Scalar (x : float)
| Matrix (m : matrix).

Definition np_kron (a b : ndarray) : ndarray :=
  match a, b with
  | Scalar x, Scalar y => Scalar (x * y)
  | Scalar x, Matrix m => Matrix (map (map (mul x)) m)
  | Matrix m, Scalar y => Matrix (map (map (fun v => v * y)) m)
  | Matrix m1, Matrix m2 => Matrix (kron m1 m2)
  end.

(** [np.array([[1, 1], [1, -1]]) / np.sqrt(2)] *)
Definition hadamard_base : matrix :=
  map (map (fun x => x / sqrt 2)) [[1; 1]; [1; -1]].

(** The [while expo > 0] loop of [_n_hadamard], by the binary digits of
    [expo]: [expo % 2] is the lowest digit and [expo //= 2] drops it.  At
    the last digit the source squares [base] once more, a value it does
    not use. *)
Fixpoint hadamard_loop (expo : positive) (result base : ndarray) : ndarray :=
  match expo with
  | xH => np_kron result base
  | xO q => hadamard_loop q result (np_kron base base)
  | xI q => hadamard_loop q (np_kron result base) (np_kron base base)
  end.

Definition _n_hadamard (n : Z) : ndarray :=
  match n with
  | Zpos p => hadamard_loop p (Scalar 1) (Matrix hadamard_base)
  | _ => Scalar 1
  end.

(** The naive [n]-fold Kronecker product, factor by factor. *)
Fixpoint kron_power (a : ndarray) (n : nat) : ndarray :=
  match n with
  | O => Scalar 1
  | S k => np_kron (kron_power a k) a
  end.

(** The entry [(i, j)] of a 2-d array. *)
Definition entry (a : ndarray) (i j : nat) : float :=
  match a with
  | Scalar x => x
  | Matrix m => nth j (nth i m []) 0
  end.

(** [algorithm_globals.random], as far as [_modified_LHC] uses it. *)
Record Generator : Type := {
  rng : Type;
  rng_random : rng -> nat -> list float * rng;
  rng_shuffle : rng -> list nat -> list nat * rng
}.

(** [0 <= u < 1] *)
Definition unit_interval (u : float) : bool := (0 <=? u) && (u <? 1).

Record GeneratorOK (G : Generator) : Prop := {
  random_length : forall g k, length (fst (rng_random G g k)) = k;
  random_range : forall g k, forallb unit_interval (fst (rng_random G g k)) = true;
  shuffle_perm : forall g l, Permutation l (fst (rng_shuffle G g l))
}.

Section Sampling.

Variable G : Generator.

Definition lhc_draw (n_samples : nat) (all_bins : list nat) (g : rng G)
  : (list nat * list float) * list nat * rng G :=
  let (all_bins', g1) := rng_shuffle G g all_bins in
  let chosen_bins := firstn n_samples all_bins' in
  let (offsets, g2) := rng_random G g1 n_samples in
  ((chosen_bins, offsets), all_bins', g2).

Fixpoint lhc_draws (n n_samples : nat) (all_bins : list nat) (g : rng G)
  : list (list nat * list float) * rng G :=
  match n with
  | O => ([], g)
  | S n' =>
      let '(d, all_bins', g1) := lhc_draw n_samples all_bins g in
      let (ds, g2) := lhc_draws n' n_samples all_bins' g1 in
      (d :: ds, g2)
  end.

(** [(chosen_bins + offsets) * bin_size], each operation rounded. *)
Definition lhc_column (bin_size : float) (d : list nat * list float) : list float :=
  map (fun bo => (of_nat (fst bo) + snd bo) * bin_size) (combine (fst d) (snd d)).

Definition rows_of_columns (n_samples : nat) (cols : list (list float)) : matrix :=
  map (fun s => map (fun col => nth s col 0) cols) (seq 0 n_samples).

Definition _modified_LHC (n n_samples n_div : nat) (g : rng G)
  : result (matrix * rng G) :=
  if Nat.eqb n_div 0 then Raise ZeroDivisionError
  else
    let bin_size := 2 * np_pi / of_nat n_div in
    let n_passes := ((n_samples + n_div - 1) / n_div)%nat in
    let all_bins := np_tile_arange n_div n_passes in
    let (draws, g') := lhc_draws n n_samples all_bins g in
    Ret (rows_of_columns n_samples (map (lhc_column bin_size) draws), g').

End Sampling.

(** The lower edge [b * bin_size] of bin [b] out of [n_div]. *)
Definition bin_edge (n_div b : nat) : float := of_nat b * (2 * np_pi / of_nat n_div).

(** A generator within the documented behaviour: the shuffle leaves the
    array as it is, and every float is the largest one below 1. *)
Definition edge_generator : Generator := {|
  rng := unit;
  rng_random := fun g k => (repeat 0x1.fffffffffffffp-1 k, g);
  rng_shuffle := fun g l => (l, g)
|}.

End F64.

(** ** The predicates of the statements *)

(** A matrix of [r] rows and [c] columns. *)
Definition has_shape (r c : nat) (m : matrix) : Prop :=
  length m = r /\ Forall (fun row => length row = c) m.

(** A complex number of modulus 1. *)
Definition unit_modulus (z : C) : Prop := Cnorm2 z = 1%R.

(** The vector [c * w[2j] + d * w[2j+1]], [j = 0, 1, ...]: what one row
    [[c, d]] of a 2x2 factor makes of a vector of pairs. *)
Fixpoint pair_fold (c d : R) (w : list C) : list C :=
  match w with
  | x :: y :: w' => Cadd (Cmul (RtoC c) x) (Cmul (RtoC d) y) :: pair_fold c d w'
  | _ => []
  end.

(** A real [d] by [d] matrix that keeps the norm of every complex vector. *)
Definition norm_preserving (d : nat) (m : matrix) : Prop :=
  has_shape d d m
  /\ forall w, length w = d -> norm2 (cmatvec (to_complex m) w) = norm2 w.

(** The parameter space [[0, 2*pi)]. *)
Definition in_parameter_space (x : R) : Prop := (0 <= x < 2 * PI)%R.

(** "Each bin used before any bin repeats within a pass": cut into passes
    of [n_div] samples, the bins of a dimension are distinct within each
    pass. *)
Definition each_pass_distinct (n_div : nat) (bins : list nat) : Prop :=
  forall k, NoDup (firstn n_div (skipn (k * n_div) bins)).

(** The bins one dimension uses: the first [n_samples] of some reordering
    of the tiled bins. *)
Definition chosen_from (tile : list nat) (n_samples : nat) (chosen : list nat) : Prop :=
  exists perm, Permutation tile perm /\ chosen = firstn n_samples perm.

(** The bin [b] of width [bin_size]. *)
Definition in_bin (bin_size : R) (b : nat) (x : R) : Prop :=
  (INR b * bin_size <= x < (INR b + 1) * bin_size)%R.

(** "If one of the two labels is absent from the grid, the loop never
    terminates", for every number of samples. *)
Definition absent_label_never_terminates (G : Generator) : Prop :=
  forall (sample_total : ndgrid) (xvals : list R) (count num_samples n : nat)
         (g : rng G),
    grid_ok sample_total xvals count n ->
    ~ In 1%Z (cells sample_total) \/ ~ In (-1)%Z (cells sample_total) ->
    forall fuel,
      _sample_ad_hoc_data G fuel sample_total xvals num_samples n g = OutOfFuel.

(** ** The entries of the single-qubit Z gates *)

(** The sign that bit [e] of the index [k] gives: -1 when the bit is set. *)
Definition bit_sign (e k : nat) : R := if Nat.testbit k e then (-1)%R else 1%R.

(** A value of [np.sign]. *)
Definition is_sign (x : R) : Prop := x = (-1)%R \/ x = 0%R \/ x = 1%R.

(** ** The observable of [ad_hoc_data] (lines 125-134) *)

(** Line 128: [Herm = A.conj().T @ A], for a [dims] by [dims] array [A]. *)
Definition Herm_of (dims : nat) (A : cmatrix) : cmatrix :=
  cmatmul dims (cdagger dims A) A.

(** Line 134: [O = V.conj().T @ z_n @ V] *)
Definition O_of (dims : nat) (V : cmatrix) (z_n : matrix) : cmatrix :=
  cmatmul dims (cmatmul dims (cdagger dims V) (to_complex z_n)) V.

(** A complex [d] by [d] matrix that keeps the norm of every vector: a
    unitary matrix, as the eigenvectors of a Hermitian matrix form. *)
Definition keeps_norm (d : nat) (V : cmatrix) : Prop :=
  length V = d /\ Forall (fun row => length row = d) V
  /\ forall w, length w = d -> norm2 (cmatvec V w) = norm2 w.

(** The sum of [z_k * |w_k|^2]. *)
Definition weighted_norm2 (z : list R) (w : list C) : R :=
  fold_right Rplus 0%R (map (fun p => (fst p * Cnorm2 (snd p))%R) (combine z w)).

(** The entry [(j, k)] of the [n]-qubit Hadamard matrix in closed form:
    the parity of the bits [j] and [k] share, over [sqrt(2)^n]. *)
Definition walsh_entry (n j k : nat) : R :=
  (parity_sign (Nat.land j k) / sqrt 2 ^ n)%R.

(** * Properties *)

(** ** Kronecker products *)

Section KprodFacts.

Variable X : Type.
Variable op : X -> X -> X.

Lemma kprod_app_l (l1 l1' l2 : list X) :
  kprod op (l1 ++ l1') l2 = kprod op l1 l2 ++ kprod op l1' l2.
Proof. unfold kprod. apply flat_map_app. Qed.

Lemma map_kprod_l (f g : X -> X) (l1 l2 : list X) :
  (forall a b, f (op a b) = op (g a) b) ->
  map f (kprod op l1 l2) = kprod op (map g l1) l2.
Proof.
  intros Hfg. induction l1 as [|a l1 IH]; simpl; [reflexivity|].
  rewrite map_app, map_map, IH. f_equal.
  apply map_ext. intros b. apply Hfg.
Qed.

Lemma map_kprod_r (f g : X -> X) (l1 l2 : list X) :
  (forall a b, f (op a b) = op a (g b)) ->
  map f (kprod op l1 l2) = kprod op l1 (map g l2).
Proof.
  intros Hfg. induction l1 as [|a l1 IH]; simpl; [reflexivity|].
  rewrite map_app, !map_map, IH. f_equal.
  apply map_ext. intros b. apply Hfg.
Qed.

Lemma kprod_map_swap (f g : X -> X) (l1 l2 : list X) :
  (forall a b, op (f a) b = op a (g b)) ->
  kprod op (map f l1) l2 = kprod op l1 (map g l2).
Proof.
  intros Hfg. unfold kprod.
  induction l1 as [|a l1 IH]; simpl; [reflexivity|].
  rewrite map_map, IH. f_equal.
  apply map_ext. intros b. apply Hfg.
Qed.

Lemma kprod_assoc (l1 l2 l3 : list X) :
  (forall a b c, op (op a b) c = op a (op b c)) ->
  kprod op (kprod op l1 l2) l3 = kprod op l1 (kprod op l2 l3).
Proof.
  intros Hassoc. induction l1 as [|a l1 IH]; simpl; [reflexivity|].
  change (flat_map (fun a0 => map (op a0) l3) (map (op a) l2 ++ kprod op l1 l2))
    with (kprod op (map (op a) l2 ++ kprod op l1 l2) l3).
  rewrite kprod_app_l, IH. f_equal.
  symmetry. apply map_kprod_l. intros b c. symmetry. apply Hassoc.
Qed.

Lemma kprod_length (l1 l2 : list X) :
  length (kprod op l1 l2) = length l1 * length l2.
Proof.
  unfold kprod.
  induction l1 as [|a l1 IH]; simpl; [reflexivity|].
  rewrite length_app, length_map, IH. reflexivity.
Qed.

Lemma kprod_Forall (P Q R' : X -> Prop) (l1 l2 : list X) :
  (forall a b, P a -> Q b -> R' (op a b)) ->
  Forall P l1 -> Forall Q l2 -> Forall R' (kprod op l1 l2).
Proof.
  intros Hop H1 H2. unfold kprod.
  induction H1 as [|a l1 Ha _ IH]; simpl; [constructor|].
  apply Forall_app. split; [|exact IH].
  apply Forall_map. eapply Forall_impl; [|exact H2].
  intros b Hb. apply Hop; assumption.
Qed.

End KprodFacts.

Lemma krow_assoc (a b c : list R) :
  kprod Rmult (kprod Rmult a b) c = kprod Rmult a (kprod Rmult b c).
Proof. apply kprod_assoc. intros; apply Rmult_assoc. Qed.

Lemma kron_assoc (a b c : matrix) : kron (kron a b) c = kron a (kron b c).
Proof. unfold kron. apply kprod_assoc. intros; apply krow_assoc. Qed.

Lemma scale_l_kron (x : R) (m p : matrix) :
  scale_l x (kron m p) = kron (scale_l x m) p.
Proof.
  unfold scale_l, kron. apply map_kprod_l. intros a b.
  apply map_kprod_l. intros u v. symmetry. apply Rmult_assoc.
Qed.

Lemma scale_r_kron (m p : matrix) (y : R) :
  scale_r (kron m p) y = kron m (scale_r p y).
Proof.
  unfold scale_r, kron. apply map_kprod_r. intros a b.
  apply map_kprod_r. intros u v. apply Rmult_assoc.
Qed.

Lemma kron_scale_swap (m p : matrix) (y : R) :
  kron (scale_r m y) p = kron m (scale_l y p).
Proof.
  unfold scale_r, scale_l, kron. apply kprod_map_swap. intros a b.
  apply kprod_map_swap. intros u v. apply Rmult_assoc.
Qed.

Lemma scale_l_scale_l (x y : R) (m : matrix) :
  scale_l x (scale_l y m) = scale_l (x * y) m.
Proof.
  unfold scale_l. rewrite map_map. apply map_ext. intros row.
  rewrite map_map. apply map_ext. intros v. symmetry. apply Rmult_assoc.
Qed.

Lemma scale_r_scale_l (x y : R) (m : matrix) :
  scale_r (scale_l x m) y = scale_l x (scale_r m y).
Proof.
  unfold scale_l, scale_r. rewrite !map_map. apply map_ext. intros row.
  rewrite !map_map. apply map_ext. intros v. apply Rmult_assoc.
Qed.

Lemma scale_r_scale_r (x y : R) (m : matrix) :
  scale_r (scale_r m x) y = scale_r m (x * y).
Proof.
  unfold scale_r. rewrite map_map. apply map_ext. intros row.
  rewrite map_map. apply map_ext. intros v. apply Rmult_assoc.
Qed.

Lemma scale_l_1 (m : matrix) : scale_l 1 m = m.
Proof.
  unfold scale_l. rewrite <- (map_id m) at 2. apply map_ext. intros row.
  rewrite <- (map_id row) at 2. apply map_ext. intros v. apply Rmult_1_l.
Qed.

Lemma scale_r_1 (m : matrix) : scale_r m 1 = m.
Proof.
  unfold scale_r. rewrite <- (map_id m) at 2. apply map_ext. intros row.
  rewrite <- (map_id row) at 2. apply map_ext. intros v. apply Rmult_1_r.
Qed.

Lemma np_kron_assoc (a b c : ndarray) :
  np_kron (np_kron a b) c = np_kron a (np_kron b c).
Proof.
  destruct a as [x|m], b as [y|p], c as [z|q]; simpl; f_equal.
  - apply Rmult_assoc.
  - symmetry. apply scale_l_scale_l.
  - apply scale_r_scale_l.
  - symmetry. apply scale_l_kron.
  - apply scale_r_scale_r.
  - apply kron_scale_swap.
  - apply scale_r_kron.
  - apply kron_assoc.
Qed.

Lemma np_kron_1_l (a : ndarray) : np_kron (Scalar 1) a = a.
Proof. destruct a; simpl; f_equal; [apply Rmult_1_l | apply scale_l_1]. Qed.

Lemma np_kron_1_r (a : ndarray) : np_kron a (Scalar 1) = a.
Proof. destruct a; simpl; f_equal; [apply Rmult_1_r | apply scale_r_1]. Qed.

Lemma kron_power_add (a : ndarray) (j k : nat) :
  kron_power a (j + k) = np_kron (kron_power a j) (kron_power a k).
Proof.
  induction k as [|k IH].
  - rewrite Nat.add_0_r. simpl. symmetry. apply np_kron_1_r.
  - rewrite Nat.add_succ_r. simpl. rewrite IH. apply np_kron_assoc.
Qed.

Lemma kron_power_1 (a : ndarray) : kron_power a 1 = a.
Proof. simpl. apply np_kron_1_l. Qed.

Lemma kron_power_square (a : ndarray) (k : nat) :
  kron_power (np_kron a a) k = kron_power a (2 * k).
Proof.
  induction k as [|k IH]; [reflexivity|].
  replace (2 * S k) with (2 * k + (1 + 1)) by lia.
  simpl kron_power at 1. rewrite IH.
  rewrite (kron_power_add a (2 * k) (1 + 1)), (kron_power_add a 1 1).
  rewrite kron_power_1. reflexivity.
Qed.

(** The loop invariant of the binary exponentiation. *)
Lemma hadamard_loop_spec (expo : Z) (result base : ndarray) :
  hadamard_loop expo result base
  = np_kron result (kron_power base (Z.to_nat expo)).
Proof.
  funelim (hadamard_loop expo result base).
  - match goal with
    | IH : hadamard_loop _ _ _ = np_kron _ _ |- _ => rewrite IH
    end.
    rewrite kron_power_square.
    pose proof (Z.div_mod expo 2 ltac:(lia)) as Hdm.
    pose proof (Z.mod_pos_bound expo 2 ltac:(lia)) as Hb.
    destruct (Z.eqb_spec (expo mod 2) 1) as [Hodd|Heven].
    + replace (Z.to_nat expo) with (1 + 2 * Z.to_nat (expo / 2)) by lia.
      rewrite kron_power_add, kron_power_1. apply np_kron_assoc.
    + replace (Z.to_nat expo) with (2 * Z.to_nat (expo / 2)) by lia.
      reflexivity.
  - replace (Z.to_nat expo) with 0 by lia. simpl.
    symmetry. apply np_kron_1_r.
Qed.

Lemma n_hadamard_naive (n : nat) :
  _n_hadamard (Z.of_nat n) = kron_power (Matrix hadamard_base) n.
Proof.
  unfold _n_hadamard. rewrite hadamard_loop_spec, Nat2Z.id.
  apply np_kron_1_l.
Qed.

Lemma kron_shape (r1 c1 r2 c2 : nat) (a b : matrix) :
  has_shape r1 c1 a -> has_shape r2 c2 b -> has_shape (r1 * r2) (c1 * c2) (kron a b).
Proof.
  intros [Ha1 Ha2] [Hb1 Hb2]. split.
  - unfold kron. rewrite kprod_length. congruence.
  - unfold kron.
    apply kprod_Forall with (P := fun row => length row = c1)
                            (Q := fun row => length row = c2); try assumption.
    intros u v Hu Hv. rewrite kprod_length. congruence.
Qed.

Lemma hadamard_base_shape : has_shape 2 2 hadamard_base.
Proof. split; [reflexivity | repeat constructor]. Qed.

Lemma hadamard_power_shape (n : nat) :
  exists m, kron_power (Matrix hadamard_base) (S n) = Matrix m
            /\ has_shape (2 ^ S n) (2 ^ S n) m.
Proof.
  induction n as [|n [m [Hm Hs]]].
  - exists hadamard_base. split; [apply kron_power_1 | apply hadamard_base_shape].
  - exists (kron m hadamard_base). split.
    + change (kron_power (Matrix hadamard_base) (S (S n)))
        with (np_kron (kron_power (Matrix hadamard_base) (S n)) (Matrix hadamard_base)).
      rewrite Hm. reflexivity.
    + replace (2 ^ S (S n)) with (2 ^ S n * 2) by (simpl; lia).
      apply kron_shape; [exact Hs | apply hadamard_base_shape].
Qed.

(** C7, amended: over exact real arithmetic, for every [n >= 0] the binary
    exponentiation of [_n_hadamard] returns the naive [n]-fold Kronecker
    product of the 2x2 Hadamard matrix [[1,1],[1,-1]]/sqrt(2): the scalar 1
    for [n = 0], and a matrix of [2^n] rows and [2^n] columns otherwise.
    (In float64 the two can differ in the last place.) *)
Theorem n_hadamard_is_kron_power (n : nat) :
  _n_hadamard (Z.of_nat n) = kron_power (Matrix hadamard_base) n
  /\ match n with
     | O => _n_hadamard (Z.of_nat n) = Scalar 1
     | S _ => exists m, _n_hadamard (Z.of_nat n) = Matrix m
                        /\ has_shape (2 ^ n) (2 ^ n) m
     end.
Proof.
  split; [apply n_hadamard_naive|].
  destruct n as [|n].
  - rewrite n_hadamard_naive. reflexivity.
  - rewrite n_hadamard_naive. apply hadamard_power_shape.
Qed.

(** ** The diagonal of a Kronecker product, and [_n_z] *)

Lemma nth_error_krow2_even (row : list R) (c d : R) (k : nat) :
  nth_error (kprod Rmult row [c; d]) (2 * k)
  = option_map (fun x => (x * c)%R) (nth_error row k).
Proof.
  revert k. induction row as [|x row IH]; intros k.
  - simpl. destruct (k + (k + 0)); destruct k; reflexivity.
  - destruct k as [|k].
    + reflexivity.
    + replace (2 * S k) with (S (S (2 * k))) by lia.
      simpl nth_error at 2. rewrite <- IH. reflexivity.
Qed.

Lemma nth_error_krow2_odd (row : list R) (c d : R) (k : nat) :
  nth_error (kprod Rmult row [c; d]) (S (2 * k))
  = option_map (fun x => (x * d)%R) (nth_error row k).
Proof.
  revert k. induction row as [|x row IH]; intros k.
  - simpl. destruct k; reflexivity.
  - destruct k as [|k].
    + reflexivity.
    + replace (2 * S k) with (S (S (2 * k))) by lia.
      simpl nth_error at 2. rewrite <- IH. reflexivity.
Qed.

(** The diagonal of [a (x) b] for a 2x2 [b]: each diagonal entry of [a]
    times the two diagonal entries of [b]. *)
Lemma diagonal_kron2 (a : matrix) (b00 b01 b10 b11 : R) (k : nat) :
  diagonal_from (2 * k) (kron a [[b00; b01]; [b10; b11]])
  = kprod Rmult (diagonal_from k a) [b00; b11].
Proof.
  revert k. induction a as [|row a IH]; intros k; [reflexivity|].
  change (kron (row :: a) [[b00; b01]; [b10; b11]])
    with (kprod Rmult row [b00; b01] :: kprod Rmult row [b10; b11]
          :: kron a [[b00; b01]; [b10; b11]]).
  cbn [diagonal_from].
  rewrite nth_error_krow2_even, nth_error_krow2_odd.
  destruct (nth_error row k) as [x|]; [|reflexivity].
  cbn [option_map].
  replace (S (S (2 * k))) with (2 * S k) by lia.
  rewrite IH. reflexivity.
Qed.

Lemma np_sign_pos (x : R) : (0 < x)%R -> np_sign x = 1%R.
Proof.
  intros Hx. unfold np_sign.
  destruct (total_order_T x 0) as [[Hlt|Heq]|Hgt]; [lra | lra | reflexivity].
Qed.

Lemma np_sign_neg (x : R) : (x < 0)%R -> np_sign x = (-1)%R.
Proof.
  intros Hx. unfold np_sign.
  destruct (total_order_T x 0) as [[Hlt|Heq]|Hgt]; [reflexivity | lra | lra].
Qed.

Lemma np_sign_0 : np_sign 0 = 0%R.
Proof.
  unfold np_sign.
  destruct (total_order_T 0 0) as [[Hlt|Heq]|Hgt]; [lra | reflexivity | lra].
Qed.

Lemma np_sign_mult_pos (x h : R) :
  (0 < h)%R -> np_sign (x * h) = (np_sign x * 1)%R.
Proof.
  intros Hh. rewrite Rmult_1_r.
  destruct (total_order_T x 0) as [[Hlt|Heq]|Hgt].
  - rewrite (np_sign_neg Hlt). apply np_sign_neg. nra.
  - subst x. rewrite Rmult_0_l. reflexivity.
  - rewrite (np_sign_pos Hgt). apply np_sign_pos. nra.
Qed.

Lemma np_sign_mult_neg (x h : R) :
  (h < 0)%R -> np_sign (x * h) = (np_sign x * -1)%R.
Proof.
  intros Hh.
  destruct (total_order_T x 0) as [[Hlt|Heq]|Hgt].
  - rewrite (np_sign_neg Hlt). replace (-1 * -1)%R with 1%R by lra.
    apply np_sign_pos. nra.
  - subst x. rewrite Rmult_0_l, np_sign_0. lra.
  - rewrite (np_sign_pos Hgt). replace (1 * -1)%R with (-1)%R by lra.
    apply np_sign_neg. nra.
Qed.

Lemma sign_krow2 (v : list R) (c d : R) :
  (0 < c)%R -> (d < 0)%R ->
  map np_sign (kprod Rmult v [c; d]) = kprod Rmult (map np_sign v) [1; -1]%R.
Proof.
  intros Hc Hd. induction v as [|x v IH]; [reflexivity|].
  change (kprod Rmult (x :: v) [c; d])
    with ((x * c)%R :: (x * d)%R :: kprod Rmult v [c; d]).
  cbn [map]. rewrite IH.
  rewrite (np_sign_mult_pos x Hc), (np_sign_mult_neg x Hd). reflexivity.
Qed.

Lemma popcount_double (a : nat) : popcount (2 * a) = popcount a.
Proof.
  unfold popcount.
  replace (N.of_nat (2 * a)) with (2 * N.of_nat a)%N by lia.
  destruct (N.of_nat a); reflexivity.
Qed.

Lemma popcount_double_succ (a : nat) : popcount (S (2 * a)) = S (popcount a).
Proof.
  unfold popcount.
  replace (N.of_nat (S (2 * a))) with (2 * N.of_nat a + 1)%N by lia.
  destruct (N.of_nat a); reflexivity.
Qed.

Lemma parity_krow2 (a len : nat) :
  kprod Rmult (map parity_sign (seq a len)) [1; -1]%R
  = map parity_sign (seq (2 * a) (2 * len)).
Proof.
  revert a. induction len as [|len IH]; intros a; [reflexivity|].
  replace (2 * S len) with (S (S (2 * len))) by lia.
  cbn [seq map].
  change (kprod Rmult (parity_sign a :: map parity_sign (seq (S a) len)) [1; -1]%R)
    with ((parity_sign a * 1)%R :: (parity_sign a * -1)%R
          :: kprod Rmult (map parity_sign (seq (S a) len)) [1; -1]%R).
  rewrite IH. replace (2 * S a) with (S (S (2 * a))) by lia.
  f_equal; [|f_equal].
  - unfold parity_sign. rewrite popcount_double. apply Rmult_1_r.
  - unfold parity_sign. rewrite popcount_double_succ. simpl. lra.
Qed.

Lemma diag_matrix_length (v : list R) : length (diag_matrix v) = length v.
Proof.
  induction v as [|x v IH]; simpl; [reflexivity|].
  rewrite length_map, IH. reflexivity.
Qed.

Lemma diag_matrix_shape (v : list R) :
  has_shape (length v) (length v) (diag_matrix v).
Proof.
  split; [apply diag_matrix_length|].
  induction v as [|x v IH]; [constructor|].
  cbn [diag_matrix length]. constructor.
  - cbn [length]. rewrite repeat_length. reflexivity.
  - apply Forall_map. eapply Forall_impl; [|exact IH].
    intros row Hrow. cbn [length]. rewrite Hrow. reflexivity.
Qed.

(** [diag_matrix v] is the diagonal matrix of [v], entry by entry. *)
Lemma diag_matrix_entry (v : list R) (i j : nat) :
  i < length v -> j < length v ->
  nth j (nth i (diag_matrix v) []) 0%R = if Nat.eqb i j then nth i v 0%R else 0%R.
Proof.
  revert i j. induction v as [|x v IH]; intros i j Hi Hj; [simpl in Hi; lia|].
  simpl in Hi, Hj. destruct i as [|i].
  - destruct j as [|j]; [reflexivity|].
    simpl. apply nth_repeat.
  - cbn [diag_matrix nth].
    rewrite (nth_indep _ [] (cons 0%R []))
      by (rewrite length_map, diag_matrix_length; lia).
    rewrite (map_nth (cons 0%R)).
    destruct j as [|j]; [reflexivity|].
    cbn [nth]. rewrite IH by lia. reflexivity.
Qed.

Lemma krow2_zeros (k : nat) (c d : R) :
  kprod Rmult (repeat 0%R k) [c; d] = repeat 0%R (2 * k).
Proof.
  induction k as [|k IH]; [reflexivity|].
  replace (2 * S k) with (S (S (2 * k))) by lia.
  change (kprod Rmult (repeat 0%R (S k)) [c; d])
    with ((0 * c)%R :: (0 * d)%R :: kprod Rmult (repeat 0%R k) [c; d]).
  rewrite IH, !Rmult_0_l. reflexivity.
Qed.

Lemma kron_cons0_pauli (m : matrix) :
  kron (map (cons 0%R) m) pauli_z = map (cons 0%R) (map (cons 0%R) (kron m pauli_z)).
Proof.
  induction m as [|row m IH]; [reflexivity|].
  change (kron (map (cons 0%R) (row :: m)) pauli_z)
    with (((0 * 1)%R :: (0 * 0)%R :: kprod Rmult row [1; 0]%R)
          :: ((0 * 0)%R :: (0 * -1)%R :: kprod Rmult row [0; -1]%R)
          :: kron (map (cons 0%R) m) pauli_z).
  rewrite IH, !Rmult_0_l. reflexivity.
Qed.

(** [np.diag] builds the Kronecker product with Pauli Z from the doubled
    diagonal. *)
Lemma diag_matrix_krow2 (v : list R) :
  diag_matrix (kprod Rmult v [1; -1]%R) = kron (diag_matrix v) pauli_z.
Proof.
  induction v as [|x v IH]; [reflexivity|].
  change (kprod Rmult (x :: v) [1; -1]%R)
    with ((x * 1)%R :: (x * -1)%R :: kprod Rmult v [1; -1]%R).
  cbn [diag_matrix]. rewrite IH.
  change (kron ((x :: repeat 0%R (length v)) :: map (cons 0%R) (diag_matrix v)) pauli_z)
    with (kprod Rmult (x :: repeat 0%R (length v)) [1; 0]%R
          :: kprod Rmult (x :: repeat 0%R (length v)) [0; -1]%R
          :: kron (map (cons 0%R) (diag_matrix v)) pauli_z).
  rewrite kron_cons0_pauli.
  change (kprod Rmult (x :: repeat 0%R (length v)) [1; 0]%R)
    with ((x * 1)%R :: (x * 0)%R :: kprod Rmult (repeat 0%R (length v)) [1; 0]%R).
  change (kprod Rmult (x :: repeat 0%R (length v)) [0; -1]%R)
    with ((x * 0)%R :: (x * -1)%R :: kprod Rmult (repeat 0%R (length v)) [0; -1]%R).
  rewrite !krow2_zeros, !Rmult_0_r.
  cbn [length map repeat]. rewrite kprod_length.
  cbn [length]. replace (length v * 2) with (2 * length v) by lia.
  reflexivity.
Qed.

Lemma hadamard_base_entries :
  hadamard_base
  = [[1 / sqrt 2; 1 / sqrt 2]; [1 / sqrt 2; -1 / sqrt 2]]%R.
Proof. reflexivity. Qed.

Lemma inv_sqrt2_pos : (0 < 1 / sqrt 2)%R.
Proof.
  apply Rdiv_lt_0_compat; [lra|]. apply sqrt_lt_R0. lra.
Qed.

Lemma neg_inv_sqrt2_neg : (-1 / sqrt 2 < 0)%R.
Proof.
  pose proof inv_sqrt2_pos as H.
  replace (-1 / sqrt 2)%R with (- (1 / sqrt 2))%R by (unfold Rdiv; ring).
  lra.
Qed.

(** The signs on the diagonal of the [n]-fold Hadamard matrix are the
    parities of the indices. *)
Lemma hadamard_power_diagonal (n : nat) :
  exists m, kron_power (Matrix hadamard_base) (S n) = Matrix m
            /\ map np_sign (diagonal_from 0 m)
               = map parity_sign (seq 0 (2 ^ S n)).
Proof.
  induction n as [|n [m [Hm Hd]]].
  - exists hadamard_base. split; [apply kron_power_1|].
    rewrite hadamard_base_entries. cbn [diagonal_from nth_error map seq Nat.pow Nat.mul Nat.add].
    rewrite (np_sign_pos inv_sqrt2_pos), (np_sign_neg neg_inv_sqrt2_neg).
    unfold parity_sign. simpl. f_equal. f_equal. lra.
  - exists (kron m hadamard_base). split.
    + change (kron_power (Matrix hadamard_base) (S (S n)))
        with (np_kron (kron_power (Matrix hadamard_base) (S n)) (Matrix hadamard_base)).
      rewrite Hm. reflexivity.
    + rewrite hadamard_base_entries.
      change 0 with (2 * 0) at 1. rewrite diagonal_kron2.
      rewrite (sign_krow2 _ inv_sqrt2_pos neg_inv_sqrt2_neg), Hd.
      rewrite parity_krow2. reflexivity.
Qed.

(** The naive [n]-fold Kronecker product of Pauli Z. *)
Lemma pauli_power_diagonal (n : nat) :
  kron_power (Matrix pauli_z) (S n)
  = Matrix (diag_matrix (map parity_sign (seq 0 (2 ^ S n)))).
Proof.
  induction n as [|n IH].
  - rewrite kron_power_1. f_equal.
    unfold pauli_z, parity_sign. simpl. repeat f_equal; lra.
  - change (kron_power (Matrix pauli_z) (S (S n)))
      with (np_kron (kron_power (Matrix pauli_z) (S n)) (Matrix pauli_z)).
    rewrite IH. cbn [np_kron]. f_equal.
    rewrite <- diag_matrix_krow2, parity_krow2. reflexivity.
Qed.

Lemma n_z_of_hadamard_nat (n : nat) :
  _n_z (_n_hadamard (Z.of_nat (S n)))
  = Ret (diag_matrix (map parity_sign (seq 0 (2 ^ S n)))).
Proof.
  rewrite n_hadamard_naive.
  destruct (hadamard_power_diagonal n) as [m [Hm Hd]].
  rewrite Hm. unfold _n_z. cbn [np_diag bind]. rewrite Hd. reflexivity.
Qed.

(** C9: for every [n >= 1], [_n_z(_n_hadamard(n))] is the [n]-fold
    Kronecker product of the Pauli-Z matrix diag(1, -1): the diagonal
    [2^n] by [2^n] matrix whose [k]-th diagonal entry is [(-1)] raised to
    the number of 1-bits of [k]. *)
Theorem n_z_of_hadamard (n : Z) :
  (1 <= n)%Z ->
  let d := 2 ^ Z.to_nat n in
  exists z_n,
    _n_z (_n_hadamard n) = Ret z_n
    /\ Matrix z_n = kron_power (Matrix pauli_z) (Z.to_nat n)
    /\ has_shape d d z_n
    /\ forall i j, i < d -> j < d ->
         nth j (nth i z_n []) 0%R = if Nat.eqb i j then parity_sign i else 0%R.
Proof.
  intros Hn d.
  destruct (Z.to_nat n) as [|k] eqn:Hk; [lia|].
  assert (Hz : n = Z.of_nat (S k)) by lia.
  assert (Hlen : length (map parity_sign (seq 0 d)) = d)
    by (rewrite length_map, length_seq; reflexivity).
  exists (diag_matrix (map parity_sign (seq 0 d))).
  split; [|split; [|split]].
  - rewrite Hz. apply n_z_of_hadamard_nat.
  - symmetry. apply pauli_power_diagonal.
  - rewrite <- Hlen at 1 2. apply diag_matrix_shape.
  - intros i j Hi Hj. rewrite diag_matrix_entry by (rewrite Hlen; assumption).
    destruct (Nat.eqb i j); [|reflexivity].
    rewrite (nth_indep _ 0%R (parity_sign 0)) by (rewrite Hlen; exact Hi).
    rewrite map_nth, seq_nth by exact Hi. reflexivity.
Qed.

Lemma n_z_of_hadamard_witness :
  exists z_n,
    _n_z (_n_hadamard 2) = Ret z_n
    /\ Matrix z_n = kron_power (Matrix pauli_z) 2
    /\ has_shape 4 4 z_n
    /\ forall i j, i < 4 -> j < 4 ->
         nth j (nth i z_n []) 0%R = if Nat.eqb i j then parity_sign i else 0%R.
Proof. apply (@n_z_of_hadamard 2). lia. Defined.

(** ** The samplers *)

Lemma tile_below (n_div n_passes : nat) :
  Forall (fun b => b < n_div) (np_tile_arange n_div n_passes).
Proof.
  unfold np_tile_arange. apply Forall_concat.
  apply Forall_forall. intros l Hl. apply repeat_spec in Hl. subst l.
  apply Forall_forall. intros b Hb. apply in_seq in Hb. lia.
Qed.

Lemma tile_count (n_div n_passes b : nat) :
  count_occ Nat.eq_dec (np_tile_arange n_div n_passes) b <= n_passes.
Proof.
  unfold np_tile_arange. induction n_passes as [|k IH]; [simpl; lia|].
  cbn [repeat concat]. rewrite count_occ_app.
  pose proof (proj1 (NoDup_count_occ Nat.eq_dec (seq 0 n_div)) (seq_NoDup n_div 0) b).
  lia.
Qed.

Lemma tile_length (n_div n_passes : nat) :
  length (np_tile_arange n_div n_passes) = n_passes * n_div.
Proof.
  unfold np_tile_arange. induction n_passes as [|k IH]; [reflexivity|].
  cbn [repeat concat]. rewrite length_app, length_seq, IH. simpl. lia.
Qed.

(** The passes hold at least [n_samples] bins. *)
Lemma passes_cover (n_samples n_div : nat) :
  1 <= n_div -> n_samples <= (n_samples + n_div - 1) / n_div * n_div.
Proof.
  intros Hd.
  pose proof (Nat.div_mod (n_samples + n_div - 1) n_div ltac:(lia)) as Hdm.
  pose proof (Nat.mod_upper_bound (n_samples + n_div - 1) n_div ltac:(lia)) as Hm.
  nia.
Qed.

Lemma count_occ_firstn (k : nat) (l : list nat) (b : nat) :
  count_occ Nat.eq_dec (firstn k l) b <= count_occ Nat.eq_dec l b.
Proof.
  rewrite <- (firstn_skipn k l) at 2. rewrite count_occ_app. lia.
Qed.

Lemma Forall_firstn {A : Type} (P : A -> Prop) (k : nat) (l : list A) :
  Forall P l -> Forall P (firstn k l).
Proof.
  intros H. rewrite <- (firstn_skipn k l) in H.
  apply Forall_app in H. apply H.
Qed.

Section ChosenBins.

Variables n_samples n_div : nat.
Hypothesis Hdiv : 1 <= n_div.

Local Abbreviation n_passes := ((n_samples + n_div - 1) / n_div).
Local Abbreviation tile := (np_tile_arange n_div n_passes).

Lemma chosen_length (chosen : list nat) :
  chosen_from tile n_samples chosen -> length chosen = n_samples.
Proof.
  intros [perm [Hp ->]]. rewrite length_firstn.
  rewrite <- (Permutation_length Hp), tile_length.
  pose proof (passes_cover n_samples Hdiv) as Hcover. lia.
Qed.

Lemma chosen_below (chosen : list nat) :
  chosen_from tile n_samples chosen -> Forall (fun b => b < n_div) chosen.
Proof.
  intros [perm [Hp ->]]. apply Forall_firstn.
  eapply Permutation_Forall; [exact Hp | apply tile_below].
Qed.

Lemma chosen_count (chosen : list nat) (b : nat) :
  chosen_from tile n_samples chosen ->
  count_occ Nat.eq_dec chosen b <= n_passes.
Proof.
  intros [perm [Hp ->]].
  etransitivity; [apply count_occ_firstn|].
  rewrite (Permutation_count_occ Nat.eq_dec) in Hp. rewrite <- Hp.
  apply tile_count.
Qed.

(** With no more samples than bins there is one pass, and no bin repeats. *)
Lemma chosen_NoDup (chosen : list nat) :
  n_samples <= n_div -> chosen_from tile n_samples chosen -> NoDup chosen.
Proof.
  intros Hle Hc. apply (NoDup_count_occ Nat.eq_dec). intros b.
  etransitivity; [apply (chosen_count b Hc)|].
  destruct (Nat.eq_dec n_samples 0) as [->|Hne].
  - rewrite Nat.div_small by lia. lia.
  - apply Nat.lt_succ_r. apply Nat.Div0.div_lt_upper_bound. lia.
Qed.

End ChosenBins.

Section SamplerFacts.

Variable G : Generator.
Hypothesis HG : GeneratorOK G.

(** Every dimension draws a prefix of a reordering of the tiled bins, and
    [n_samples] offsets of the unit interval. *)
Lemma lhc_draws_spec (tile : list nat) (n_samples n : nat) :
  forall (all_bins : list nat) (g : rng G),
    Permutation tile all_bins ->
    length (fst (lhc_draws G n n_samples all_bins g)) = n
    /\ Forall (fun d => chosen_from tile n_samples (fst d)
                        /\ length (snd d) = n_samples
                        /\ Forall unit_interval (snd d))
              (fst (lhc_draws G n n_samples all_bins g)).
Proof.
  induction n as [|n IH]; intros all_bins g Hp; [split; [reflexivity | constructor]|].
  cbn [lhc_draws]. unfold lhc_draw.
  pose proof (shuffle_perm HG g all_bins) as Hs.
  destruct (rng_shuffle G g all_bins) as [all_bins' g1]. cbn [fst] in Hs.
  pose proof (random_length HG g1 n_samples) as Hl.
  pose proof (random_range HG g1 n_samples) as Hr.
  destruct (rng_random G g1 n_samples) as [offsets g2]. cbn [fst] in Hl, Hr.
  assert (Hp' : Permutation tile all_bins') by (etransitivity; eassumption).
  destruct (IH all_bins' g2 Hp') as [IHl IHf].
  destruct (lhc_draws G n n_samples all_bins' g2) as [ds g3].
  cbn [fst] in *. split; [cbn [length]; congruence|].
  constructor; [|exact IHf].
  cbn [fst snd]. split; [|split; assumption].
  exists all_bins'. split; [exact Hp' | reflexivity].
Qed.

End SamplerFacts.

Lemma in_bin_of_offset (bin_size : R) (b : nat) (o : R) :
  (0 < bin_size)%R -> unit_interval o ->
  in_bin bin_size b ((INR b + o) * bin_size).
Proof. intros Hb [Ho1 Ho2]. unfold in_bin. nra. Qed.

Lemma bin_in_parameter_space (n_div b : nat) (x : R) :
  1 <= n_div -> b < n_div ->
  in_bin (2 * PI / INR n_div) b x -> in_parameter_space x.
Proof.
  intros Hd Hb [Hlo Hhi]. unfold in_parameter_space.
  assert (Hn : (0 < INR n_div)%R) by (apply lt_0_INR; lia).
  assert (Hb1 : (INR b + 1 <= INR n_div)%R)
    by (rewrite <- S_INR; apply le_INR; lia).
  assert (Hb0 : (0 <= INR b)%R) by apply pos_INR.
  assert (Hpi : (0 < 2 * PI)%R) by (pose proof PI_RGT_0; lra).
  assert (Hbs : (0 < 2 * PI / INR n_div)%R) by (apply Rdiv_lt_0_compat; assumption).
  assert (Hfull : (INR n_div * (2 * PI / INR n_div) = 2 * PI)%R)
    by (field; lra).
  remember (2 * PI / INR n_div)%R as bs eqn:Ebs. clear Ebs.
  assert (Hle : ((INR b + 1) * bs <= INR n_div * bs)%R)
    by (apply Rmult_le_compat_r; lra).
  assert (Hge : (0 <= INR b * bs)%R) by (apply Rmult_le_pos; lra).
  lra.
Qed.

Lemma bin_size_pos (n_div : nat) : 1 <= n_div -> (0 < 2 * PI / INR n_div)%R.
Proof.
  intros Hd. apply Rdiv_lt_0_compat.
  - pose proof PI_RGT_0. lra.
  - apply lt_0_INR. lia.
Qed.

(** A column lies bin by bin where its draw says. *)
Lemma lhc_column_bins (bin_size : R) (chosen : list nat) (offsets : list R) :
  (0 < bin_size)%R -> length chosen = length offsets ->
  Forall unit_interval offsets ->
  Forall2 (in_bin bin_size) chosen (lhc_column bin_size (chosen, offsets)).
Proof.
  intros Hb. unfold lhc_column. cbn [fst snd].
  revert offsets. induction chosen as [|b chosen IH]; intros [|o offsets] Hl Ho;
    try discriminate; [constructor|].
  inversion Ho; subst. cbn [combine map fst snd]. constructor.
  - apply in_bin_of_offset; assumption.
  - apply IH; [simpl in Hl; lia | assumption].
Qed.

Lemma map_nth_seq_id {A : Type} (d : A) (l : list A) (k : nat) :
  length l = k -> map (fun s => nth s l d) (seq 0 k) = l.
Proof.
  intros Hl. apply nth_ext with (d := d) (d' := d).
  - rewrite length_map, length_seq. congruence.
  - intros i Hi. rewrite length_map, length_seq in Hi.
    rewrite (nth_indep _ d (nth 0 l d)) by (rewrite length_map, length_seq; exact Hi).
    rewrite (map_nth (fun s => nth s l d)), seq_nth by exact Hi. reflexivity.
Qed.

(** The columns of the array are the columns it was filled with. *)
Lemma column_rows_of_columns (n_samples : nat) (cols : list (list R)) (j : nat) :
  j < length cols -> length (nth j cols []) = n_samples ->
  column 0%R j (rows_of_columns n_samples cols) = nth j cols [].
Proof.
  intros Hj Hl. unfold column, rows_of_columns. rewrite map_map.
  etransitivity; [|apply (map_nth_seq_id 0%R (nth j cols []) Hl)].
  apply map_ext. intros s.
  rewrite (nth_indep _ 0%R (nth s [] 0%R)) by (rewrite length_map; exact Hj).
  rewrite (map_nth (fun col => nth s col 0%R)). reflexivity.
Qed.

Lemma rows_of_columns_shape (n_samples : nat) (cols : list (list R)) :
  has_shape n_samples (length cols) (rows_of_columns n_samples cols).
Proof.
  unfold rows_of_columns. split; [rewrite length_map, length_seq; reflexivity|].
  apply Forall_map. apply Forall_forall. intros s _.
  apply length_map.
Qed.

Lemma rows_of_columns_Forall (P : R -> Prop) (n_samples : nat) (cols : list (list R)) :
  Forall (fun col => length col = n_samples /\ Forall P col) cols ->
  Forall (Forall P) (rows_of_columns n_samples cols).
Proof.
  intros Hc. unfold rows_of_columns. apply Forall_map.
  apply Forall_forall. intros s Hs. apply in_seq in Hs.
  apply Forall_map. eapply Forall_impl; [|exact Hc].
  intros col [Hl Hp]. cbn beta.
  rewrite Forall_forall in Hp. apply Hp. apply nth_In. lia.
Qed.

Lemma lhc_column_length (bin_size : R) (d : list nat * list R) (k : nat) :
  length (fst d) = k -> length (snd d) = k -> length (lhc_column bin_size d) = k.
Proof.
  intros H1 H2. unfold lhc_column. rewrite length_map, length_combine. lia.
Qed.

Lemma Forall2_Forall_r {A B : Type} (Rel : A -> B -> Prop) (P : A -> Prop)
    (Q : B -> Prop) (l1 : list A) (l2 : list B) :
  (forall a b, P a -> Rel a b -> Q b) ->
  Forall P l1 -> Forall2 Rel l1 l2 -> Forall Q l2.
Proof.
  intros HPQ HP H2. induction H2 as [|a b l1 l2 Hab _ IH]; [constructor|].
  inversion HP; subst. constructor; [eapply HPQ; eassumption | apply IH; assumption].
Qed.

Section ModifiedLHC.

Variable G : Generator.
Hypothesis HG : GeneratorOK G.

(** What [_modified_LHC] returns, dimension by dimension. *)
Lemma modified_LHC_spec (n n_samples n_div : nat) (g : rng G) :
  1 <= n_div ->
  exists x_vecs g',
    _modified_LHC G n n_samples n_div g = Ret (x_vecs, g')
    /\ has_shape n_samples n x_vecs
    /\ Forall (Forall in_parameter_space) x_vecs
    /\ length (lhc_bins G n n_samples n_div g) = n
    /\ forall dim, dim < n ->
         chosen_from (np_tile_arange n_div ((n_samples + n_div - 1) / n_div))
                     n_samples (nth dim (lhc_bins G n n_samples n_div g) [])
         /\ Forall2 (in_bin (2 * PI / INR n_div))
                    (nth dim (lhc_bins G n n_samples n_div g) [])
                    (column 0%R dim x_vecs).
Proof.
  intros Hd. unfold _modified_LHC, lhc_bins.
  destruct (Nat.eqb_spec n_div 0) as [H0|_]; [lia|].
  set (tile := np_tile_arange n_div ((n_samples + n_div - 1) / n_div)).
  set (bs := (2 * PI / INR n_div)%R).
  assert (Hbs : (0 < bs)%R) by (apply bin_size_pos; exact Hd).
  destruct (lhc_draws_spec HG n_samples n g (Permutation_refl tile)) as [Hlen Hall].
  destruct (lhc_draws G n n_samples tile g) as [draws g'].
  cbn [fst] in Hlen, Hall |- *.
  assert (Hcols : Forall (fun d => length (lhc_column bs d) = n_samples
                                   /\ Forall2 (in_bin bs) (fst d) (lhc_column bs d)
                                   /\ Forall in_parameter_space (lhc_column bs d))
                         draws).
  { eapply Forall_impl; [|exact Hall].
    intros [chosen offsets] [Hc [Hl Hr]]. cbn [fst snd] in *.
    pose proof (chosen_length Hd Hc) as Hcl.
    assert (H2 : Forall2 (in_bin bs) chosen (lhc_column bs (chosen, offsets)))
      by (apply lhc_column_bins; [exact Hbs | congruence | exact Hr]).
    split; [apply lhc_column_length; assumption|]. split; [exact H2|].
    apply (@Forall2_Forall_r nat R (in_bin bs) (fun b => b < n_div)
             in_parameter_space chosen (lhc_column bs (chosen, offsets))).
    - intros b x Hb Hx. exact (@bin_in_parameter_space n_div b x Hd Hb Hx).
    - exact (@chosen_below n_samples n_div chosen Hc).
    - exact H2. }
  exists (rows_of_columns n_samples (map (lhc_column bs) draws)), g'.
  split; [reflexivity|]. split; [|split; [|split]].
  - rewrite <- Hlen, <- (length_map (lhc_column bs) draws).
    apply rows_of_columns_shape.
  - apply rows_of_columns_Forall. apply Forall_map.
    eapply Forall_impl; [|exact Hcols]. intros d [H1 [_ H3]]. split; assumption.
  - rewrite length_map. exact Hlen.
  - intros dim Hdim.
    assert (Hin : In (nth dim draws ([], [])) draws) by (apply nth_In; lia).
    rewrite Forall_forall in Hall, Hcols.
    destruct (Hall _ Hin) as [Hc _]. destruct (Hcols _ Hin) as [Hl [H2 _]].
    assert (Hcol : nth dim (map (lhc_column bs) draws) []
                   = lhc_column bs (nth dim draws ([], []))).
    { rewrite (nth_indep _ [] (lhc_column bs ([], []))) by (rewrite length_map; lia).
      apply map_nth. }
    assert (Hbin : nth dim (map fst draws) [] = fst (nth dim draws ([], []))).
    { rewrite (nth_indep _ [] (fst (@nil nat, @nil R))) by (rewrite length_map; lia).
      apply map_nth. }
    rewrite Hbin. split; [exact Hc|].
    rewrite column_rows_of_columns.
    + rewrite Hcol. exact H2.
    + rewrite length_map. lia.
    + rewrite Hcol. exact Hl.
Qed.

Lemma sobol_sampling_spec (n n_samples : nat) (g : rng G) :
  has_shape n_samples n (fst (_sobol_sampling G n n_samples g))
  /\ Forall (Forall in_parameter_space) (fst (_sobol_sampling G n n_samples g)).
Proof.
  unfold _sobol_sampling.
  pose proof (sobol_rows HG g n n_samples) as Hr.
  pose proof (sobol_range HG g n n_samples) as Hf.
  destruct (sobol_random G g n n_samples) as [p g']. cbn [fst] in *.
  assert (Hpi : (0 < 2 * PI)%R) by (pose proof PI_RGT_0; lra).
  split; [split|].
  - rewrite length_map. exact Hr.
  - apply Forall_map. eapply Forall_impl; [|exact Hf].
    intros row [Hl _]. rewrite length_map. exact Hl.
  - apply Forall_map. eapply Forall_impl; [|exact Hf].
    intros row [_ Hu]. apply Forall_map. eapply Forall_impl; [|exact Hu].
    intros u [H0 H1]. unfold in_parameter_space. split; nra.
Qed.

End ModifiedLHC.

Lemma insert_sorted_perm (x : nat) (l : list nat) :
  Permutation (x :: l) (insert_sorted x l).
Proof.
  induction l as [|y l IH]; [reflexivity|].
  cbn [insert_sorted]. destruct (x <=? y); [reflexivity|].
  etransitivity; [apply perm_swap|]. apply perm_skip. exact IH.
Qed.

Lemma sort_bins_perm (l : list nat) : Permutation l (sort_bins l).
Proof.
  induction l as [|x l IH]; [reflexivity|].
  cbn [sort_bins fold_right]. etransitivity; [|apply insert_sorted_perm].
  apply perm_skip. exact IH.
Qed.

Lemma half_unit_interval : unit_interval (1 / 2)%R.
Proof. unfold unit_interval. lra. Qed.

Lemma sorting_generator_ok : GeneratorOK sorting_generator.
Proof.
  constructor; cbn [sorting_generator rng_random rng_shuffle rng_choice sobol_random fst].
  - intros _ k. apply repeat_length.
  - intros _ k. apply Forall_forall. intros u Hu.
    apply repeat_spec in Hu. subst u. apply half_unit_interval.
  - intros _ l. apply sort_bins_perm.
  - intros g a Ha. apply Nat.mod_upper_bound. lia.
  - intros _ d k. apply repeat_length.
  - intros _ d k. apply Forall_forall. intros row Hrow.
    apply repeat_spec in Hrow. subst row. split; [apply repeat_length|].
    apply Forall_forall. intros u Hu.
    apply repeat_spec in Hu. subst u. apply half_unit_interval.
Qed.

(** C8, amended: over exact real arithmetic, every sampled input vector
    lies in the bounded parameter space: for [n_div >= 1] (and every [n]
    and [n_samples]), [_modified_LHC] returns an [n_samples] by [n] array
    with every entry in [[0, 2*pi)], and so does [_sobol_sampling].  (In
    float64 the last bin can round above [2*np.pi].) *)
Theorem samples_in_parameter_space (G : Generator) (n n_samples n_div : nat)
    (g : rng G) :
  GeneratorOK G -> 1 <= n_div ->
  (exists x_vecs g',
      _modified_LHC G n n_samples n_div g = Ret (x_vecs, g')
      /\ has_shape n_samples n x_vecs
      /\ Forall (Forall in_parameter_space) x_vecs)
  /\ has_shape n_samples n (fst (_sobol_sampling G n n_samples g))
  /\ Forall (Forall in_parameter_space) (fst (_sobol_sampling G n n_samples g)).
Proof.
  intros HG Hd. split.
  - destruct (modified_LHC_spec HG n n_samples g Hd)
      as [x_vecs [g' [Hret [Hshape [Hrange _]]]]].
    exists x_vecs, g'. repeat split; try assumption; apply Hshape.
  - apply sobol_sampling_spec. exact HG.
Qed.

Lemma samples_in_parameter_space_witness :
  (exists x_vecs g',
      _modified_LHC sorting_generator 2 3 2 (0 : rng sorting_generator)
      = Ret (x_vecs, g')
      /\ has_shape 3 2 x_vecs
      /\ Forall (Forall in_parameter_space) x_vecs)
  /\ has_shape 3 2 (fst (_sobol_sampling sorting_generator 2 3 (0 : rng sorting_generator)))
  /\ Forall (Forall in_parameter_space)
            (fst (_sobol_sampling sorting_generator 2 3 (0 : rng sorting_generator))).
Proof.
  apply (@samples_in_parameter_space sorting_generator 2 3 2 0 sorting_generator_ok).
  lia.
Defined.

(** Four samples over two bins, with a shuffle that happens to sort: the
    first pass uses bin 0 twice and bin 1 not at all. *)
Lemma lhc_pass_repeats_a_bin :
  GeneratorOK sorting_generator
  /\ lhc_bins sorting_generator 1 4 2 (0 : rng sorting_generator) = [[0; 0; 1; 1]]
  /\ ~ Forall (each_pass_distinct 2)
         (lhc_bins sorting_generator 1 4 2 (0 : rng sorting_generator)).
Proof.
  split; [apply sorting_generator_ok|].
  assert (Hbins : lhc_bins sorting_generator 1 4 2 (0 : rng sorting_generator)
                  = [[0; 0; 1; 1]]) by reflexivity.
  split; [exact Hbins|].
  rewrite Hbins. intros Hall. inversion Hall as [|bins rest Hpass _]; subst.
  specialize (Hpass 0). cbn in Hpass.
  inversion Hpass as [|x l Hnotin _]; subst.
  apply Hnotin. left. reflexivity.
Qed.

(** C3, amended: the sampler step of [ad_hoc_data] (lines 136-139) is
    [_sobol_sampling] when [divisions <= 0] and [_modified_LHC] when
    [divisions > 0]; [_modified_LHC] chooses for every coordinate one of
    [divisions] bins, within a dimension a bin at most
    ceil(n_samples / divisions) times, so not twice when there are no more
    samples than bins; and over exact real arithmetic the coordinate lies
    in the bin chosen for it, of width [2*pi/divisions].  (In float64 it
    can round onto the lower edge of the next bin.) *)
Theorem sampler_choice_and_bins (G : Generator) (train_size test_size n : nat)
    (divisions : Z) (g : rng G) :
  GeneratorOK G ->
  let n_samples := train_size + test_size in
  ((divisions <= 0)%Z ->
   sample_x_vecs G train_size test_size n divisions g
   = Ret (_sobol_sampling G n n_samples g))
  /\ ((0 < divisions)%Z ->
      let n_div := Z.to_nat divisions in
      let bins := lhc_bins G n n_samples n_div g in
      sample_x_vecs G train_size test_size n divisions g
      = _modified_LHC G n n_samples n_div g
      /\ exists x_vecs g',
          _modified_LHC G n n_samples n_div g = Ret (x_vecs, g')
          /\ has_shape n_samples n x_vecs
          /\ length bins = n
          /\ forall dim, dim < n ->
               let chosen := nth dim bins [] in
               Forall2 (in_bin (2 * PI / INR n_div)) chosen (column 0%R dim x_vecs)
               /\ length chosen = n_samples
               /\ Forall (fun b => b < n_div) chosen
               /\ (forall b, count_occ Nat.eq_dec chosen b
                             <= (n_samples + n_div - 1) / n_div)
               /\ (n_samples <= n_div -> NoDup chosen)).
Proof.
  intros HG n_samples. split.
  - intros Hd. unfold sample_x_vecs.
    destruct (Z.gtb_spec divisions 0) as [Hgt|_]; [lia | reflexivity].
  - intros Hd n_div bins.
    assert (Hdiv : 1 <= n_div) by (unfold n_div; lia).
    split.
    + unfold sample_x_vecs.
      destruct (Z.gtb_spec divisions 0) as [_|Hle]; [reflexivity | lia].
    + destruct (modified_LHC_spec HG n n_samples g Hdiv)
        as [x_vecs [g' [Hret [Hshape [_ [Hlen Hdims]]]]]].
      exists x_vecs, g'.
      split; [exact Hret|]. split; [exact Hshape|]. split; [exact Hlen|].
      intros dim Hdim chosen. destruct (Hdims dim Hdim) as [Hc Hb].
      fold bins in Hc, Hb. fold chosen in Hc, Hb.
      split; [exact Hb|].
      split; [exact (chosen_length Hdiv Hc)|].
      split; [exact (@chosen_below n_samples n_div chosen Hc)|].
      split; [intros b; exact (@chosen_count n_samples n_div chosen b Hc)|].
      intros Hle. exact (chosen_NoDup Hdiv Hle Hc).
Qed.

Lemma sampler_choice_and_bins_witness :
  let G := sorting_generator in
  let g : rng G := 0 in
  ((2 <= 0)%Z -> sample_x_vecs G 2 2 1 2 g = Ret (_sobol_sampling G 1 4 g))
  /\ ((0 < 2)%Z ->
      let bins := lhc_bins G 1 4 2 g in
      sample_x_vecs G 2 2 1 2 g = _modified_LHC G 1 4 2 g
      /\ exists x_vecs g',
          _modified_LHC G 1 4 2 g = Ret (x_vecs, g')
          /\ has_shape 4 1 x_vecs
          /\ length bins = 1
          /\ forall dim, dim < 1 ->
               let chosen := nth dim bins [] in
               Forall2 (in_bin (2 * PI / INR 2)) chosen (column 0%R dim x_vecs)
               /\ length chosen = 4
               /\ Forall (fun b => b < 2) chosen
               /\ (forall b, count_occ Nat.eq_dec chosen b <= (4 + 2 - 1) / 2)
               /\ (4 <= 2 -> NoDup chosen)).
Proof.
  intros G g.
  apply (@sampler_choice_and_bins sorting_generator 2 2 1 2 0 sorting_generator_ok).
Defined.

(** ** The rejection sampling of [_sample_ad_hoc_data] *)

Lemma stride_repeat (count n : nat) :
  fold_right Nat.mul 1 (repeat count n) = count ^ n.
Proof. induction n as [|n IH]; simpl; [reflexivity | rewrite IH; reflexivity]. Qed.

Lemma In_firstn_skipn {A : Type} (x : A) (k j : nat) (l : list A) :
  In x (firstn k (skipn j l)) -> In x l.
Proof.
  intros H.
  assert (H1 : In x (skipn j l)).
  { rewrite <- (firstn_skipn k (skipn j l)). apply in_or_app. left. exact H. }
  rewrite <- (firstn_skipn j l). apply in_or_app. right. exact H1.
Qed.

(** A full index into a grid of [n] axes selects one of its cells. *)
Lemma sub_array_cell (count : nat) :
  forall (n : nat) (data : list Z) (idx : list nat),
    length idx = n -> Forall (fun d => d < count) idx ->
    length data = count ^ n ->
    exists x, sub_array (repeat count n) data idx = Ret [x] /\ In x data.
Proof.
  induction n as [|n IH]; intros data idx Hl Hidx Hdata.
  - destruct idx; [|discriminate].
    destruct data as [|x [|y data]]; try discriminate.
    exists x. split; [reflexivity | left; reflexivity].
  - destruct idx as [|i idx]; [discriminate|].
    inversion Hidx as [|? ? Hi Hidx']; subst.
    cbn [repeat sub_array]. destruct (Nat.ltb_spec i count) as [_|Hge]; [|lia].
    rewrite stride_repeat.
    destruct (IH (firstn (count ^ n) (skipn (i * count ^ n) data)) idx) as [x [Hx Hin]].
    + simpl in Hl. lia.
    + exact Hidx'.
    + rewrite length_firstn, length_skipn, Hdata. cbn [Nat.pow]. nia.
    + exists x. split; [exact Hx | eapply In_firstn_skipn; exact Hin].
Qed.

Section RejectionFacts.

Variable G : Generator.
Variable X : Type.
Hypothesis HG : GeneratorOK G.

Variable sample_total : ndgrid.
Variable xvals : list X.
Variables count num_samples n : nat.
Hypothesis Hgrid : grid_ok sample_total xvals count n.

Local Abbreviation drawn_row := (drawn_from sample_total xvals count n).

Lemma draw_indices_ok (k : nat) (g : rng G) :
  exists draws g',
    draw_indices G count k g = Ret (draws, g')
    /\ length draws = k /\ Forall (fun d => d < count) draws.
Proof.
  pose proof (grid_count Hgrid) as Hc.
  revert g. induction k as [|k IH]; intros g.
  - exists [], g. repeat split. constructor.
  - cbn [draw_indices]. destruct (Nat.eqb_spec count 0) as [H0|_]; [lia|].
    pose proof (choice_range HG g Hc) as Hd.
    destruct (rng_choice G g count) as [d g1]. cbn [fst] in Hd.
    destruct (IH g1) as [ds [g2 [Hr [Hl Hf]]]].
    rewrite Hr. cbn [bind fst snd].
    exists (d :: ds), g2. split; [reflexivity|]. split; [simpl; lia|].
    constructor; assumption.
Qed.

Lemma cell_equals_ok (draws : list nat) (label : Z) :
  length draws = n -> Forall (fun d => d < count) draws ->
  exists x, In x (cells sample_total)
            /\ cell_equals sample_total draws label = Ret (x =? label)%Z.
Proof.
  intros Hl Hf. unfold cell_equals. rewrite (grid_shape Hgrid).
  destruct (sub_array_cell (cells sample_total) Hl Hf (grid_cells Hgrid))
    as [x [Hx Hin]].
  rewrite Hx. exists x. split; [exact Hin | reflexivity].
Qed.

Lemma grid_row_ok (draws : list nat) :
  Forall (fun d => d < count) draws -> exists row, grid_row xvals draws = Ret row.
Proof.
  pose proof (grid_xvals Hgrid) as Hx.
  induction 1 as [|d ds Hd _ [row Hrow]]; [exists []; reflexivity|].
  cbn [grid_row].
  destruct (nth_error xvals d) as [x|] eqn:Hn.
  - rewrite Hrow. exists (x :: row). reflexivity.
  - apply nth_error_None in Hn. lia.
Qed.

(** One turn of the loop. *)
Lemma sample_loop_turn (label : Z) (sample_list : list (list X)) (g : rng G) :
  length sample_list < num_samples ->
  exists draws x row,
    draw_indices G count n g = Ret (draws, next_rng G count n g)
    /\ In x (cells sample_total)
    /\ cell_equals sample_total draws label = Ret (x =? label)%Z
    /\ (x = label -> drawn_row label row)
    /\ forall fuel,
        sample_loop G (S fuel) sample_total xvals count num_samples n label
          sample_list g
        = if (x =? label)%Z
          then sample_loop G fuel sample_total xvals count num_samples n label
                 (sample_list ++ [row]) (next_rng G count n g)
          else sample_loop G fuel sample_total xvals count num_samples n label
                 sample_list (next_rng G count n g).
Proof.
  intros Hlt.
  destruct (draw_indices_ok n g) as [draws [g1 [Hd [Hl Hf]]]].
  destruct (cell_equals_ok label Hl Hf) as [x [Hin Hc]].
  destruct (grid_row_ok Hf) as [row Hrow].
  assert (Hnext : next_rng G count n g = g1) by (unfold next_rng; rewrite Hd; reflexivity).
  exists draws, x, row. rewrite Hnext.
  split; [exact Hd|]. split; [exact Hin|]. split; [exact Hc|]. split.
  - intros Hx. exists draws. repeat split; try assumption.
    rewrite Hc. subst x. rewrite Z.eqb_refl. reflexivity.
  - intros fuel. cbn [sample_loop].
    destruct (Nat.ltb_spec (length sample_list) num_samples); [|lia].
    rewrite Hd. cbn [bind fst snd]. rewrite Hc. cbn [bind].
    destruct (x =? label)%Z; [rewrite Hrow|]; reflexivity.
Qed.

(** Without a cell of the label the loop runs for as long as it is let. *)
Lemma sample_loop_absent (label : Z) :
  ~ In label (cells sample_total) ->
  forall fuel sample_list g,
    length sample_list < num_samples ->
    sample_loop G fuel sample_total xvals count num_samples n label sample_list g
    = OutOfFuel.
Proof.
  intros Habs. induction fuel as [|fuel IH]; intros sample_list g Hlt.
  - cbn [sample_loop]. destruct (Nat.ltb_spec (length sample_list) num_samples); [reflexivity | lia].
  - destruct (sample_loop_turn label sample_list g Hlt)
      as [draws [x [row [_ [Hin [_ [_ Hstep]]]]]]].
    rewrite Hstep. destruct (Z.eqb_spec x label) as [->|_]; [contradiction|].
    apply IH. exact Hlt.
Qed.

(** The loop never raises on a well-formed grid; what it returns is full,
    keeps the rows it started from and adds drawn rows only. *)
Lemma sample_loop_result (label : Z) :
  forall fuel sample_list g,
    sample_loop G fuel sample_total xvals count num_samples n label sample_list g
    = OutOfFuel
    \/ exists sample_list' g',
        sample_loop G fuel sample_total xvals count num_samples n label sample_list g
        = Ret (sample_list', g')
        /\ (length sample_list <= num_samples -> length sample_list' = num_samples)
        /\ (Forall (drawn_row label) sample_list -> Forall (drawn_row label) sample_list')
        /\ (length sample_list < num_samples -> In label (cells sample_total)).
Proof.
  induction fuel as [|fuel IH]; intros sample_list g.
  - cbn [sample_loop]. destruct (Nat.ltb_spec (length sample_list) num_samples) as [Hlt|Hge];
      [left; reflexivity|].
    right. exists sample_list, g. repeat split; try tauto; lia.
  - destruct (Nat.lt_ge_cases (length sample_list) num_samples) as [Hlt|Hge].
    + destruct (sample_loop_turn label sample_list g Hlt)
        as [draws [x [row [_ [Hin [_ [Hrow Hstep]]]]]]].
      rewrite Hstep. destruct (Z.eqb_spec x label) as [Hx|Hx].
      * destruct (IH (sample_list ++ [row]) (next_rng G count n g))
          as [Hout | [sl' [g' [Hret [Hlen [Hrows _]]]]]]; [left; exact Hout|].
        right. exists sl', g'. split; [exact Hret|]. split; [|split].
        -- intros _. apply Hlen. rewrite length_app. simpl. lia.
        -- intros Hall. apply Hrows. apply Forall_app. split; [exact Hall|].
           constructor; [apply Hrow; exact Hx | constructor].
        -- intros _. subst x. exact Hin.
      * destruct (IH sample_list (next_rng G count n g))
          as [Hout | [sl' [g' [Hret [Hlen [Hrows Hlab]]]]]]; [left; exact Hout|].
        right. exists sl', g'. repeat split; assumption.
    + right. exists sample_list, g. cbn [sample_loop].
      destruct (Nat.ltb_spec (length sample_list) num_samples); [lia|].
      repeat split; try tauto; lia.
Qed.

End RejectionFacts.

Lemma sample_loop_unfold (G : Generator) (X : Type) (fuel : nat)
    (sample_total : ndgrid) (xvals : list X) (count num_samples n : nat)
    (label : Z) (sample_list : list (list X)) (g : rng G) :
  length sample_list >= num_samples ->
  sample_loop G fuel sample_total xvals count num_samples n label sample_list g
  = Ret (sample_list, g).
Proof.
  intros Hge. destruct fuel; cbn [sample_loop];
    destruct (Nat.ltb_spec (length sample_list) num_samples); try lia; reflexivity.
Qed.

(** More fuel does not change what a loop returns. *)
Lemma sample_loop_more_fuel (G : Generator) (X : Type)
    (sample_total : ndgrid) (xvals : list X) (count num_samples n : nat)
    (label : Z) :
  forall fuel extra sample_list (g : rng G) r,
    sample_loop G fuel sample_total xvals count num_samples n label sample_list g
    = Ret r ->
    sample_loop G (fuel + extra) sample_total xvals count num_samples n label
      sample_list g
    = Ret r.
Proof.
  induction fuel as [|fuel IH]; intros extra sample_list g r Hret.
  - destruct (Nat.lt_ge_cases (length sample_list) num_samples) as [Hlt|Hge].
    + cbn [sample_loop] in Hret.
      destruct (Nat.ltb_spec (length sample_list) num_samples); [discriminate | lia].
    + rewrite sample_loop_unfold in Hret |- * by exact Hge. exact Hret.
  - destruct (Nat.lt_ge_cases (length sample_list) num_samples) as [Hlt|Hge].
    + cbn [Nat.add sample_loop] in Hret |- *.
      destruct (Nat.ltb_spec (length sample_list) num_samples); [|lia].
      destruct (draw_indices G count n g) as [r0| |]; cbn [bind] in Hret |- *;
        try discriminate.
      destruct (cell_equals sample_total (fst r0) label) as [hit| |];
        cbn [bind] in Hret |- *; try discriminate.
      destruct hit.
      * destruct (grid_row xvals (fst r0)) as [row| |]; cbn [bind] in Hret |- *;
          try discriminate.
        apply IH. exact Hret.
      * apply IH. exact Hret.
    + rewrite sample_loop_unfold in Hret |- * by exact Hge. exact Hret.
Qed.

Section RejectionTermination.

Variable G : Generator.
Variable X : Type.
Hypothesis HG : GeneratorOK G.

Variable sample_total : ndgrid.
Variable xvals : list X.
Variables count num_samples n : nat.
Hypothesis Hgrid : grid_ok sample_total xvals count n.

Lemma rng_after_add (j k : nat) (g : rng G) :
  rng_after G count n (j + k) g = rng_after G count n k (rng_after G count n j g).
Proof.
  revert g. induction j as [|j IH]; intros g; [reflexivity|].
  cbn [Nat.add rng_after]. apply IH.
Qed.

(** A hit within [k] turns adds a row after finitely many turns. *)
Lemma sample_loop_progress (label : Z) :
  forall k sample_list g,
    length sample_list < num_samples ->
    hits G sample_total count n label (rng_after G count n k g) ->
    exists t sample_list',
      length sample_list' = S (length sample_list)
      /\ forall fuel,
          sample_loop G (t + fuel) sample_total xvals count num_samples n label
            sample_list g
          = sample_loop G fuel sample_total xvals count num_samples n label
              sample_list' (rng_after G count n t g).
Proof.
  induction k as [|k IH]; intros sample_list g Hlt Hhit;
    destruct (@sample_loop_turn G X HG sample_total xvals count num_samples n
                Hgrid label sample_list g Hlt)
      as [draws [x [row [Hd [_ [Hc [_ Hstep]]]]]]].
  - destruct Hhit as [r [Hr Hcell]]. cbn [rng_after] in Hr.
    rewrite Hd in Hr. injection Hr as Hr. subst r. cbn [fst] in Hcell.
    rewrite Hc in Hcell. injection Hcell as Hx.
    exists 1, (sample_list ++ [row]).
    split; [rewrite length_app; simpl; lia|].
    intros fuel. cbn [Nat.add rng_after]. rewrite Hstep, Hx. reflexivity.
  - destruct (Z.eqb_spec x label) as [Hx|Hx].
    + exists 1, (sample_list ++ [row]).
      split; [rewrite length_app; simpl; lia|].
      intros fuel. cbn [Nat.add rng_after]. apply Hstep.
    + cbn [rng_after] in Hhit.
      destruct (IH sample_list (next_rng G count n g) Hlt Hhit)
        as [t [sl' [Hlen Hrun]]].
      exists (S t), sl'. split; [exact Hlen|].
      intros fuel. cbn [Nat.add rng_after]. rewrite Hstep. apply Hrun.
Qed.

(** If the index stream from [g0] eventually hits the label, a loop started
    anywhere along the stream returns, somewhere further along it. *)
Lemma sample_loop_terminates (label : Z) (g0 : rng G) :
  eventually_hits G sample_total count n label g0 ->
  forall m sample_list j,
    num_samples - length sample_list = m ->
    exists fuel sample_list' j',
      sample_loop G fuel sample_total xvals count num_samples n label sample_list
        (rng_after G count n j g0)
      = Ret (sample_list', rng_after G count n j' g0).
Proof.
  intros Hev. induction m as [|m IH]; intros sample_list j Hm.
  - exists 0, sample_list, j. apply sample_loop_unfold. lia.
  - destruct (Hev j) as [k Hk]. rewrite rng_after_add in Hk.
    destruct (@sample_loop_progress label k sample_list
                (rng_after G count n j g0) ltac:(lia) Hk)
      as [t [sl' [Hlen Hrun]]].
    rewrite <- rng_after_add in Hrun.
    destruct (IH sl' (j + t) ltac:(lia)) as [fuel [sl'' [j' Hr]]].
    exists (t + fuel), sl'', j'. rewrite Hrun. exact Hr.
Qed.

End RejectionTermination.

Section SampleAdHocData.

Variable G : Generator.
Variable X : Type.
Hypothesis HG : GeneratorOK G.

Variable sample_total : ndgrid.
Variable xvals : list X.
Variables count num_samples n : nat.
Hypothesis Hgrid : grid_ok sample_total xvals count n.

Lemma shape0_ok : shape0 sample_total = Ret count.
Proof.
  unfold shape0. rewrite (grid_shape Hgrid).
  pose proof (grid_axes Hgrid) as Hn. destruct n; [lia | reflexivity].
Qed.

(** The outcomes of [_sample_ad_hoc_data] on a well-formed grid. *)
Lemma sample_ad_hoc_data_cases (fuel : nat) (g : rng G) :
  _sample_ad_hoc_data G fuel sample_total xvals num_samples n g = OutOfFuel
  \/ exists a b g',
      _sample_ad_hoc_data G fuel sample_total xvals num_samples n g
      = Ret ((a ++ b, repeat 0%Z num_samples ++ repeat 1%Z num_samples), g')
      /\ length a = num_samples /\ length b = num_samples
      /\ Forall (drawn_from sample_total xvals count n 1) a
      /\ Forall (drawn_from sample_total xvals count n (-1)) b
      /\ (1 <= num_samples ->
          In 1%Z (cells sample_total) /\ In (-1)%Z (cells sample_total)).
Proof.
  unfold _sample_ad_hoc_data. rewrite shape0_ok. cbn [bind].
  destruct (@sample_loop_result G X HG sample_total xvals count num_samples n
              Hgrid 1%Z fuel [] g)
    as [Hout | [a [g1 [Ha [Hla [Hra Hia]]]]]]; [rewrite Hout; left; reflexivity|].
  rewrite Ha. cbn [bind fst snd].
  destruct (@sample_loop_result G X HG sample_total xvals count num_samples n
              Hgrid (-1)%Z fuel [] g1)
    as [Hout | [b [g2 [Hb [Hlb [Hrb Hib]]]]]]; [rewrite Hout; left; reflexivity|].
  rewrite Hb. cbn [bind fst snd]. right. exists a, b, g2.
  split; [reflexivity|].
  split; [apply Hla; simpl; lia|]. split; [apply Hlb; simpl; lia|].
  split; [apply Hra; constructor|]. split; [apply Hrb; constructor|].
  intros Hn. split; [apply Hia | apply Hib]; simpl; lia.
Qed.

Lemma sample_ad_hoc_data_terminates (g : rng G) :
  eventually_hits G sample_total count n 1 g ->
  eventually_hits G sample_total count n (-1) g ->
  exists fuel r,
    _sample_ad_hoc_data G fuel sample_total xvals num_samples n g = Ret r.
Proof.
  intros H1 H2.
  destruct (@sample_loop_terminates G X HG sample_total xvals count num_samples n
              Hgrid 1%Z g H1 _ [] 0 eq_refl) as [f1 [a [j1 Ha]]].
  destruct (@sample_loop_terminates G X HG sample_total xvals count num_samples n
              Hgrid (-1)%Z g H2 _ [] j1 eq_refl) as [f2 [b [j2 Hb]]].
  cbn [rng_after] in Ha.
  exists (f1 + f2). unfold _sample_ad_hoc_data. rewrite shape0_ok. cbn [bind].
  rewrite (@sample_loop_more_fuel G X sample_total xvals count num_samples n
             1%Z f1 f2 [] g _ Ha).
  cbn [bind fst snd]. rewrite (Nat.add_comm f1 f2).
  rewrite (@sample_loop_more_fuel G X sample_total xvals count num_samples n
             (-1)%Z f2 f1 [] _ _ Hb).
  cbn [bind fst snd]. eexists. reflexivity.
Qed.

End SampleAdHocData.

(** With no sample asked for the function returns at once, whatever the
    grid holds: here a grid of one cell, labelled +1, and no fuel. *)
Lemma no_samples_returns_without_label :
  ~ absent_label_never_terminates sorting_generator.
Proof.
  intros Hclaim.
  pose (grid := {| shape := [1]; cells := [1%Z] |}).
  assert (Hgrid : grid_ok grid [0%R] 1 1)
    by (constructor; simpl; try reflexivity; lia).
  specialize (Hclaim grid [0%R] 1 0 1 (0 : rng sorting_generator) Hgrid).
  assert (Habs : ~ In 1%Z (cells grid) \/ ~ In (-1)%Z (cells grid)).
  { right. simpl. intros [H|[]]. discriminate. }
  specialize (Hclaim Habs 0). discriminate.
Qed.

(** C10, amended: for [num_samples >= 1] and a grid of [n >= 1] axes of
    [count >= 1] cells, [_sample_ad_hoc_data] never raises; it never returns
    if the grid lacks a cell equal to +1 or a cell equal to -1; it returns
    if the index stream from [g] keeps hitting both labels; and whenever it
    returns, both labels are in the grid and the result is
    [2 * num_samples] rows, [num_samples] rows [xvals[d]] of drawn indices
    of +1 cells followed by [num_samples] of -1 cells, with the labels
    [[0] * num_samples + [1] * num_samples]. *)
Theorem rejection_sampling_terminates (G : Generator) (X : Type)
    (sample_total : ndgrid) (xvals : list X) (count num_samples n : nat)
    (g : rng G) :
  GeneratorOK G -> grid_ok sample_total xvals count n -> 1 <= num_samples ->
  let run := fun fuel =>
    _sample_ad_hoc_data G fuel sample_total xvals num_samples n g in
  let labels := repeat 0%Z num_samples ++ repeat 1%Z num_samples in
  (~ In 1%Z (cells sample_total) \/ ~ In (-1)%Z (cells sample_total) ->
   forall fuel, run fuel = OutOfFuel)
  /\ (eventually_hits G sample_total count n 1 g ->
      eventually_hits G sample_total count n (-1) g ->
      exists fuel samples g', run fuel = Ret ((samples, labels), g'))
  /\ (forall fuel samples labels' g',
        run fuel = Ret ((samples, labels'), g') ->
        In 1%Z (cells sample_total) /\ In (-1)%Z (cells sample_total)
        /\ labels' = labels
        /\ length samples = 2 * num_samples
        /\ Forall (drawn_from sample_total xvals count n 1)
                  (firstn num_samples samples)
        /\ Forall (drawn_from sample_total xvals count n (-1))
                  (skipn num_samples samples))
  /\ (forall fuel e, run fuel <> Raise e).
Proof.
  intros HG Hgrid Hnum run labels.
  assert (Hcases : forall fuel,
             run fuel = OutOfFuel
             \/ exists a b g',
                 run fuel = Ret ((a ++ b, labels), g')
                 /\ length a = num_samples /\ length b = num_samples
                 /\ Forall (drawn_from sample_total xvals count n 1) a
                 /\ Forall (drawn_from sample_total xvals count n (-1)) b
                 /\ (1 <= num_samples ->
                     In 1%Z (cells sample_total) /\ In (-1)%Z (cells sample_total)))
    by (intros fuel; apply (sample_ad_hoc_data_cases HG num_samples Hgrid fuel g)).
  split; [|split; [|split]].
  - intros Habs fuel.
    destruct (Hcases fuel) as [Hout | [a [b [g' [_ [_ [_ [_ [_ Hin]]]]]]]]];
      [exact Hout|].
    destruct (Hin Hnum) as [H1 H2]. tauto.
  - intros H1 H2.
    destruct (@sample_ad_hoc_data_terminates G X HG sample_total xvals count
                num_samples n Hgrid g H1 H2)
      as [fuel [r Hr]].
    fold (run fuel) in Hr.
    destruct (Hcases fuel) as [Hout | [a [b [g' [Hret _]]]]]; [congruence|].
    exists fuel, (a ++ b), g'. exact Hret.
  - intros fuel samples labels' g' Hret.
    destruct (Hcases fuel)
      as [Hout | [a [b [g2 [Hret' [Hla [Hlb [Hra [Hrb Hin]]]]]]]]]; [congruence|].
    rewrite Hret in Hret'. injection Hret' as Hs Hl Hg. subst samples labels'.
    destruct (Hin Hnum) as [H1 H2].
    split; [exact H1|]. split; [exact H2|]. split; [reflexivity|].
    split; [rewrite length_app; lia|].
    assert (Hf : firstn num_samples (a ++ b) = a)
      by (rewrite <- Hla, firstn_app, firstn_all, Nat.sub_diag, firstn_0;
          apply app_nil_r).
    assert (Hs : skipn num_samples (a ++ b) = b)
      by (rewrite <- Hla, skipn_app, skipn_all, Nat.sub_diag; reflexivity).
    rewrite Hf, Hs. split; assumption.
  - intros fuel e Hraise.
    destruct (Hcases fuel) as [Hout | [a [b [g' [Hret _]]]]]; congruence.
Qed.

Lemma two_cell_grid_ok : grid_ok two_cell_grid [0; 1] 2 1.
Proof. constructor; simpl; try reflexivity; lia. Qed.

Lemma rejection_sampling_terminates_witness :
  let G := sorting_generator in
  let run := fun fuel =>
    _sample_ad_hoc_data G fuel two_cell_grid [0; 1] 1 1 (0 : rng G) in
  let labels := repeat 0%Z 1 ++ repeat 1%Z 1 in
  (~ In 1%Z (cells two_cell_grid) \/ ~ In (-1)%Z (cells two_cell_grid) ->
   forall fuel, run fuel = OutOfFuel)
  /\ (eventually_hits G two_cell_grid 2 1 1 (0 : rng G) ->
      eventually_hits G two_cell_grid 2 1 (-1) (0 : rng G) ->
      exists fuel samples g', run fuel = Ret ((samples, labels), g'))
  /\ (forall fuel samples labels' g',
        run fuel = Ret ((samples, labels'), g') ->
        In 1%Z (cells two_cell_grid) /\ In (-1)%Z (cells two_cell_grid)
        /\ labels' = labels
        /\ length samples = 2 * 1
        /\ Forall (drawn_from two_cell_grid [0; 1] 2 1 1) (firstn 1 samples)
        /\ Forall (drawn_from two_cell_grid [0; 1] 2 1 (-1)) (skipn 1 samples))
  /\ (forall fuel e, run fuel <> Raise e).
Proof.
  intros G run labels.
  apply (@rejection_sampling_terminates sorting_generator nat two_cell_grid
           [0; 1] 2 1 1 0 sorting_generator_ok two_cell_grid_ok).
  lia.
Defined.

(** The concrete generator alternates between the two cells, so its index
    stream hits both labels again and again; here one turn of each loop
    suffices. *)
Lemma counting_rng_after (k g : nat) :
  rng_after sorting_generator 2 1 k g = k + g.
Proof.
  revert g. induction k as [|k IH]; intros g; [reflexivity|].
  cbn [rng_after]. rewrite IH. cbn. lia.
Qed.

Lemma two_cell_grid_hits :
  eventually_hits sorting_generator two_cell_grid 2 1 1 (0 : rng sorting_generator)
  /\ eventually_hits sorting_generator two_cell_grid 2 1 (-1)
       (0 : rng sorting_generator).
Proof.
  assert (Hparity : forall g : nat, g mod 2 = 0 \/ g mod 2 = 1)
    by (intros g; pose proof (Nat.mod_upper_bound g 2); lia).
  assert (Hstep : forall g : nat,
             draw_indices sorting_generator 2 1 g = Ret ([g mod 2], S g))
    by reflexivity.
  assert (Hcell : forall (g : nat) (label : Z),
             cell_equals two_cell_grid [g mod 2] label
             = Ret (if Nat.eqb (g mod 2) 0 then (1 =? label)%Z else (-1 =? label)%Z)).
  { intros g label. destruct (Hparity g) as [-> | ->]; reflexivity. }
  split; intros j.
  - exists (j mod 2). rewrite counting_rng_after, Nat.add_0_r.
    eexists. split; [apply Hstep|]. cbn [fst]. rewrite Hcell.
    replace ((j + j mod 2) mod 2) with 0
      by (destruct (Hparity j); pose proof (Nat.div_mod (j + j mod 2) 2);
          pose proof (Nat.div_mod j 2);
          pose proof (Nat.mod_upper_bound (j + j mod 2) 2); lia).
    reflexivity.
  - exists (S (j mod 2)). rewrite counting_rng_after, Nat.add_0_r.
    eexists. split; [apply Hstep|]. cbn [fst]. rewrite Hcell.
    replace ((j + S (j mod 2)) mod 2) with 1
      by (destruct (Hparity j); pose proof (Nat.div_mod (j + S (j mod 2)) 2);
          pose proof (Nat.div_mod j 2);
          pose proof (Nat.mod_upper_bound (j + S (j mod 2)) 2); lia).
    reflexivity.
Qed.

Example two_cell_grid_run :
  _sample_ad_hoc_data sorting_generator 1 two_cell_grid [0; 1] 1 1
    (0 : rng sorting_generator)
  = Ret (([[0]; [1]], [0; 1]%Z), 2).
Proof. reflexivity. Qed.

(** ** [ad_hoc_data] *)

Lemma unbound_names_unbound :
  forallb (fun name => negb (bound name)) unbound_names = true.
Proof. reflexivity. Qed.

Lemma module_names_bound : forallb bound module_names = true.
Proof. reflexivity. Qed.

(** C1: the call the module itself makes on line 334,
    [ad_hoc_data(10, 10, 3, 10, 0)], returns no training and testing samples:
    it raises NameError at line 112, where [n_hadamard] is read. *)
Theorem ad_hoc_data_module_call (G : Generator) (L : Collaborators) (fuel : nat)
    (g : rng G) :
  ad_hoc_data G L fuel 10 10 3 10 0 false true false g
  = Raise (NameError "n_hadamard").
Proof. reflexivity. Qed.

(** C5: [ad_hoc_data] does not look at whether [n] is 2 or 3: for every
    [n >= 0] it raises NameError (for a negative [n], TypeError), so it
    never raises ValueError and never returns. *)
Theorem ad_hoc_data_never_checks_n (G : Generator) (L : Collaborators) (fuel : nat)
    (train_size test_size : nat) (n : Z) (gap : R) (divisions : Z)
    (plot_data one_hot include_sample_total : bool) (g : rng G) :
  let run :=
    ad_hoc_data G L fuel train_size test_size n gap divisions plot_data one_hot
      include_sample_total g in
  run = (if (n <? 0)%Z then Raise TypeError else Raise (NameError "n_hadamard"))
  /\ run <> Raise ValueError
  /\ forall r, run <> Ret r.
Proof.
  intros run.
  assert (Hrun : run = if (n <? 0)%Z then Raise TypeError
                       else Raise (NameError "n_hadamard"))
    by (unfold run, ad_hoc_data; destruct (n <? 0)%Z; reflexivity).
  split; [exact Hrun|]. rewrite Hrun.
  split; [|intros r]; destruct (n <? 0)%Z; discriminate.
Qed.

(** ** The feature map and the labelling as written *)

Lemma Uphi_of_length (post_exp : cmatrix) (Uphi : list cmatrix) :
  Uphi_of post_exp = Ret Uphi -> length Uphi = 10.
Proof.
  unfold Uphi_of. cbn zeta.
  destruct (Nat.eqb_spec (length post_exp) 10) as [H10|_].
  - intros H. injection H as <-. rewrite length_map. exact H10.
  - destruct (Nat.eqb_spec (length post_exp) 1) as [_|_]; [|discriminate].
    intros H. injection H as <-. reflexivity.
Qed.

Lemma truth_value_array (a : list bool) :
  length a <> 1 -> truth_value a = Raise ValueError.
Proof.
  intros Hl. destruct a as [|b [|c a]]; try reflexivity. simpl in Hl. lia.
Qed.

Lemma label_block_array (exp_val : list R) (gap : R) (n : nat) :
  length exp_val <> 1 -> label_block exp_val gap n = Raise ValueError.
Proof.
  intros Hl. unfold label_block.
  rewrite truth_value_array by (rewrite length_map; exact Hl). reflexivity.
Qed.

(** C2: the labelling as written labels no point.  Whatever the states
    are, [Uphi] holds 10 matrices, so [exp_val] holds 10 values and the
    condition [np.abs(exp_val) > gap] of the [if] has no truth value:
    lines 154-168 raise ValueError; and on a single value the list
    [_sample_total] to append to is an unbound name. *)
Theorem labelling_raises (post_exp : cmatrix) (dims : nat) (h_n : ndarray)
    (psi_0 : list R) (O : cmatrix) (gap : R) (n : nat) :
  (Uphi <- Uphi_of post_exp ;;
   Psi <- Psi_of dims Uphi h_n psi_0 ;;
   label_block (exp_val_of O Psi) gap n) = Raise ValueError
  /\ forall e, label_block [e] gap n = Raise (NameError "_sample_total").
Proof.
  split; [|reflexivity].
  destruct (Uphi_of post_exp) as [Uphi| |] eqn:HU; cbn [bind].
  - apply Uphi_of_length in HU.
    destruct h_n as [x|h]; cbn [Psi_of bind]; [reflexivity|].
    apply label_block_array. unfold exp_val_of. rewrite !length_map. lia.
  - unfold Uphi_of in HU. cbn zeta in HU.
    destruct (length post_exp =? 10); [discriminate|].
    destruct (length post_exp =? 1); [discriminate|]. congruence.
  - unfold Uphi_of in HU. cbn zeta in HU.
    destruct (length post_exp =? 10); [discriminate|].
    destruct (length post_exp =? 1); discriminate.
Qed.

Lemma add_in_place_length (a b : matrix) (k : nat) :
  length a = k -> length b = k -> length (add_in_place a b) = k.
Proof.
  intros Ha Hb. unfold add_in_place. rewrite length_map, length_combine. lia.
Qed.

Lemma pre_exp_of_length (n n_samples dims : nat) (x_vecs : matrix)
    (z_diags : list (list R)) (zz_diags : list ((nat * nat) * list R)) :
  length x_vecs = n_samples ->
  length (pre_exp_of n n_samples dims x_vecs z_diags zz_diags) = n_samples.
Proof.
  intros Hx. unfold pre_exp_of.
  assert (Hfold : forall (A : Type) (f : A -> matrix) (l : list A) (acc : matrix),
             (forall a, length (f a) = n_samples) ->
             length acc = n_samples ->
             length (fold_left (fun acc a => add_in_place acc (f a)) l acc)
             = n_samples).
  { intros A f l. induction l as [|a l IH]; intros acc Hf Hacc; [exact Hacc|].
    cbn [fold_left]. apply IH; [exact Hf|].
    apply add_in_place_length; [exact Hacc | apply Hf]. }
  apply (Hfold _ (fun kv => col_times_row
                              (_phi_ij x_vecs (fst (fst kv)) (snd (fst kv))) (snd kv))).
  - intros kv. unfold col_times_row, _phi_ij. rewrite !length_map. exact Hx.
  - apply (Hfold _ (fun i => col_times_row (_phi_i x_vecs i) (nth i z_diags []))).
    + intros i. unfold col_times_row, _phi_i. rewrite !length_map. exact Hx.
    + unfold np_zeros. apply repeat_length.
Qed.

Lemma sample_x_vecs_rows (G : Generator) (train_size test_size n : nat)
    (divisions : Z) (g : rng G) (xs : matrix * rng G) :
  GeneratorOK G ->
  sample_x_vecs G train_size test_size n divisions g = Ret xs ->
  has_shape (train_size + test_size) n (fst xs).
Proof.
  intros HG. unfold sample_x_vecs.
  destruct (Z.gtb_spec divisions 0) as [Hgt|Hle].
  - destruct (modified_LHC_spec HG n (train_size + test_size) g
                (n_div := Z.to_nat divisions) ltac:(lia))
      as [x_vecs [g' [Hret [Hshape _]]]].
    rewrite Hret. intros H. injection H as <-. exact Hshape.
  - intros H. injection H as <-. apply sobol_sampling_spec. exact HG.
Qed.

(** C6: the evolution as written handles 10 samples (or 1) only.  For any
    other number of samples, such as the 10 + 10 of the module's own call,
    the assignment to [Uphi] on line 156 raises ValueError, and no state
    is evolved. *)
Theorem evolution_rejects_sample_count (G : Generator)
    (train_size test_size n : nat) (divisions : Z) (dims : nat)
    (z_diags : list (list R)) (zz_diags : list ((nat * nat) * list R))
    (g : rng G) (xs : matrix * rng G) :
  GeneratorOK G ->
  train_size + test_size <> 10 -> train_size + test_size <> 1 ->
  sample_x_vecs G train_size test_size n divisions g = Ret xs ->
  Uphi_of (post_exp_of (pre_exp_of n (train_size + test_size) dims (fst xs)
                          z_diags zz_diags))
  = Raise ValueError.
Proof.
  intros HG H10 H1 Hxs.
  pose proof (sample_x_vecs_rows _ _ _ _ _ HG Hxs) as [Hrows _].
  unfold Uphi_of, post_exp_of. cbn zeta.
  rewrite length_map,
    (@pre_exp_of_length n (train_size + test_size) dims (fst xs) z_diags zz_diags Hrows).
  destruct (Nat.eqb_spec (train_size + test_size) 10); [contradiction|].
  destruct (Nat.eqb_spec (train_size + test_size) 1); [contradiction|].
  reflexivity.
Qed.

Lemma evolution_rejects_sample_count_witness :
  let G := sorting_generator in
  let xs := _sobol_sampling G 3 20 (0 : rng G) in
  Uphi_of (post_exp_of (pre_exp_of 3 (10 + 10) 8 (fst xs) [] [])) = Raise ValueError.
Proof.
  intros G xs.
  apply (@evolution_rejects_sample_count sorting_generator 10 10 3 0 8 [] [] 0 xs
           sorting_generator_ok); [lia | lia | reflexivity].
Defined.

(** ** The split into training and test arrays *)

Lemma combine_app_same {A B : Type} (a a' : list A) (l l' : list B) :
  length a = length l ->
  combine (a ++ a') (l ++ l') = combine a l ++ combine a' l'.
Proof.
  revert l. induction a as [|x a IH]; intros [|y l] Hl; try discriminate;
    [reflexivity|].
  simpl. rewrite IH by (simpl in Hl; lia). reflexivity.
Qed.

Lemma rows_with_label_same (a : matrix) (k : Z) :
  rows_with_label a (repeat k (length a)) k = a.
Proof.
  unfold rows_with_label. induction a as [|x a IH]; [reflexivity|].
  cbn [length repeat combine filter snd]. rewrite Z.eqb_refl.
  cbn [map fst]. rewrite IH. reflexivity.
Qed.

Lemma rows_with_label_other (a : matrix) (k k' : Z) :
  k <> k' -> rows_with_label a (repeat k (length a)) k' = [].
Proof.
  intros Hk. unfold rows_with_label. induction a as [|x a IH]; [reflexivity|].
  cbn [length repeat combine filter snd].
  destruct (Z.eqb_spec k k') as [Heq|_]; [contradiction | exact IH].
Qed.

Lemma rows_with_label_app (a b : matrix) (l l' : list Z) (k : Z) :
  length a = length l ->
  rows_with_label (a ++ b) (l ++ l') k
  = rows_with_label a l k ++ rows_with_label b l' k.
Proof.
  intros Hl. unfold rows_with_label.
  rewrite combine_app_same by exact Hl. rewrite filter_app, map_app. reflexivity.
Qed.

(** The rows of class A and of class B, out of what [_sample_ad_hoc_data]
    returns. *)
Lemma rows_of_each_class (a b : matrix) (num : nat) :
  length a = num -> length b = num ->
  rows_with_label (a ++ b) (repeat 0%Z num ++ repeat 1%Z num) 0 = a
  /\ rows_with_label (a ++ b) (repeat 0%Z num ++ repeat 1%Z num) 1 = b.
Proof.
  intros Ha Hb.
  assert (Haa : rows_with_label a (repeat 0%Z num) 0 = a)
    by (rewrite <- Ha; apply rows_with_label_same).
  assert (Hab : rows_with_label a (repeat 0%Z num) 1 = [])
    by (rewrite <- Ha; apply rows_with_label_other; lia).
  assert (Hba : rows_with_label b (repeat 1%Z num) 0 = [])
    by (rewrite <- Hb; apply rows_with_label_other; lia).
  assert (Hbb : rows_with_label b (repeat 1%Z num) 1 = b)
    by (rewrite <- Hb; apply rows_with_label_same).
  rewrite !rows_with_label_app by (rewrite repeat_length; exact Ha).
  rewrite Haa, Hab, Hba, Hbb, app_nil_r. split; reflexivity.
Qed.

(** X1: the split of lines 176-189 on what [_sample_ad_hoc_data] returns:
    the training features are the first [training_size] rows of class A
    followed by the first [training_size] rows of class B, the test
    features are the [test_size] rows after them in each class, and the
    label arrays name the classes row by row. *)
Theorem split_samples_slices (a b : matrix) (training_size test_size : nat)
    (one_hot : bool) :
  length a = training_size + test_size ->
  length b = training_size + test_size ->
  let num := training_size + test_size in
  let split :=
    split_samples (a ++ b) (repeat 0%Z num ++ repeat 1%Z num)
      training_size test_size ["A"; "B"]%string one_hot in
  let labels_of := fun k =>
    match k with
    | O => OneHot []
    | S _ => if one_hot
             then OneHot (repeat [1; 0]%Z k ++ repeat [0; 1]%Z k)
             else Encoded (repeat 0%Z k ++ repeat 1%Z k)
    end in
  fst (fst split) = firstn training_size a ++ firstn training_size b
  /\ fst (snd split) = skipn training_size a ++ skipn training_size b
  /\ length (fst (fst split)) = 2 * training_size
  /\ length (fst (snd split)) = 2 * test_size
  /\ snd (fst split) = labels_of training_size
  /\ snd (snd split) = labels_of test_size.
Proof.
  intros Ha Hb num split labels_of.
  destruct (rows_of_each_class a b Ha Hb) as [HA HB].
  assert (Hta : length (firstn training_size a) = training_size)
    by (rewrite length_firstn; lia).
  assert (Htb : length (firstn training_size b) = training_size)
    by (rewrite length_firstn; lia).
  assert (Hsa : firstn test_size (skipn training_size a) = skipn training_size a)
    by (apply firstn_all2; rewrite length_skipn; lia).
  assert (Hsb : firstn test_size (skipn training_size b) = skipn training_size b)
    by (apply firstn_all2; rewrite length_skipn; lia).
  assert (Hla : length (skipn training_size a) = test_size)
    by (rewrite length_skipn; lia).
  assert (Hlb : length (skipn training_size b) = test_size)
    by (rewrite length_skipn; lia).
  assert (Hlabels : forall (ra rb : matrix) (k : nat),
             length ra = k -> length rb = k ->
             _features_and_labels_transform [("A"%string, ra); ("B"%string, rb)]
               ["A"; "B"]%string one_hot
             = (ra ++ rb, labels_of k)).
  { intros ra rb k Hra Hrb. unfold _features_and_labels_transform.
    cbn [map snd concat flat_map fst]. rewrite Hra, Hrb, !app_nil_r.
    destruct k as [|k]; [reflexivity|].
    destruct (repeat "A"%string (S k) ++ repeat "B"%string (S k))
      as [|c cs] eqn:Hraw; [discriminate|].
    rewrite <- Hraw. cbv beta iota.
    unfold labels_of. destruct one_hot; rewrite map_app, !map_repeat; reflexivity. }
  assert (Hsplit : split
                   = ((firstn training_size a ++ firstn training_size b,
                       labels_of training_size),
                      (skipn training_size a ++ skipn training_size b,
                       labels_of test_size))).
  { unfold split, split_samples, num.
    cbn [length seq combine map fst snd].
    change (Z.of_nat 0) with 0%Z. change (Z.of_nat 1) with 1%Z.
    rewrite HA, HB, Hsa, Hsb.
    f_equal; apply Hlabels; assumption. }
  rewrite Hsplit. cbn [fst snd]. rewrite !length_app, Hta, Htb, Hla, Hlb.
  repeat split; lia.
Qed.

Lemma split_samples_slices_witness :
  let a := [[0]; [1]]%R in
  let b := [[2]; [3]]%R in
  let split :=
    split_samples (a ++ b) (repeat 0%Z 2 ++ repeat 1%Z 2) 1 1 ["A"; "B"]%string true in
  fst (fst split) = firstn 1 a ++ firstn 1 b
  /\ fst (snd split) = skipn 1 a ++ skipn 1 b
  /\ length (fst (fst split)) = 2 * 1
  /\ length (fst (snd split)) = 2 * 1
  /\ snd (fst split) = OneHot (repeat [1; 0]%Z 1 ++ repeat [0; 1]%Z 1)
  /\ snd (snd split) = OneHot (repeat [1; 0]%Z 1 ++ repeat [0; 1]%Z 1).
Proof.
  intros a b split.
  apply (@split_samples_slices a b 1 1 true); reflexivity.
Defined.

(** ** The evolution by diagonal unitaries *)

Ltac complex_ring :=
  unfold Cadd, Cmul, Cconj, RtoC, C0, Cnorm2; cbn [fst snd];
  try (f_equal; ring).

Lemma Cadd_0_r (z : C) : Cadd z C0 = z.
Proof. destruct z. complex_ring. Qed.

Lemma Cadd_0_l (z : C) : Cadd C0 z = z.
Proof. destruct z. complex_ring. Qed.

Lemma Cmul_0_l (z : C) : Cmul C0 z = C0.
Proof. destruct z. complex_ring. Qed.

Lemma Cnorm2_mul (a b : C) : Cnorm2 (Cmul a b) = (Cnorm2 a * Cnorm2 b)%R.
Proof. destruct a, b. unfold Cnorm2, Cmul. cbn [fst snd]. ring. Qed.

Lemma Cexp_i_unit (t : R) : unit_modulus (Cexp_i t).
Proof.
  unfold unit_modulus, Cnorm2, Cexp_i. cbn [fst snd].
  pose proof (sin2_cos2 t) as H. unfold Rsqr in H. lra.
Qed.

Lemma cdot_cons (x y : C) (u v : list C) :
  cdot (x :: u) (y :: v) = Cadd (Cmul x y) (cdot u v).
Proof. reflexivity. Qed.

Lemma cdot_nil_r (u : list C) : cdot u [] = C0.
Proof. unfold cdot. rewrite combine_nil. reflexivity. Qed.

Lemma cdot_zeros (k : nat) (v : list C) : cdot (repeat C0 k) v = C0.
Proof.
  revert v. induction k as [|k IH]; intros [|y v]; try reflexivity.
  cbn [repeat]. rewrite cdot_cons, IH, Cmul_0_l. apply Cadd_0_l.
Qed.

(** A diagonal matrix multiplies a vector entry by entry. *)
Lemma cmatvec_cdiag (u v : list C) :
  length u = length v ->
  cmatvec (cdiag u) v = map (fun p => Cmul (fst p) (snd p)) (combine u v).
Proof.
  revert v. induction u as [|x u IH]; intros [|y v] Hl; try discriminate;
    [reflexivity|].
  cbn [cdiag cmatvec map combine fst snd]. f_equal.
  - rewrite cdot_cons, cdot_zeros. apply Cadd_0_r.
  - rewrite map_map. rewrite <- IH by (simpl in Hl; lia).
    unfold cmatvec. apply map_ext. intros row.
    rewrite cdot_cons, Cmul_0_l. apply Cadd_0_l.
Qed.

Lemma cdiag_shape (u : list C) :
  length (cdiag u) = length u /\ Forall (fun row => length row = length u) (cdiag u).
Proof.
  induction u as [|x u [IHl IHf]]; [split; [reflexivity | constructor]|].
  cbn [cdiag length]. split; [rewrite length_map, IHl; reflexivity|].
  constructor.
  - cbn [length]. rewrite repeat_length. reflexivity.
  - apply Forall_map. eapply Forall_impl; [|exact IHf].
    intros row Hrow. cbn [length]. rewrite Hrow. reflexivity.
Qed.

Lemma norm2_cons (z : C) (v : list C) : norm2 (z :: v) = (Cnorm2 z + norm2 v)%R.
Proof. reflexivity. Qed.

Lemma norm2_diagonal (u v : list C) :
  Forall unit_modulus u -> length u = length v ->
  norm2 (cmatvec (cdiag u) v) = norm2 v.
Proof.
  intros Hu Hl. rewrite cmatvec_cdiag by exact Hl.
  revert v Hl. induction Hu as [|x u Hx _ IH]; intros [|y v] Hl; try discriminate;
    [reflexivity|].
  cbn [combine map fst snd]. rewrite !norm2_cons, Cnorm2_mul, Hx.
  rewrite IH by (simpl in Hl; lia). ring.
Qed.

Lemma cdot_linear {A : Type} (c : C) (f g : A -> C) (l : list A) (v : list C) :
  cdot (map (fun j => Cadd (Cmul c (g j)) (f j)) l) v
  = Cadd (Cmul c (cdot (map g l) v)) (cdot (map f l) v).
Proof.
  assert (Hzero : Cadd (Cmul c C0) C0 = C0) by (destruct c; complex_ring).
  revert v. induction l as [|a l IH]; intros [|y v]; cbn [map].
  - symmetry. exact Hzero.
  - symmetry. exact Hzero.
  - rewrite !cdot_nil_r. symmetry. exact Hzero.
  - rewrite !cdot_cons, IH.
    destruct c, (g a), (f a), y, (cdot (map g l) v), (cdot (map f l) v).
    complex_ring.
Qed.

Lemma cdot_map_zero {A : Type} (l : list A) (v : list C) :
  cdot (map (fun _ => C0) l) v = C0.
Proof.
  revert v. induction l as [|a l IH]; intros [|y v]; try reflexivity.
  cbn [map]. rewrite cdot_cons, IH, Cmul_0_l. apply Cadd_0_l.
Qed.

(** [(a @ b) @ v = a @ (b @ v)], row by row. *)
Lemma cdot_matmul (width : nat) (b : cmatrix) (v : list C) :
  Forall (fun row => length row = width) b ->
  forall a : list C,
    cdot (map (fun j => cdot a (column C0 j b)) (seq 0 width)) v
    = cdot a (cmatvec b v).
Proof.
  induction 1 as [|b0 b Hb0 _ IH]; intros a.
  - change (cmatvec [] v) with (@nil C). rewrite cdot_nil_r.
    rewrite (map_ext (fun j => cdot a (column C0 j [])) (fun _ => C0))
      by (intros j; apply cdot_nil_r).
    apply cdot_map_zero.
  - destruct a as [|a0 a].
    + apply (cdot_map_zero (seq 0 width) v).
    + change (cmatvec (b0 :: b) v) with (cdot b0 v :: cmatvec b v).
      rewrite cdot_cons.
      rewrite (map_ext (fun j => cdot (a0 :: a) (column C0 j (b0 :: b)))
                 (fun j => Cadd (Cmul a0 (nth j b0 C0)) (cdot a (column C0 j b))))
        by (intros j; reflexivity).
      rewrite (cdot_linear a0 (fun j => cdot a (column C0 j b))
                 (fun j => nth j b0 C0)).
      rewrite (map_nth_seq_id C0 b0 Hb0). rewrite IH. reflexivity.
Qed.

Lemma cmatvec_cmatmul (width : nat) (a b : cmatrix) (v : list C) :
  Forall (fun row => length row = width) b ->
  cmatvec (cmatmul width a b) v = cmatvec a (cmatvec b v).
Proof.
  intros Hb. unfold cmatvec at 1 2, cmatmul. rewrite map_map.
  apply map_ext. intros row. apply cdot_matmul. exact Hb.
Qed.

Lemma inv_sqrt2_sqr : (1 / sqrt 2 * (1 / sqrt 2) = 1 / 2)%R.
Proof.
  assert (Hs : (sqrt 2 * sqrt 2 = 2)%R) by (apply sqrt_sqrt; lra).
  assert (Hpos : (0 < sqrt 2)%R) by (apply sqrt_lt_R0; lra).
  replace (1 / sqrt 2 * (1 / sqrt 2))%R with (1 / (sqrt 2 * sqrt 2))%R
    by (field; lra).
  rewrite Hs. reflexivity.
Qed.

Lemma neg_inv_sqrt2 : (-1 / sqrt 2 = - (1 / sqrt 2))%R.
Proof. unfold Rdiv. ring. Qed.

(** A 2x2 real matrix with orthonormal columns keeps the norm of a pair. *)
Lemma pair_norm (c1 d1 c2 d2 : R) (x y : C) :
  (c1 * c1 + c2 * c2 = 1)%R -> (d1 * d1 + d2 * d2 = 1)%R ->
  (c1 * d1 + c2 * d2 = 0)%R ->
  (Cnorm2 (Cadd (Cmul (RtoC c1) x) (Cmul (RtoC d1) y))
   + Cnorm2 (Cadd (Cmul (RtoC c2) x) (Cmul (RtoC d2) y))
   = Cnorm2 x + Cnorm2 y)%R.
Proof.
  intros H1 H2 H3. destruct x as [x1 x2], y as [y1 y2].
  unfold Cnorm2, Cadd, Cmul, RtoC. cbn [fst snd].
  transitivity ((c1 * c1 + c2 * c2) * (x1 * x1 + x2 * x2)
                + (d1 * d1 + d2 * d2) * (y1 * y1 + y2 * y2)
                + 2 * (c1 * d1 + c2 * d2) * (x1 * y1 + x2 * y2))%R; [ring|].
  rewrite H1, H2, H3. ring.
Qed.

Section TwoByTwo.

Variables c1 d1 c2 d2 : R.
Hypothesis Hc : (c1 * c1 + c2 * c2 = 1)%R.
Hypothesis Hd : (d1 * d1 + d2 * d2 = 1)%R.
Hypothesis Hcd : (c1 * d1 + c2 * d2 = 0)%R.

Lemma pair_fold_length (c d : R) (k : nat) :
  forall w, length w = 2 * k -> length (pair_fold c d w) = k.
Proof.
  induction k as [|k IH]; intros w Hw.
  - destruct w; [reflexivity | discriminate].
  - destruct w as [|x [|y w]]; try (simpl in Hw; lia).
    cbn [pair_fold length]. rewrite IH by (simpl in Hw; lia). reflexivity.
Qed.

Lemma norm2_pair_fold (k : nat) :
  forall w, length w = 2 * k ->
    (norm2 (pair_fold c1 d1 w) + norm2 (pair_fold c2 d2 w) = norm2 w)%R.
Proof.
  induction k as [|k IH]; intros w Hw.
  - destruct w; [|discriminate].
    unfold norm2. cbn [pair_fold map fold_right]. lra.
  - destruct w as [|x [|y w]]; try (simpl in Hw; lia).
    cbn [pair_fold]. rewrite !norm2_cons.
    pose proof (IH w ltac:(simpl in Hw; lia)) as IHw.
    pose proof (pair_norm x y Hc Hd Hcd) as Hp.
    lra.
Qed.

Lemma cdot_krow2 (c d : R) (r : list R) :
  forall w, length w = 2 * length r ->
    cdot (map RtoC (kprod Rmult r [c; d])) w
    = cdot (map RtoC r) (pair_fold c d w).
Proof.
  induction r as [|x r IH]; intros w Hw; [reflexivity|].
  destruct w as [|y0 [|y1 w]]; try (simpl in Hw; lia).
  change (kprod Rmult (x :: r) [c; d])
    with ((x * c)%R :: (x * d)%R :: kprod Rmult r [c; d]).
  cbn [map pair_fold]. rewrite !cdot_cons, IH by (simpl in Hw; lia).
  destruct y0, y1, (cdot (map RtoC r) (pair_fold c d w)). complex_ring.
Qed.

Lemma cmatvec_kron2 (d : nat) (m : matrix) (w : list C) :
  Forall (fun row => length row = d) m -> length w = 2 * d ->
  cmatvec (to_complex (kron m [[c1; d1]; [c2; d2]])) w
  = flat_map (fun r => [cdot (map RtoC r) (pair_fold c1 d1 w);
                        cdot (map RtoC r) (pair_fold c2 d2 w)]) m.
Proof.
  intros Hm Hw. induction Hm as [|r m Hr _ IH]; [reflexivity|].
  change (kron (r :: m) [[c1; d1]; [c2; d2]])
    with (kprod Rmult r [c1; d1] :: kprod Rmult r [c2; d2]
          :: kron m [[c1; d1]; [c2; d2]]).
  cbn [to_complex map cmatvec flat_map app].
  rewrite !cdot_krow2 by (rewrite Hr; exact Hw).
  f_equal. f_equal. exact IH.
Qed.

Lemma norm2_flat_map2 {A : Type} (f g : A -> C) (l : list A) :
  norm2 (flat_map (fun a => [f a; g a]) l)
  = (norm2 (map f l) + norm2 (map g l))%R.
Proof.
  induction l as [|a l IH].
  - unfold norm2. cbn [flat_map map fold_right]. lra.
  - cbn [flat_map app map]. rewrite !norm2_cons, IH. ring.
Qed.

(** The Kronecker product with an orthogonal 2x2 matrix keeps norms. *)
Lemma norm_preserving_kron2 (d : nat) (m : matrix) :
  norm_preserving d m ->
  norm_preserving (d * 2) (kron m [[c1; d1]; [c2; d2]]).
Proof.
  intros [Hshape Hnorm]. split.
  - apply kron_shape; [exact Hshape|]. split; [reflexivity | repeat constructor].
  - intros w Hw. rewrite (cmatvec_kron2 (d := d)) by (try apply Hshape; lia).
    rewrite norm2_flat_map2.
    assert (Hmv : forall v, map (fun r => cdot (map RtoC r) v) m
                            = cmatvec (to_complex m) v)
      by (intros v; unfold cmatvec, to_complex; rewrite map_map; reflexivity).
    rewrite !Hmv.
    rewrite !Hnorm by (apply pair_fold_length; lia).
    apply (norm2_pair_fold d). lia.
Qed.

End TwoByTwo.

Lemma hadamard_base_orthogonal :
  let s := (1 / sqrt 2)%R in
  let t := (-1 / sqrt 2)%R in
  (s * s + s * s = 1)%R /\ (s * s + t * t = 1)%R /\ (s * s + s * t = 0)%R.
Proof.
  intros s t. pose proof inv_sqrt2_sqr as Hs. fold s in Hs.
  assert (Ht : t = (- s)%R) by apply neg_inv_sqrt2.
  rewrite Ht. repeat split; nra.
Qed.

Lemma identity_1_norm_preserving : norm_preserving 1 [[1%R]].
Proof.
  split; [split; [reflexivity | repeat constructor]|].
  intros [|x [|y w]] Hw; try discriminate.
  unfold norm2, cmatvec, to_complex, cdot.
  cbn [map combine fold_right fst snd].
  destruct x as [x1 x2]. unfold Cnorm2, Cadd, Cmul, RtoC, C0. cbn [fst snd]. ring.
Qed.

Lemma kron_identity_1 (b : matrix) : kron [[1%R]] b = b.
Proof.
  unfold kron, kprod. cbn [flat_map]. rewrite app_nil_r.
  rewrite <- (map_id b) at 2. apply map_ext. intros row.
  cbn [flat_map]. rewrite app_nil_r.
  rewrite <- (map_id row) at 2. apply map_ext. intros v. apply Rmult_1_l.
Qed.

(** The [n]-fold Hadamard matrix keeps the norm of every vector. *)
Lemma hadamard_power_norm (n : nat) :
  exists m, kron_power (Matrix hadamard_base) (S n) = Matrix m
            /\ norm_preserving (2 ^ S n) m.
Proof.
  destruct hadamard_base_orthogonal as [H1 [H2 H3]].
  induction n as [|n [m [Hm Hp]]].
  - exists hadamard_base. split; [apply kron_power_1|].
    rewrite <- (kron_identity_1 hadamard_base), hadamard_base_entries.
    apply (norm_preserving_kron2 H1 H2 H3 identity_1_norm_preserving).
  - exists (kron m hadamard_base). split.
    + change (kron_power (Matrix hadamard_base) (S (S n)))
        with (np_kron (kron_power (Matrix hadamard_base) (S n)) (Matrix hadamard_base)).
      rewrite Hm. reflexivity.
    + replace (2 ^ S (S n)) with (2 ^ S n * 2) by (simpl; lia).
      rewrite hadamard_base_entries.
      apply (norm_preserving_kron2 H1 H2 H3 Hp).
Qed.

Lemma norm2_repeat (z : C) (k : nat) : norm2 (repeat z k) = (INR k * Cnorm2 z)%R.
Proof.
  induction k as [|k IH]; [unfold norm2; simpl; ring|].
  cbn [repeat]. rewrite norm2_cons, IH, S_INR. ring.
Qed.

(** The initial state [psi_0] has norm 1. *)
Lemma psi_0_norm (dims : nat) :
  1 <= dims ->
  norm2 (map RtoC (map (fun x => (x / sqrt (INR dims))%R) (repeat 1%R dims))) = 1%R.
Proof.
  intros Hd. rewrite !map_repeat, norm2_repeat.
  assert (Hpos : (0 < INR dims)%R) by (apply lt_0_INR; lia).
  assert (Hs : (sqrt (INR dims) * sqrt (INR dims) = INR dims)%R)
    by (apply sqrt_sqrt; lra).
  assert (Hsp : (0 < sqrt (INR dims))%R) by (apply sqrt_lt_R0; exact Hpos).
  unfold Cnorm2, RtoC. cbn [fst snd].
  replace (1 / sqrt (INR dims) * (1 / sqrt (INR dims)))%R
    with (1 / (sqrt (INR dims) * sqrt (INR dims)))%R by (field; lra).
  rewrite Hs. field. lra.
Qed.

Lemma cmatvec_length (a : cmatrix) (v : list C) : length (cmatvec a v) = length a.
Proof. apply length_map. Qed.

(** One evolved state [Uphi @ h_n @ Uphi @ psi_0] has the norm of [psi_0]
    when [Uphi] is diagonal with entries of modulus 1 and [h_n] keeps
    norms. *)
Lemma evolved_state_norm (dims : nat) (u : list C) (h : matrix) (psi : list C) :
  norm_preserving dims h -> Forall unit_modulus u ->
  length u = dims -> length psi = dims ->
  norm2 (cmatvec (cmatmul dims (cmatmul dims (cdiag u) (to_complex h)) (cdiag u)) psi)
  = norm2 psi.
Proof.
  intros [[Hrows Hcols] Hnorm] Hu Hlu Hlp.
  destruct (cdiag_shape u) as [Hdl Hdr]. rewrite Hlu in Hdr.
  rewrite cmatvec_cmatmul by exact Hdr.
  rewrite cmatvec_cmatmul
    by (unfold to_complex; apply Forall_map; eapply Forall_impl; [|exact Hcols];
        intros row Hrow; rewrite length_map; exact Hrow).
  rewrite norm2_diagonal;
    [| exact Hu
     | rewrite cmatvec_length; unfold to_complex; rewrite length_map; congruence].
  rewrite Hnorm by (rewrite cmatvec_length; congruence).
  apply norm2_diagonal; [exact Hu | congruence].
Qed.

(** X2: when the evolution of lines 141-158 runs (10 samples): every entry of
    [exp(i * pre_exp)] has modulus 1 for a real [pre_exp], [Uphi] is the
    list of the diagonal matrices of its rows, and every evolved state
    [Uphi @ h_n @ Uphi @ psi_0] has Euclidean norm 1. *)
Theorem evolution_is_unitary (n : nat) (pre_exp : matrix) :
  1 <= n -> has_shape 10 (2 ^ n) pre_exp ->
  let dims := 2 ^ n in
  let psi_0 := map (fun x => (x / sqrt (INR dims))%R) (repeat 1%R dims) in
  let post_exp := post_exp_of pre_exp in
  Forall (Forall unit_modulus) post_exp
  /\ Uphi_of post_exp = Ret (map cdiag post_exp)
  /\ exists Psi,
      Psi_of dims (map cdiag post_exp) (_n_hadamard (Z.of_nat n)) psi_0 = Ret Psi
      /\ length Psi = 10
      /\ Forall (fun psi => length psi = dims /\ norm2 psi = 1%R) Psi.
Proof.
  intros Hn [Hrows Hcols] dims psi_0 post_exp.
  assert (Hunit : Forall (Forall unit_modulus) post_exp).
  { unfold post_exp, post_exp_of. apply Forall_map. apply Forall_forall.
    intros row _. apply Forall_map. apply Forall_forall.
    intros t _. apply Cexp_i_unit. }
  assert (Hlen : length post_exp = 10)
    by (unfold post_exp, post_exp_of; rewrite length_map; exact Hrows).
  split; [exact Hunit|]. split.
  - unfold Uphi_of. cbn zeta. rewrite Hlen. reflexivity.
  - destruct n as [|k]; [lia|].
    rewrite n_hadamard_naive.
    destruct (hadamard_power_norm k) as [h [Hh Hp]]. rewrite Hh.
    cbn [Psi_of]. eexists. split; [reflexivity|].
    split; [rewrite !length_map; exact Hlen|].
    apply Forall_map. apply Forall_map.
    assert (Hdims : 1 <= dims) by (unfold dims; apply Nat.neq_0_lt_0, Nat.pow_nonzero; lia).
    assert (Hpsi : length (map RtoC psi_0) = dims)
      by (unfold psi_0; rewrite !length_map, repeat_length; reflexivity).
    assert (Hshape : Forall (fun u => Forall unit_modulus u /\ length u = dims) post_exp).
    { unfold post_exp, post_exp_of. apply Forall_map.
      eapply Forall_impl; [|exact Hcols]. intros row Hrow. split.
      - apply Forall_map. apply Forall_forall. intros t _. apply Cexp_i_unit.
      - rewrite length_map. exact Hrow. }
    eapply Forall_impl; [|exact Hshape]. intros u [Hu Hlu]. split.
    + rewrite cmatvec_length. unfold cmatmul. rewrite !length_map.
      destruct (cdiag_shape u) as [Hdl _]. congruence.
    + rewrite (@evolved_state_norm dims u h (map RtoC psi_0) Hp Hu Hlu Hpsi).
      apply psi_0_norm. exact Hdims.
Qed.

Lemma evolution_is_unitary_witness :
  let pre_exp := repeat [0; PI; 0; PI]%R 10 in
  let psi_0 := map (fun x => (x / sqrt (INR 4))%R) (repeat 1%R 4) in
  let post_exp := post_exp_of pre_exp in
  Forall (Forall unit_modulus) post_exp
  /\ Uphi_of post_exp = Ret (map cdiag post_exp)
  /\ exists Psi,
      Psi_of 4 (map cdiag post_exp) (_n_hadamard 2) psi_0 = Ret Psi
      /\ length Psi = 10
      /\ Forall (fun psi => length psi = 4 /\ norm2 psi = 1%R) Psi.
Proof.
  intros pre_exp psi_0 post_exp.
  apply (@evolution_is_unitary 2 pre_exp); [lia|].
  split; [reflexivity | repeat constructor].
Defined.

(** ** Diagonal matrices under the Kronecker product, and [_i_z] *)

Lemma diag_matrix_app (w1 w2 : list R) :
  diag_matrix (w1 ++ w2)
  = map (fun r => r ++ repeat 0%R (length w2)) (diag_matrix w1)
    ++ map (app (repeat 0%R (length w1))) (diag_matrix w2).
Proof.
  induction w1 as [|y w1 IH].
  - cbn [app diag_matrix map length repeat].
    rewrite <- (map_id (diag_matrix w2)) at 1. apply map_ext. reflexivity.
  - cbn [app diag_matrix map length]. rewrite IH, length_app, repeat_app.
    rewrite map_app, !map_map. reflexivity.
Qed.

Lemma diag_matrix_scale (x : R) (v : list R) :
  map (map (Rmult x)) (diag_matrix v) = diag_matrix (map (Rmult x) v).
Proof.
  induction v as [|y v IH]; [reflexivity|].
  cbn [diag_matrix map]. rewrite length_map, map_repeat, Rmult_0_r.
  rewrite <- IH, !map_map. cbn [map]. rewrite Rmult_0_r. reflexivity.
Qed.

Lemma kprod_zeros_l (k : nat) (row : list R) :
  kprod Rmult (repeat 0%R k) row = repeat 0%R (k * length row).
Proof.
  unfold kprod. induction k as [|k IH]; [reflexivity|].
  cbn [repeat flat_map]. rewrite IH.
  rewrite (map_ext (Rmult 0) (fun _ => 0%R)) by (intros y; apply Rmult_0_l).
  rewrite map_const. cbn [Nat.mul]. rewrite repeat_app. reflexivity.
Qed.

Lemma kron_cons0 (q : nat) (m b : matrix) :
  Forall (fun row => length row = q) b ->
  kron (map (cons 0%R) m) b = map (app (repeat 0%R q)) (kron m b).
Proof.
  intros Hb. unfold kron, kprod. induction m as [|r m IH]; [reflexivity|].
  cbn [map flat_map]. rewrite IH, map_app, map_map. f_equal.
  apply map_ext_Forall. eapply Forall_impl; [|exact Hb].
  intros row Hrow. cbn [flat_map].
  rewrite (map_ext (Rmult 0) (fun _ => 0%R)) by (intros y; apply Rmult_0_l).
  rewrite map_const, Hrow. reflexivity.
Qed.

(** The Kronecker product of two diagonal matrices is the diagonal matrix
    of the Kronecker product of their diagonals. *)
Lemma kron_diag_matrix (u v : list R) :
  kron (diag_matrix u) (diag_matrix v) = diag_matrix (kprod Rmult u v).
Proof.
  induction u as [|x u IH]; [reflexivity|].
  change (kprod Rmult (x :: u) v) with (map (Rmult x) v ++ kprod Rmult u v).
  rewrite diag_matrix_app, length_map, kprod_length.
  cbn [diag_matrix].
  change (kron ((x :: repeat 0%R (length u)) :: map (cons 0%R) (diag_matrix u))
               (diag_matrix v))
    with (map (kprod Rmult (x :: repeat 0%R (length u))) (diag_matrix v)
          ++ kron (map (cons 0%R) (diag_matrix u)) (diag_matrix v)).
  rewrite (kron_cons0 (q := length v)) by apply diag_matrix_shape.
  rewrite IH. f_equal.
  rewrite <- diag_matrix_scale, map_map.
  apply map_ext_Forall. eapply Forall_impl; [|apply (diag_matrix_shape v)].
  intros row Hrow. cbn beta.
  change (kprod Rmult (x :: repeat 0%R (length u)) row)
    with (map (Rmult x) row ++ kprod Rmult (repeat 0%R (length u)) row).
  rewrite kprod_zeros_l, Hrow. reflexivity.
Qed.

Lemma np_eye_diag (k : nat) : np_eye k = diag_matrix (repeat 1%R k).
Proof.
  unfold np_eye.
  assert (H : forall a,
             map (fun i => map (fun j => if Nat.eqb i j then 1%R else 0%R) (seq a k))
                 (seq a k)
             = diag_matrix (repeat 1%R k)).
  { induction k as [|k IH]; intros a; [reflexivity|].
    cbn [seq map repeat diag_matrix]. rewrite Nat.eqb_refl, repeat_length.
    f_equal.
    - f_equal.
      transitivity (map (fun _ : nat => 0%R) (seq (S a) k));
        [|rewrite map_const, length_seq; reflexivity].
      apply map_ext_in. intros j Hj. apply in_seq in Hj.
      destruct (Nat.eqb_spec a j); [lia | reflexivity].
    - rewrite <- (IH (S a)), map_map. apply map_ext_in. intros i Hi.
      apply in_seq in Hi. destruct (Nat.eqb_spec i a); [lia | reflexivity]. }
  apply H.
Qed.

(** The entries of a Kronecker product of two vectors. *)
Lemma nth_kprod (u v : list R) (k : nat) :
  k < length u * length v ->
  nth k (kprod Rmult u v) 0%R
  = (nth (k / length v) u 0 * nth (k mod length v) v 0)%R.
Proof.
  revert k. induction u as [|x u IH]; intros k Hk; [simpl in Hk; lia|].
  change (kprod Rmult (x :: u) v) with (map (Rmult x) v ++ kprod Rmult u v).
  assert (Hv : 0 < length v) by (destruct v; simpl in *; lia).
  destruct (Nat.lt_ge_cases k (length v)) as [Hlt|Hge].
  - rewrite app_nth1 by (rewrite length_map; exact Hlt).
    rewrite Nat.div_small, Nat.mod_small by exact Hlt.
    rewrite (nth_indep _ 0%R (x * 0)%R) by (rewrite length_map; exact Hlt).
    rewrite (map_nth (Rmult x)). reflexivity.
  - rewrite app_nth2 by (rewrite length_map; exact Hge).
    rewrite length_map, IH by (cbn [length] in Hk; lia).
    replace k with ((k - length v) + 1 * length v) at 3 4 by lia.
    rewrite Nat.div_add, Nat.Div0.mod_add by lia.
    replace (((k - length v) / length v) + 1) with (S ((k - length v) / length v)) by lia.
    reflexivity.
Qed.

Lemma nth_ones (a k : nat) : k < a -> nth k (repeat 1%R a) 0%R = 1%R.
Proof.
  intros Hk. rewrite (nth_indep _ 0%R 1%R) by (rewrite repeat_length; exact Hk).
  apply nth_repeat.
Qed.

(** The diagonal of [I (x) Z (x) I]: the sign of one bit of the index. *)
Lemma i_z_diagonal (a e : nat) :
  kprod Rmult (kprod Rmult (repeat 1%R a) [1; -1]%R) (repeat 1%R (2 ^ e))
  = map (bit_sign e) (seq 0 (a * 2 * 2 ^ e)).
Proof.
  assert (Hpow : 0 < 2 ^ e) by (apply Nat.neq_0_lt_0, Nat.pow_nonzero; lia).
  apply nth_ext with (d := 0%R) (d' := 0%R).
  - rewrite !kprod_length, length_map, length_seq, !repeat_length. reflexivity.
  - intros k Hk. rewrite !kprod_length, !repeat_length in Hk. cbn [length] in Hk.
    rewrite nth_kprod
      by (rewrite kprod_length, !repeat_length; cbn [length]; exact Hk).
    rewrite repeat_length.
    assert (Hq : k / 2 ^ e < a * 2)
      by (apply Nat.Div0.div_lt_upper_bound; lia).
    rewrite nth_kprod by (rewrite repeat_length; cbn [length]; exact Hq).
    cbn [length].
    rewrite !nth_ones
      by (try apply Nat.mod_upper_bound; try apply Nat.Div0.div_lt_upper_bound; lia).
    rewrite (nth_indep (map (bit_sign e) (seq 0 (a * 2 * 2 ^ e))) 0%R (bit_sign e 0))
      by (rewrite length_map, length_seq; lia).
    rewrite map_nth, seq_nth by lia. cbn [Nat.add].
    unfold bit_sign. rewrite Nat.testbit_eqb.
    pose proof (Nat.mod_upper_bound (k / 2 ^ e) 2 ltac:(lia)) as Hm.
    destruct ((k / 2 ^ e) mod 2) as [|[|r]] eqn:Hr; [| |lia]; cbn [nth Nat.eqb]; lra.
Qed.

Lemma i_z_in_range (i n : Z) :
  (0 <= i < n)%Z ->
  _i_z i n
  = Ret (diag_matrix (map (bit_sign (Z.to_nat (n - i - 1)))
                          (seq 0 (2 ^ Z.to_nat n)))).
Proof.
  intros Hi. unfold _i_z, np_eye_pow2.
  destruct (Z.ltb_spec i 0) as [Hneg|_]; [lia|].
  destruct (Z.ltb_spec (n - i - 1) 0) as [Hneg|_]; [lia|].
  cbn [bind]. f_equal. unfold pauli_z.
  rewrite !np_eye_diag, !kron_diag_matrix, i_z_diagonal.
  f_equal. f_equal. f_equal.
  replace (Z.to_nat n) with (Z.to_nat i + 1 + Z.to_nat (n - i - 1)) by lia.
  rewrite !Nat.pow_add_r. reflexivity.
Qed.

(** X3: [_i_z(i, n)] returns for [0 <= i < n] only, and is then the
    diagonal [2^n] by [2^n] matrix whose [k]-th diagonal entry is -1 when
    bit [n - 1 - i] of [k] is set and 1 otherwise; for any other [i]
    [np.eye] is given a float and raises TypeError. *)
Theorem i_z_is_bit_sign (i n : Z) :
  ((i < 0 \/ n <= i)%Z -> _i_z i n = Raise TypeError)
  /\ ((0 <= i < n)%Z ->
      _i_z i n
      = Ret (diag_matrix (map (bit_sign (Z.to_nat (n - i - 1)))
                              (seq 0 (2 ^ Z.to_nat n))))).
Proof.
  split; [|apply i_z_in_range].
  unfold _i_z, np_eye_pow2.
  intros Hi. destruct (Z.ltb_spec i 0) as [_|Hi0]; [reflexivity|].
  destruct (Z.ltb_spec (n - i - 1) 0) as [_|Hn]; [reflexivity | lia].
Qed.

Lemma i_z_is_bit_sign_witness :
  ((1 < 0 \/ 3 <= 1)%Z -> _i_z 1 3 = Raise TypeError)
  /\ ((0 <= 1 < 3)%Z ->
      _i_z 1 3 = Ret (diag_matrix (map (bit_sign 1) (seq 0 8)))).
Proof. apply (i_z_is_bit_sign 1 3). Defined.

(** ** The n-qubit Z gate as the product of the single-qubit gates *)

Lemma diagonal_from_cons (a : R) (k : nat) (m : matrix) :
  diagonal_from (S k) (map (cons a) m) = diagonal_from k m.
Proof.
  revert k. induction m as [|row m IH]; intros k; [reflexivity|].
  cbn [map diagonal_from nth_error].
  destruct (nth_error row k); [rewrite IH|]; reflexivity.
Qed.

Lemma diagonal_diag_matrix (v : list R) : diagonal_from 0 (diag_matrix v) = v.
Proof.
  induction v as [|x v IH]; [reflexivity|].
  cbn [diag_matrix diagonal_from nth_error]. rewrite diagonal_from_cons, IH.
  reflexivity.
Qed.

Lemma map_result_ret {A B : Type} (f : A -> result B) (g : A -> B) (l : list A) :
  (forall x, In x l -> f x = Ret (g x)) -> map_result f l = Ret (map g l).
Proof.
  induction l as [|x l IH]; intros Hf; [reflexivity|].
  cbn [map_result map]. rewrite (Hf x) by (left; reflexivity). cbn [bind].
  rewrite IH by (intros y Hy; apply Hf; right; exact Hy). reflexivity.
Qed.

Lemma mul_rows_map {A : Type} (f g : A -> R) (l : list A) :
  mul_rows (map f l) (map g l) = map (fun k => (f k * g k)%R) l.
Proof.
  unfold mul_rows. induction l as [|a l IH]; [reflexivity|].
  cbn [map combine fst snd]. rewrite IH. reflexivity.
Qed.

(** The entry-by-entry product of rows given index by index. *)
Lemma fold_mul_rows {A : Type} (f : A -> nat -> R) (es : list A) (N : nat) :
  fold_right mul_rows (repeat 1%R N) (map (fun e => map (f e) (seq 0 N)) es)
  = map (fun k => fold_right Rmult 1%R (map (fun e => f e k) es)) (seq 0 N).
Proof.
  induction es as [|e es IH].
  - cbn [map fold_right]. rewrite map_const, length_seq. reflexivity.
  - cbn [map fold_right]. rewrite IH, mul_rows_map. reflexivity.
Qed.

Lemma fold_Rmult_perm (l l' : list R) :
  Permutation l l' -> fold_right Rmult 1%R l = fold_right Rmult 1%R l'.
Proof.
  induction 1 as [|x l l' _ IH|x y l|l l' l'' _ IH1 _ IH2]; cbn [fold_right].
  - reflexivity.
  - rewrite IH. reflexivity.
  - ring.
  - congruence.
Qed.

Lemma parity_sign_div2 (k : nat) :
  parity_sign k = (bit_sign 0 k * parity_sign (Nat.div2 k))%R.
Proof.
  unfold bit_sign, parity_sign. cbn [Nat.testbit].
  pose proof (Nat.div2_odd k) as Hk.
  destruct (Nat.odd k); cbn [Nat.b2n] in Hk.
  - replace (popcount k) with (S (popcount (Nat.div2 k)))
      by (rewrite Hk at 2; rewrite Nat.add_1_r; symmetry; apply popcount_double_succ).
    simpl. ring.
  - replace (popcount k) with (popcount (Nat.div2 k))
      by (rewrite Hk at 2; rewrite Nat.add_0_r; symmetry; apply popcount_double).
    ring.
Qed.

(** The product of the signs of the [n] low bits is the parity. *)
Lemma parity_bits (n : nat) :
  forall k, k < 2 ^ n ->
    fold_right Rmult 1%R (map (fun e => bit_sign e k) (seq 0 n)) = parity_sign k.
Proof.
  induction n as [|n IH]; intros k Hk.
  - cbn in Hk. replace k with 0 by lia. unfold parity_sign. simpl. reflexivity.
  - cbn [seq map fold_right]. rewrite <- seq_shift, map_map.
    rewrite parity_sign_div2. f_equal.
    rewrite <- IH.
    + reflexivity.
    + pose proof (Nat.div2_odd k) as Hd. cbn [Nat.pow] in Hk.
      destruct (Nat.odd k); cbn [Nat.b2n] in Hd; lia.
Qed.

Lemma rev_seq_sub (n : nat) : map (fun i => n - 1 - i) (seq 0 n) = rev (seq 0 n).
Proof.
  apply nth_ext with (d := 0) (d' := 0).
  - rewrite length_map, length_rev. reflexivity.
  - intros k Hk. rewrite length_map, length_seq in Hk.
    rewrite rev_nth by (rewrite length_seq; exact Hk).
    rewrite length_seq, seq_nth by lia.
    rewrite (nth_indep _ 0 (n - 1 - 0)) by (rewrite length_map, length_seq; exact Hk).
    rewrite (map_nth (fun i => n - 1 - i)), seq_nth by exact Hk. lia.
Qed.

(** The gates [_i_z(i, n)] for [i] in [range(n)], and their diagonals. *)
Lemma z_gates_diagonals (n : nat) :
  map_result (fun i => _i_z (Z.of_nat i) (Z.of_nat n)) (seq 0 n)
  = Ret (map (fun i => diag_matrix (map (bit_sign (n - 1 - i)) (seq 0 (2 ^ n))))
             (seq 0 n)).
Proof.
  apply map_result_ret. intros i Hi. apply in_seq in Hi.
  rewrite i_z_in_range by lia. rewrite Nat2Z.id.
  replace (Z.to_nat (Z.of_nat n - Z.of_nat i - 1)) with (n - 1 - i) by lia.
  reflexivity.
Qed.

(** X4: the n-qubit Z gate that [ad_hoc_data] takes from the diagonal of the
    Hadamard matrix (line 123) is the product of the single-qubit gates
    [_i_z(i, n)] of line 115: its diagonal is the entry-by-entry product
    of theirs. *)
Theorem n_z_is_product_of_i_z (n : nat) :
  1 <= n ->
  exists z_gates z_n,
    map_result (fun i => _i_z (Z.of_nat i) (Z.of_nat n)) (seq 0 n) = Ret z_gates
    /\ length z_gates = n
    /\ _n_z (_n_hadamard (Z.of_nat n)) = Ret z_n
    /\ z_n = diag_matrix (fold_right mul_rows (repeat 1%R (2 ^ n))
                            (map (diagonal_from 0) z_gates)).
Proof.
  intros Hn. destruct n as [|n]; [lia|].
  eexists. eexists. split; [apply z_gates_diagonals|].
  split; [rewrite length_map, length_seq; reflexivity|].
  split; [apply n_z_of_hadamard_nat|].
  f_equal. rewrite map_map.
  rewrite (map_ext _ (fun i => map (bit_sign (S n - 1 - i)) (seq 0 (2 ^ S n))))
    by (intros i; apply diagonal_diag_matrix).
  rewrite <- (map_map (fun i => S n - 1 - i)
                (fun e => map (bit_sign e) (seq 0 (2 ^ S n)))).
  rewrite fold_mul_rows. apply map_ext_in. intros k Hk. apply in_seq in Hk.
  rewrite rev_seq_sub, map_rev.
  rewrite <- (fold_Rmult_perm (Permutation_rev _)).
  symmetry. apply parity_bits. lia.
Qed.

Lemma n_z_is_product_of_i_z_witness :
  exists z_gates z_n,
    map_result (fun i => _i_z (Z.of_nat i) 2) (seq 0 2) = Ret z_gates
    /\ length z_gates = 2
    /\ _n_z (_n_hadamard 2) = Ret z_n
    /\ z_n = diag_matrix (fold_right mul_rows (repeat 1%R 4)
                            (map (diagonal_from 0) z_gates)).
Proof. apply (@n_z_is_product_of_i_z 2). lia. Defined.

(** ** The initial state as a column of the Hadamard matrix *)

Lemma column0_kron2 (m : matrix) (c1 d1 c2 d2 : R) :
  column 0%R 0 (kron m [[c1; d1]; [c2; d2]])
  = kprod Rmult (column 0%R 0 m) [c1; c2].
Proof.
  unfold column. induction m as [|r m IH]; [reflexivity|].
  change (kron (r :: m) [[c1; d1]; [c2; d2]])
    with (kprod Rmult r [c1; d1] :: kprod Rmult r [c2; d2]
          :: kron m [[c1; d1]; [c2; d2]]).
  cbn [map]. rewrite IH.
  change (kprod Rmult (nth 0 r 0%R :: map (fun row => nth 0 row 0%R) m) [c1; c2])
    with ((nth 0 r 0 * c1)%R :: (nth 0 r 0 * c2)%R
          :: kprod Rmult (map (fun row => nth 0 row 0%R) m) [c1; c2]).
  destruct r as [|x r]; [|reflexivity].
  cbn [kprod flat_map nth]. rewrite !Rmult_0_l. reflexivity.
Qed.

Lemma krow2_repeat (x c : R) (k : nat) :
  kprod Rmult (repeat x k) [c; c] = repeat (x * c)%R (2 * k).
Proof.
  induction k as [|k IH]; [reflexivity|].
  replace (2 * S k) with (S (S (2 * k))) by lia.
  change (kprod Rmult (repeat x (S k)) [c; c])
    with ((x * c)%R :: (x * c)%R :: kprod Rmult (repeat x k) [c; c]).
  rewrite IH. reflexivity.
Qed.

Lemma sqrt_pow2n (n : nat) : sqrt (INR (2 ^ n)) = (sqrt 2 ^ n)%R.
Proof.
  induction n as [|n IH].
  - cbn [Nat.pow pow INR]. apply sqrt_1.
  - replace (2 ^ S n) with (2 * 2 ^ n) by (simpl; lia).
    rewrite mult_INR, sqrt_mult by (try apply pos_INR; simpl; lra).
    rewrite IH. cbn [pow]. f_equal.
Qed.

(** The first column of the [n]-fold Hadamard matrix is constant. *)
Lemma hadamard_power_column0 (n : nat) :
  exists m, kron_power (Matrix hadamard_base) (S n) = Matrix m
            /\ column 0%R 0 m = repeat ((1 / sqrt 2) ^ S n)%R (2 ^ S n).
Proof.
  induction n as [|n [m [Hm Hc]]].
  - exists hadamard_base. split; [apply kron_power_1|].
    rewrite hadamard_base_entries. unfold column. simpl.
    rewrite Rmult_1_r. reflexivity.
  - exists (kron m hadamard_base). split.
    + change (kron_power (Matrix hadamard_base) (S (S n)))
        with (np_kron (kron_power (Matrix hadamard_base) (S n)) (Matrix hadamard_base)).
      rewrite Hm. reflexivity.
    + rewrite hadamard_base_entries, column0_kron2, Hc, krow2_repeat.
      replace (2 ^ S (S n)) with (2 * 2 ^ S n) by (simpl; lia).
      f_equal. simpl. lra.
Qed.

Lemma cdot_zeros_r (u : list C) (k : nat) : cdot u (repeat C0 k) = C0.
Proof.
  revert k. induction u as [|x u IH]; intros [|k]; try reflexivity.
  cbn [repeat]. rewrite cdot_cons, IH.
  destruct x. complex_ring.
Qed.

(** A matrix applied to the first basis vector is its first column. *)
Lemma cmatvec_basis0 (m : matrix) (k : nat) :
  cmatvec (to_complex m) (map RtoC (1%R :: repeat 0%R k))
  = map RtoC (column 0%R 0 m).
Proof.
  unfold cmatvec, to_complex, column. rewrite !map_map.
  apply map_ext. intros r. cbn [map]. rewrite map_repeat.
  destruct r as [|x r]; [reflexivity|].
  cbn [map nth]. rewrite cdot_cons. change (RtoC 0) with C0.
  rewrite cdot_zeros_r. complex_ring.
Qed.

(** X5: the initial state [psi_0 = np.ones(dims) / np.sqrt(dims)] of
    line 109 is the state the docstring starts from, the n-qubit Hadamard
    matrix applied to the basis state |0...0>: the first column of
    [_n_hadamard(n)]. *)
Theorem psi_0_is_hadamard_column (n : nat) :
  1 <= n ->
  let dims := 2 ^ n in
  let psi_0 := map (fun x => (x / sqrt (INR dims))%R) (repeat 1%R dims) in
  exists h,
    _n_hadamard (Z.of_nat n) = Matrix h
    /\ column 0%R 0 h = psi_0
    /\ cmatvec (to_complex h) (map RtoC (1%R :: repeat 0%R (dims - 1)))
       = map RtoC psi_0.
Proof.
  intros Hn dims psi_0. destruct n as [|n]; [lia|].
  rewrite n_hadamard_naive.
  destruct (hadamard_power_column0 n) as [h [Hh Hc]].
  assert (Hpsi : column 0%R 0 h = psi_0).
  { rewrite Hc. unfold psi_0, dims. rewrite map_repeat. f_equal.
    rewrite sqrt_pow2n.
    assert (Hs : (0 < sqrt 2)%R) by (apply sqrt_lt_R0; lra).
    unfold Rdiv. rewrite !Rmult_1_l. apply pow_inv. }
  exists h. split; [exact Hh|]. split; [exact Hpsi|].
  rewrite cmatvec_basis0, Hpsi. reflexivity.
Qed.

Lemma psi_0_is_hadamard_column_witness :
  let psi_0 := map (fun x => (x / sqrt (INR 4))%R) (repeat 1%R 4) in
  exists h,
    _n_hadamard 2 = Matrix h
    /\ column 0%R 0 h = psi_0
    /\ cmatvec (to_complex h) (map RtoC (1%R :: repeat 0%R 3)) = map RtoC psi_0.
Proof. intros psi_0. apply (@psi_0_is_hadamard_column 2). lia. Defined.

(** ** [_n_z] on any array *)

Lemma np_sign_is_sign (x : R) : is_sign (np_sign x).
Proof.
  unfold is_sign, np_sign.
  destruct (total_order_T x 0) as [[H|H]|H]; auto.
Qed.

Lemma np_sign_idem (x : R) : np_sign (np_sign x) = np_sign x.
Proof.
  destruct (total_order_T x 0) as [[H|H]|H].
  - rewrite (np_sign_neg H). apply np_sign_neg. lra.
  - subst x. rewrite np_sign_0. apply np_sign_0.
  - rewrite (np_sign_pos H). apply np_sign_pos. lra.
Qed.

Lemma diagonal_from_length (k : nat) (m : matrix) :
  length (diagonal_from k m) <= length m.
Proof.
  revert k. induction m as [|row m IH]; intros k; [reflexivity|].
  cbn [diagonal_from]. destruct (nth_error row k); cbn [length]; [|lia].
  specialize (IH (S k)). lia.
Qed.

Lemma n_hadamard_no_qubits (n : Z) : (n <= 0)%Z -> _n_hadamard n = Scalar 1.
Proof.
  intros Hn. unfold _n_hadamard. rewrite hadamard_loop_spec.
  replace (Z.to_nat n) with 0 by lia. cbn [kron_power np_kron].
  f_equal. lra.
Qed.

(** X6: [_n_z] turns any 2-d array into the diagonal matrix of the signs
    (-1, 0 or 1) of its diagonal, and applied to its own result changes
    nothing; a 0-d argument is refused with ValueError, which is what
    happens for [n <= 0], where [_n_hadamard(n)] is the number 1 and not
    an array. *)
Theorem n_z_sign_diagonal (m : matrix) (x : R) (n : Z) :
  (exists v,
      _n_z (Matrix m) = Ret (diag_matrix v)
      /\ v = map np_sign (diagonal_from 0 m)
      /\ Forall is_sign v
      /\ length v <= length m
      /\ _n_z (Matrix (diag_matrix v)) = Ret (diag_matrix v))
  /\ _n_z (Scalar x) = Raise ValueError
  /\ ((n <= 0)%Z ->
      _n_hadamard n = Scalar 1 /\ _n_z (_n_hadamard n) = Raise ValueError).
Proof.
  split; [|split].
  - exists (map np_sign (diagonal_from 0 m)).
    split; [reflexivity|]. split; [reflexivity|]. split; [|split].
    + apply Forall_map. apply Forall_forall. intros y _. apply np_sign_is_sign.
    + rewrite length_map. apply diagonal_from_length.
    + unfold _n_z. cbn [np_diag bind]. rewrite diagonal_diag_matrix, map_map.
      rewrite (map_ext _ np_sign) by apply np_sign_idem. reflexivity.
  - reflexivity.
  - intros Hn. rewrite (n_hadamard_no_qubits Hn). split; reflexivity.
Qed.

Lemma n_z_sign_diagonal_witness :
  (exists v,
      _n_z (Matrix [[2; 0]; [0; -3]]%R) = Ret (diag_matrix v)
      /\ v = map np_sign (diagonal_from 0 [[2; 0]; [0; -3]]%R)
      /\ Forall is_sign v
      /\ length v <= 2
      /\ _n_z (Matrix (diag_matrix v)) = Ret (diag_matrix v))
  /\ _n_z (Scalar 1) = Raise ValueError
  /\ ((0 <= 0)%Z ->
      _n_hadamard 0 = Scalar 1 /\ _n_z (_n_hadamard 0) = Raise ValueError).
Proof. apply (n_z_sign_diagonal [[2; 0]; [0; -3]]%R 1%R 0%Z). Defined.

(** ** Stratification by [_modified_LHC] *)

Lemma tile_count_exact (n_div n_passes b : nat) :
  b < n_div -> count_occ Nat.eq_dec (np_tile_arange n_div n_passes) b = n_passes.
Proof.
  intros Hb. unfold np_tile_arange. induction n_passes as [|k IH]; [reflexivity|].
  cbn [repeat concat]. rewrite count_occ_app, IH.
  rewrite (proj1 (NoDup_count_occ' Nat.eq_dec (seq 0 n_div)) (seq_NoDup n_div 0) b)
    by (apply in_seq; lia).
  reflexivity.
Qed.

Lemma full_passes (q n_div : nat) :
  1 <= n_div -> (q * n_div + n_div - 1) / n_div = q.
Proof.
  intros Hd.
  replace (q * n_div + n_div - 1) with ((n_div - 1) + q * n_div) by lia.
  rewrite Nat.div_add by lia. rewrite Nat.div_small by lia. reflexivity.
Qed.

(** X7: when [n_div] divides [n_samples], [_modified_LHC] chooses each of
    the [n_div] bins exactly [n_samples / n_div] times in every dimension;
    over exact real arithmetic each coordinate lies in the bin of width
    [2*pi/n_div] chosen for it, which makes the sample a Latin hypercube.
    (In float64 a coordinate can round onto the lower edge of the next
    bin.) *)
Theorem lhc_fills_bins_evenly (G : Generator) (n q n_div : nat) (g : rng G) :
  GeneratorOK G -> 1 <= n_div ->
  let n_samples := q * n_div in
  exists x_vecs g',
    _modified_LHC G n n_samples n_div g = Ret (x_vecs, g')
    /\ forall dim, dim < n ->
         let chosen := nth dim (lhc_bins G n n_samples n_div g) [] in
         Forall2 (in_bin (2 * PI / INR n_div)) chosen (column 0%R dim x_vecs)
         /\ forall b, b < n_div -> count_occ Nat.eq_dec chosen b = q.
Proof.
  intros HG Hd n_samples.
  destruct (modified_LHC_spec HG n n_samples g Hd)
    as [x_vecs [g' [Hret [_ [_ [_ Hdims]]]]]].
  exists x_vecs, g'. split; [exact Hret|].
  intros dim Hdim chosen. destruct (Hdims dim Hdim) as [Hc Hb].
  fold chosen in Hc, Hb. split; [exact Hb|].
  intros b Hlt. destruct Hc as [perm [Hp Hch]].
  unfold n_samples in Hp, Hch. rewrite full_passes in Hp by exact Hd.
  rewrite firstn_all2 in Hch
    by (rewrite <- (Permutation_length Hp), tile_length; lia).
  rewrite Hch.
  rewrite <- (proj1 (Permutation_count_occ Nat.eq_dec _ _) Hp b).
  apply tile_count_exact. exact Hlt.
Qed.

Lemma lhc_fills_bins_evenly_witness :
  let G := sorting_generator in
  let g : rng G := 0 in
  exists x_vecs g',
    _modified_LHC G 2 (3 * 2) 2 g = Ret (x_vecs, g')
    /\ forall dim, dim < 2 ->
         let chosen := nth dim (lhc_bins G 2 (3 * 2) 2 g) [] in
         Forall2 (in_bin (2 * PI / INR 2)) chosen (column 0%R dim x_vecs)
         /\ forall b, b < 2 -> count_occ Nat.eq_dec chosen b = 3.
Proof.
  intros G g.
  apply (@lhc_fills_bins_evenly sorting_generator 2 3 2 0 sorting_generator_ok).
  lia.
Defined.

(** ** The edges of [_sample_ad_hoc_data] *)

(** X8: what [_sample_ad_hoc_data] does at the edges of its arguments.  A
    0-d grid has no [shape[0]] (IndexError); for [num_samples = 0] neither
    loop is entered and the result is two empty arrays, with no random
    number drawn; with samples to find, an empty first axis makes the
    first [choice(0)] raise ValueError, and [n = 0] compares the whole grid
    with the label, which is a ValueError for a grid of several cells. *)
Theorem sample_ad_hoc_data_edges (G : Generator) (X : Type)
    (sample_total : ndgrid) (xvals : list X) (num_samples n fuel : nat)
    (g : rng G) :
  (shape sample_total = [] ->
   _sample_ad_hoc_data G fuel sample_total xvals num_samples n g
   = Raise IndexError)
  /\ (shape sample_total <> [] ->
      _sample_ad_hoc_data G fuel sample_total xvals 0 n g = Ret (([], []), g))
  /\ (1 <= num_samples -> 1 <= fuel -> 1 <= n ->
      hd 1 (shape sample_total) = 0 ->
      _sample_ad_hoc_data G fuel sample_total xvals num_samples n g
      = Raise ValueError)
  /\ (1 <= num_samples -> 1 <= fuel -> shape sample_total <> [] ->
      2 <= length (cells sample_total) ->
      _sample_ad_hoc_data G fuel sample_total xvals num_samples 0 g
      = Raise ValueError).
Proof.
  unfold _sample_ad_hoc_data, shape0.
  split; [|split; [|split]].
  - intros Hs. rewrite Hs. reflexivity.
  - intros Hs. destruct (shape sample_total) as [|c shp]; [contradiction|].
    cbn [bind]. destruct fuel; reflexivity.
  - intros Hnum Hfuel Hn Hc.
    destruct (shape sample_total) as [|c shp]; [discriminate|].
    cbn [hd] in Hc. subst c. cbn [bind].
    destruct fuel as [|fuel]; [lia|]. destruct n as [|n]; [lia|].
    cbn [sample_loop length draw_indices Nat.eqb bind].
    destruct (Nat.ltb_spec 0 num_samples) as [_|Hle]; [reflexivity | lia].
  - intros Hnum Hfuel Hs Hcells.
    destruct (shape sample_total) as [|c shp] eqn:Hshape; [contradiction|].
    cbn [bind]. destruct fuel as [|fuel]; [lia|].
    cbn [sample_loop length draw_indices bind fst].
    destruct (Nat.ltb_spec 0 num_samples) as [_|Hle]; [|lia].
    unfold cell_equals. rewrite Hshape. cbn [sub_array bind].
    destruct (cells sample_total) as [|x [|y cs]]; try reflexivity.
    simpl in Hcells. lia.
Qed.

Lemma sample_ad_hoc_data_edges_witness :
  let G := sorting_generator in
  let grid := {| shape := [0]; cells := [] |} in
  (shape grid = [] ->
   _sample_ad_hoc_data G 1 grid (@nil R) 1 1 (0 : rng G) = Raise IndexError)
  /\ (shape grid <> [] ->
      _sample_ad_hoc_data G 1 grid (@nil R) 0 1 (0 : rng G)
      = Ret (([], []), (0 : rng G)))
  /\ (1 <= 1 -> 1 <= 1 -> 1 <= 1 -> hd 1 (shape grid) = 0 ->
      _sample_ad_hoc_data G 1 grid (@nil R) 1 1 (0 : rng G) = Raise ValueError)
  /\ (1 <= 1 -> 1 <= 1 -> shape grid <> [] -> 2 <= length (cells grid) ->
      _sample_ad_hoc_data G 1 grid (@nil R) 1 0 (0 : rng G) = Raise ValueError).
Proof.
  intros G grid.
  apply (@sample_ad_hoc_data_edges sorting_generator R grid [] 1 1 1 0).
Defined.

(** ** The exponent of the feature map, entry by entry *)

Lemma combine_map_same {A B D : Type} (f : A -> B) (g : A -> D) (l : list A) :
  combine (map f l) (map g l) = map (fun a => (f a, g a)) l.
Proof. induction l as [|a l IH]; [reflexivity|]. cbn [map combine]. rewrite IH. reflexivity. Qed.

Lemma add_in_place_tab {A B : Type} (f g : A -> B -> R) (xs : list A) (ks : list B) :
  add_in_place (map (fun x => map (f x) ks) xs) (map (fun x => map (g x) ks) xs)
  = map (fun x => map (fun k => (f x k + g x k)%R) ks) xs.
Proof.
  unfold add_in_place. rewrite combine_map_same, map_map.
  apply map_ext. intros x. cbn [fst snd].
  rewrite combine_map_same, map_map. reflexivity.
Qed.

Lemma col_times_row_tab {A B : Type} (c : A -> R) (r : B -> R)
    (xs : list A) (ks : list B) :
  col_times_row (map c xs) (map r ks)
  = map (fun x => map (fun k => (c x * r k)%R) ks) xs.
Proof.
  unfold col_times_row. rewrite map_map. apply map_ext. intros x.
  rewrite map_map. reflexivity.
Qed.

Lemma fold_left_over_map {A B E : Type} (f : A -> B -> A) (g : E -> B)
    (l : list E) (a : A) :
  fold_left f (map g l) a = fold_left (fun acc x => f acc (g x)) l a.
Proof. revert a. induction l as [|x l IH]; intros a; [reflexivity | apply IH]. Qed.

(** Accumulating terms with [+=] sums them. *)
Lemma fold_add_in_place {A B E : Type} (F : E -> matrix) (T : E -> A -> B -> R)
    (xs : list A) (ks : list B) (l : list E) :
  (forall a, In a l -> F a = map (fun x => map (T a x) ks) xs) ->
  forall f0 : A -> B -> R,
    fold_left (fun acc a => add_in_place acc (F a)) l
              (map (fun x => map (f0 x) ks) xs)
    = map (fun x => map (fun k =>
                           (f0 x k + fold_right Rplus 0 (map (fun a => T a x k) l))%R)
                        ks) xs.
Proof.
  induction l as [|a l IH]; intros HF f0.
  - cbn [fold_left map fold_right]. apply map_ext. intros x.
    apply map_ext. intros k. ring.
  - cbn [fold_left]. rewrite (HF a) by (left; reflexivity).
    rewrite add_in_place_tab.
    rewrite (IH (fun b Hb => HF b (or_intror Hb))
                (fun x k => (f0 x k + T a x k)%R)).
    apply map_ext. intros x. apply map_ext. intros k.
    cbn [map fold_right]. ring.
Qed.

Lemma pair_eqb_spec (a b : nat * nat) : pair_eqb a b = true <-> a = b.
Proof.
  destruct a as [a1 a2], b as [b1 b2]. unfold pair_eqb. cbn [fst snd].
  rewrite andb_true_iff, !Nat.eqb_eq. split.
  - intros [-> ->]. reflexivity.
  - intros H. injection H as -> ->. split; reflexivity.
Qed.

(** The keys after [d[key] = value]: those of [d], and [key]. *)
Lemma dict_set_keys {V : Type} (key : nat * nat) (value : V)
    (d : list ((nat * nat) * V)) (k : nat * nat) :
  In k (map fst (dict_set key value d)) <-> k = key \/ In k (map fst d).
Proof.
  induction d as [|kv d IH]; cbn [dict_set map In].
  - cbn [fst]. split; [intros [H|[]]; left; congruence | intros [H|[]]; left; congruence].
  - destruct (pair_eqb (fst kv) key) eqn:Hk; cbn [map In fst].
    + apply pair_eqb_spec in Hk. split; [tauto|].
      intros [H|H]; [left; congruence | exact H].
    + rewrite IH. tauto.
Qed.

(** A dictionary holds a key once. *)
Lemma dict_set_NoDup {V : Type} (key : nat * nat) (value : V)
    (d : list ((nat * nat) * V)) :
  NoDup (map fst d) -> NoDup (map fst (dict_set key value d)).
Proof.
  induction d as [|kv d IH]; cbn [dict_set map]; intros Hd.
  - repeat constructor. intros [].
  - inversion Hd as [|k ks Hnotin Hrest]; subst.
    destruct (pair_eqb (fst kv) key) eqn:Hk; cbn [map fst].
    + constructor; assumption.
    + constructor; [|apply IH; exact Hrest].
      rewrite dict_set_keys. intros [H|H]; [|contradiction].
      apply pair_eqb_spec in H. congruence.
Qed.

Lemma dict_set_values {V : Type} (f : nat * nat -> V) (key : nat * nat)
    (d : list ((nat * nat) * V)) :
  Forall (fun kv => snd kv = f (fst kv)) d ->
  Forall (fun kv => snd kv = f (fst kv)) (dict_set key (f key) d).
Proof.
  induction 1 as [|kv d Hkv Hd IH]; cbn [dict_set].
  - repeat constructor.
  - destruct (pair_eqb (fst kv) key) eqn:Hk.
    + apply pair_eqb_spec in Hk. constructor; [cbn [fst snd]; congruence | exact Hd].
    + constructor; assumption.
Qed.

(** The dictionary [zz_diags]: one item for each distinct pair, holding the
    product of the two diagonals. *)
Lemma zz_diags_of_spec (pairs : list (nat * nat)) (z_diags : list (list R)) :
  let zz_diags := zz_diags_of pairs z_diags in
  NoDup (map fst zz_diags)
  /\ (forall ij, In ij (map fst zz_diags) <-> In ij pairs)
  /\ Forall (fun kv => snd kv = mul_rows (nth (fst (fst kv)) z_diags [])
                                         (nth (snd (fst kv)) z_diags []))
            zz_diags.
Proof.
  unfold zz_diags_of.
  set (f := fun ij : nat * nat =>
              mul_rows (nth (fst ij) z_diags []) (nth (snd ij) z_diags [])).
  assert (H : forall acc,
             NoDup (map fst acc) ->
             Forall (fun kv => snd kv = f (fst kv)) acc ->
             let zz := fold_left (fun zz ij => dict_set ij (f ij) zz) pairs acc in
             NoDup (map fst zz)
             /\ (forall ij, In ij (map fst zz) <-> In ij (map fst acc) \/ In ij pairs)
             /\ Forall (fun kv => snd kv = f (fst kv)) zz).
  { induction pairs as [|p pairs IH]; intros acc Hnd Hval; cbn [fold_left In].
    - split; [exact Hnd|]. split; [intros ij; tauto | exact Hval].
    - destruct (IH (dict_set p (f p) acc) (dict_set_NoDup p (f p) acc Hnd)
                  (dict_set_values f p Hval)) as [H1 [H2 H3]].
      split; [exact H1|]. split; [|exact H3].
      intros ij. rewrite H2, dict_set_keys.
      split; [intros [[->|H]|H] | intros [H|[->|H]]]; auto. }
  destruct (H [] (NoDup_nil _) (Forall_nil _)) as [H1 [H2 H3]].
  split; [exact H1|]. split; [|exact H3].
  intros ij. destruct (H2 ij) as [Ha Hb]. split.
  - intros Hin. destruct (Ha Hin) as [[]|Hp]. exact Hp.
  - intros Hp. apply Hb. right. exact Hp.
Qed.

(** X9: over exact real arithmetic, the exponent [pre_exp] of lines
    143-150, built from the single-qubit gates of line 115 and the
    dictionary of pairwise products of lines 118-120, is the diagonal of
    the docstring's sum: its entry for the sample [x] and the basis state
    [k] is the sum of [x_i * s_i(k)] over the qubits plus the sum of
    [(pi - x_i) * (pi - x_j) * s_i(k) * s_j(k)] over the keys of the
    dictionary, which are the distinct index pairs; [s_i(k)] is the sign
    of bit [n - 1 - i] of [k]. *)
Theorem pre_exp_is_phase_sum (n n_samples : nat) (x_vecs : matrix)
    (pairs : list (nat * nat)) :
  has_shape n_samples n x_vecs ->
  Forall (fun ij => fst ij < n /\ snd ij < n) pairs ->
  let dims := 2 ^ n in
  let s := fun i k => bit_sign (n - 1 - i) k in
  exists z_gates,
    map_result (fun i => _i_z (Z.of_nat i) (Z.of_nat n)) (seq 0 n) = Ret z_gates
    /\ let z_diags := map (diagonal_from 0) z_gates in
       let zz_diags := zz_diags_of pairs z_diags in
       let ind_pairs := map fst zz_diags in
       NoDup ind_pairs
       /\ (forall ij, In ij ind_pairs <-> In ij pairs)
       /\ pre_exp_of n n_samples dims x_vecs z_diags zz_diags
          = map (fun x =>
                   map (fun k =>
                          (fold_right Rplus 0
                             (map (fun i => nth i x 0 * s i k) (seq 0 n))
                           + fold_right Rplus 0
                               (map (fun ij =>
                                       (PI - nth (fst ij) x 0)
                                       * (PI - nth (snd ij) x 0)
                                       * (s (fst ij) k * s (snd ij) k))
                                    ind_pairs))%R)
                       (seq 0 dims))
                x_vecs.
Proof.
  intros [Hrows _] Hpairs dims s.
  eexists. split; [apply z_gates_diagonals|].
  intros z_diags zz_diags ind_pairs.
  destruct (zz_diags_of_spec pairs z_diags) as [Hnd [Hkeys Hvals]].
  fold zz_diags in Hnd, Hkeys, Hvals. fold ind_pairs in Hnd, Hkeys.
  split; [exact Hnd|]. split; [exact Hkeys|].
  assert (Hz : forall i, i < n -> nth i z_diags [] = map (s i) (seq 0 dims)).
  { intros i Hi. unfold z_diags. rewrite map_map.
    rewrite (map_ext _ (fun i => map (s i) (seq 0 dims)))
      by (intros j; apply diagonal_diag_matrix).
    rewrite (nth_indep _ [] (map (s 0) (seq 0 dims)))
      by (rewrite length_map, length_seq; exact Hi).
    rewrite (map_nth (fun i => map (s i) (seq 0 dims))), seq_nth by exact Hi.
    reflexivity. }
  unfold pre_exp_of.
  assert (Hzero : np_zeros n_samples dims
                  = map (fun _ : list R => map (fun _ : nat => 0%R) (seq 0 dims)) x_vecs).
  { unfold np_zeros. rewrite !map_const, length_seq, Hrows. reflexivity. }
  rewrite Hzero.
  rewrite (@fold_add_in_place (list R) nat nat
             (fun i => col_times_row (_phi_i x_vecs i) (nth i z_diags []))
             (fun i x k => (nth i x 0 * s i k)%R) x_vecs (seq 0 dims) (seq 0 n)).
  2:{ intros i Hi. apply in_seq in Hi. rewrite Hz by lia.
      unfold _phi_i. apply col_times_row_tab. }
  rewrite (@fold_add_in_place (list R) nat ((nat * nat) * list R)
             (fun kv => col_times_row (_phi_ij x_vecs (fst (fst kv)) (snd (fst kv)))
                          (snd kv))
             (fun kv x k => ((PI - nth (fst (fst kv)) x 0)
                             * (PI - nth (snd (fst kv)) x 0)
                             * (s (fst (fst kv)) k * s (snd (fst kv)) k))%R)
             x_vecs (seq 0 dims) zz_diags).
  2:{ intros kv Hkv. rewrite Forall_forall in Hpairs, Hvals.
      rewrite (Hvals kv Hkv).
      assert (Hin : In (fst kv) pairs)
        by (apply Hkeys; unfold ind_pairs; apply in_map; exact Hkv).
      destruct (Hpairs (fst kv) Hin) as [Hi Hj].
      rewrite !Hz by assumption. rewrite mul_rows_map.
      unfold _phi_ij. apply col_times_row_tab. }
  apply map_ext. intros x. apply map_ext. intros k.
  unfold ind_pairs. rewrite map_map. ring.
Qed.

Lemma pre_exp_is_phase_sum_witness :
  let x_vecs := [[1; 2]; [3; 4]]%R in
  let pairs := [(0, 1); (0, 1)] in
  let s := fun i k => bit_sign (2 - 1 - i) k in
  exists z_gates,
    map_result (fun i => _i_z (Z.of_nat i) 2) (seq 0 2) = Ret z_gates
    /\ let z_diags := map (diagonal_from 0) z_gates in
       let zz_diags := zz_diags_of pairs z_diags in
       let ind_pairs := map fst zz_diags in
       NoDup ind_pairs
       /\ (forall ij, In ij ind_pairs <-> In ij pairs)
       /\ pre_exp_of 2 2 4 x_vecs z_diags zz_diags
          = map (fun x =>
                   map (fun k =>
                          (fold_right Rplus 0
                             (map (fun i => nth i x 0 * s i k) (seq 0 2))
                           + fold_right Rplus 0
                               (map (fun ij =>
                                       (PI - nth (fst ij) x 0)
                                       * (PI - nth (snd ij) x 0)
                                       * (s (fst ij) k * s (snd ij) k))
                                    ind_pairs))%R)
                       (seq 0 4))
                x_vecs.
Proof.
  intros x_vecs pairs s.
  apply (@pre_exp_is_phase_sum 2 2 x_vecs pairs).
  - split; [reflexivity | repeat constructor].
  - repeat constructor.
Defined.

(** ** The observable and its expectation values *)

Lemma Cconj_involutive (z : C) : Cconj (Cconj z) = z.
Proof. destruct z. unfold Cconj. cbn [fst snd]. f_equal. ring. Qed.

Lemma Cconj_add (a b : C) : Cconj (Cadd a b) = Cadd (Cconj a) (Cconj b).
Proof. destruct a, b. complex_ring. Qed.

Lemma Cconj_mul (a b : C) : Cconj (Cmul a b) = Cmul (Cconj a) (Cconj b).
Proof. destruct a, b. complex_ring. Qed.

Lemma Cmul_comm (a b : C) : Cmul a b = Cmul b a.
Proof. destruct a, b. complex_ring. Qed.

Lemma cdot_comm (u v : list C) : cdot u v = cdot v u.
Proof.
  revert v. induction u as [|x u IH]; intros [|y v]; try reflexivity.
  rewrite !cdot_cons, IH, Cmul_comm. reflexivity.
Qed.

Lemma cdot_conj (u v : list C) :
  Cconj (cdot u v) = cdot (map Cconj u) (map Cconj v).
Proof.
  revert v. induction u as [|x u IH]; intros [|y v];
    try (unfold cdot, Cconj, C0; cbn [combine map fold_right fst snd]; f_equal; ring).
  cbn [map]. rewrite !cdot_cons, Cconj_add, Cconj_mul, IH. reflexivity.
Qed.

Lemma cdot_conj_self (u : list C) : cdot (map Cconj u) u = RtoC (norm2 u).
Proof.
  induction u as [|x u IH]; [reflexivity|].
  cbn [map]. rewrite cdot_cons, norm2_cons, IH.
  destruct x. complex_ring.
Qed.

Lemma norm2_nonneg (u : list C) : (0 <= norm2 u)%R.
Proof.
  induction u as [|x u IH]; [unfold norm2; simpl; lra|].
  rewrite norm2_cons. destruct x as [a b]. unfold Cnorm2. cbn [fst snd]. nra.
Qed.

Lemma nth_tab {A : Type} (f : nat -> A) (d : nat) (j : nat) (dflt : A) :
  j < d -> nth j (map f (seq 0 d)) dflt = f j.
Proof.
  intros Hj. rewrite (nth_indep _ dflt (f 0)) by (rewrite length_map, length_seq; exact Hj).
  rewrite map_nth, seq_nth by exact Hj. reflexivity.
Qed.

(** The entries of [A.conj().T @ A]. *)
Lemma Herm_entry (dims : nat) (A : cmatrix) (j k : nat) :
  j < dims -> k < dims ->
  nth k (nth j (Herm_of dims A) []) C0
  = cdot (map Cconj (column C0 j A)) (column C0 k A).
Proof.
  intros Hj Hk. unfold Herm_of, cmatmul, cdagger. rewrite map_map.
  rewrite (nth_tab _ [] Hj), (nth_tab _ C0 Hk). reflexivity.
Qed.

(** X10: the matrix [Herm = A.conj().T @ A] of line 128, whose eigenvectors
    give the change of basis, is Hermitian whatever the random [A] is:
    each entry is the conjugate of the transposed one, and the diagonal is
    real and not negative. *)
Theorem Herm_is_hermitian (dims : nat) (A : cmatrix) (j k : nat) :
  j < dims -> k < dims ->
  let Herm := Herm_of dims A in
  nth k (nth j Herm []) C0 = Cconj (nth j (nth k Herm []) C0)
  /\ snd (nth j (nth j Herm []) C0) = 0%R
  /\ (0 <= fst (nth j (nth j Herm []) C0))%R.
Proof.
  intros Hj Hk Herm. unfold Herm.
  rewrite !Herm_entry by assumption. split; [|split].
  - rewrite cdot_conj, (map_map Cconj Cconj).
    rewrite (map_ext (fun z => Cconj (Cconj z)) (fun z => z))
      by apply Cconj_involutive.
    rewrite map_id. apply cdot_comm.
  - rewrite cdot_conj_self. reflexivity.
  - rewrite cdot_conj_self. apply norm2_nonneg.
Qed.

Lemma Herm_is_hermitian_witness :
  let A := [[(1, 2); (3, 4)]; [(5, 6); (7, 8)]]%R in
  let Herm := Herm_of 2 A in
  nth 1 (nth 0 Herm []) C0 = Cconj (nth 0 (nth 1 Herm []) C0)
  /\ snd (nth 0 (nth 0 Herm []) C0) = 0%R
  /\ (0 <= fst (nth 0 (nth 0 Herm []) C0))%R.
Proof.
  intros A Herm. apply (@Herm_is_hermitian 2 A 0 1); lia.
Defined.

Lemma to_complex_diag (z : list R) :
  to_complex (diag_matrix z) = cdiag (map RtoC z).
Proof.
  unfold to_complex. induction z as [|x z IH]; [reflexivity|].
  cbn [diag_matrix map cdiag]. rewrite length_map, map_repeat, <- IH, !map_map.
  reflexivity.
Qed.

Lemma cmatvec_cdagger (d : nat) (V : cmatrix) (y : list C) :
  cmatvec (cdagger d V) y
  = map (fun j => cdot (map Cconj (column C0 j V)) y) (seq 0 d).
Proof. unfold cmatvec, cdagger. apply map_map. Qed.

(** [<psi, V^dagger y> = <V psi, y>] *)
Lemma cdot_adjoint (d : nat) (V : cmatrix) (psi : list C) :
  Forall (fun row => length row = d) V ->
  forall y,
    cdot (map Cconj psi) (cmatvec (cdagger d V) y)
    = cdot (map Cconj (cmatvec V psi)) y.
Proof.
  induction 1 as [|row V Hrow _ IH]; intros y.
  - rewrite cmatvec_cdagger. cbn [column map cmatvec].
    rewrite cdot_comm. apply (cdot_map_zero (seq 0 d)).
  - destruct y as [|y0 y].
    + rewrite cdot_nil_r, cmatvec_cdagger.
      rewrite (map_ext (fun j => cdot (map Cconj (column C0 j (row :: V))) [])
                 (fun _ => C0)) by (intros j; apply cdot_nil_r).
      rewrite cdot_comm. apply (cdot_map_zero (seq 0 d)).
    + change (cmatvec (row :: V) psi) with (cdot row psi :: cmatvec V psi).
      cbn [map]. rewrite cdot_cons, <- IH, !cmatvec_cdagger.
      rewrite (map_ext (fun j => cdot (map Cconj (column C0 j (row :: V))) (y0 :: y))
                 (fun j => Cadd (Cmul y0 (Cconj (nth j row C0)))
                                (cdot (map Cconj (column C0 j V)) y)))
        by (intros j; cbn [column map]; rewrite cdot_cons, Cmul_comm; reflexivity).
      rewrite cdot_comm.
      rewrite (cdot_linear y0 (fun j => cdot (map Cconj (column C0 j V)) y)
                 (fun j => Cconj (nth j row C0))).
      rewrite <- (map_map (fun j => nth j row C0) Cconj).
      rewrite (map_nth_seq_id C0 row Hrow).
      rewrite <- cdot_conj, (Cmul_comm y0).
      f_equal. apply cdot_comm.
Qed.

Lemma cdot_weighted (z : list R) (w : list C) :
  cdot (map Cconj w) (map (fun p => Cmul (fst p) (snd p)) (combine (map RtoC z) w))
  = RtoC (weighted_norm2 z w).
Proof.
  unfold weighted_norm2.
  revert w. induction z as [|x z IH]; intros [|y w];
    try (cbn [map combine]; rewrite ?cdot_nil_r; reflexivity).
  cbn [map combine fst snd fold_right]. rewrite cdot_cons, IH.
  destruct y. complex_ring.
Qed.

(** [psi^dagger O psi] is the sum of [z_k * |(V psi)_k|^2]. *)
Lemma expectation_value (d : nat) (V : cmatrix) (z : list R) (psi : list C) :
  length V = d -> Forall (fun row => length row = d) V -> length z = d ->
  cdot (map Cconj psi) (cmatvec (O_of d V (diag_matrix z)) psi)
  = RtoC (weighted_norm2 z (cmatvec V psi)).
Proof.
  intros HV Hrows Hz. unfold O_of.
  rewrite cmatvec_cmatmul by exact Hrows.
  rewrite to_complex_diag.
  destruct (cdiag_shape (map RtoC z)) as [_ Hd]. rewrite length_map, Hz in Hd.
  rewrite cmatvec_cmatmul by exact Hd.
  rewrite (cdot_adjoint psi Hrows).
  rewrite cmatvec_cdiag by (rewrite length_map, cmatvec_length; congruence).
  apply cdot_weighted.
Qed.

Lemma weighted_norm2_bound (z : list R) (w : list C) :
  Forall (fun x => (-1 <= x <= 1)%R) z ->
  (- norm2 w <= weighted_norm2 z w <= norm2 w)%R.
Proof.
  unfold weighted_norm2. intros Hz. revert w.
  induction Hz as [|x z Hx _ IH]; intros [|y w].
  - unfold norm2. simpl. lra.
  - pose proof (norm2_nonneg (y :: w)). simpl. lra.
  - unfold norm2. simpl. lra.
  - cbn [combine map fold_right fst snd]. rewrite norm2_cons.
    specialize (IH w).
    assert (Hy : (0 <= Cnorm2 y)%R)
      by (destruct y as [a b]; unfold Cnorm2; cbn [fst snd]; nra).
    nra.
Qed.

Lemma is_sign_bounded (x : R) : is_sign x -> (-1 <= x <= 1)%R.
Proof. intros [H|[H|H]]; lra. Qed.

(** X11: over exact real arithmetic, the expectation value
    [Psi_dag @ O @ Psi] of line 162 is a real number for any change of
    basis [V] and any diagonal [z_n], so [np.real] drops nothing: it is the
    sum of [z_k * |(V psi)_k|^2].  (In float64 the imaginary part is a
    rounding residue.) *)
Theorem expectation_is_real (d : nat) (V : cmatrix) (z : list R)
    (Psi : list (list C)) :
  length V = d -> Forall (fun row => length row = d) V -> length z = d ->
  let O := O_of d V (diag_matrix z) in
  map RtoC (exp_val_of O Psi)
  = map (fun psi => cdot (map Cconj psi) (cmatvec O psi)) Psi
  /\ exp_val_of O Psi = map (fun psi => weighted_norm2 z (cmatvec V psi)) Psi.
Proof.
  intros HV Hrows Hz O. unfold exp_val_of, O. split.
  - rewrite map_map. apply map_ext. intros psi.
    rewrite (@expectation_value d V z psi HV Hrows Hz). reflexivity.
  - apply map_ext. intros psi.
    rewrite (@expectation_value d V z psi HV Hrows Hz). reflexivity.
Qed.

Lemma expectation_is_real_witness :
  let V := [[(0, 1); (0, 0)]; [(0, 0); (1, 0)]]%R in
  let z := [1; -1]%R in
  let Psi := [[(1, 0); (0, 0)]]%R in
  let O := O_of 2 V (diag_matrix z) in
  map RtoC (exp_val_of O Psi)
  = map (fun psi => cdot (map Cconj psi) (cmatvec O psi)) Psi
  /\ exp_val_of O Psi = map (fun psi => weighted_norm2 z (cmatvec V psi)) Psi.
Proof.
  intros V z Psi O.
  apply (@expectation_is_real 2 V z Psi); [reflexivity | repeat constructor | reflexivity].
Defined.

(** X12: with a unitary change of basis [V], a diagonal [z_n] of signs and
    normalised states, every expectation value of line 162 lies in
    [[-1, 1]]; so for a gap of 1 or more, such as the 10 of the module's own
    call, no [np.abs(exp_val)] exceeds the gap. *)
Theorem expectation_within_one (d : nat) (V : cmatrix) (z : list R)
    (Psi : list (list C)) (gap : R) :
  keeps_norm d V -> length z = d -> Forall is_sign z ->
  Forall (fun psi => length psi = d /\ norm2 psi = 1%R) Psi ->
  let exp_val := exp_val_of (O_of d V (diag_matrix z)) Psi in
  Forall (fun e => (-1 <= e <= 1)%R) exp_val
  /\ ((1 <= gap)%R -> Forall (fun e => Rgt_bool (Rabs e) gap = false) exp_val).
Proof.
  intros [HV [Hrows Hnorm]] Hz Hsign HPsi exp_val.
  assert (Hbound : Forall (fun e => (-1 <= e <= 1)%R) exp_val).
  { unfold exp_val, exp_val_of. apply Forall_map.
    eapply Forall_impl; [|exact HPsi]. intros psi [Hl Hn]. cbn beta.
    rewrite (@expectation_value d V z psi HV Hrows Hz). cbn [RtoC fst].
    pose proof (@weighted_norm2_bound z (cmatvec V psi)
                  (Forall_impl _ is_sign_bounded Hsign)) as Hb.
    rewrite (Hnorm psi Hl), Hn in Hb. exact Hb. }
  split; [exact Hbound|].
  intros Hgap. eapply Forall_impl; [|exact Hbound].
  intros e He. cbn beta. unfold Rgt_bool.
  destruct (Rlt_dec gap (Rabs e)) as [Hlt|_]; [|reflexivity].
  exfalso. unfold Rabs in Hlt. destruct (Rcase_abs e); lra.
Qed.

Lemma identity_2_keeps_norm :
  keeps_norm 2 [[(1, 0); (0, 0)]; [(0, 0); (1, 0)]]%R.
Proof.
  split; [reflexivity|]. split; [repeat constructor|].
  intros [|[a1 a2] [|[b1 b2] [|c w]]] Hw; try discriminate.
  unfold norm2, cmatvec, cdot, Cadd, Cmul, Cnorm2, C0.
  cbn [map combine fold_right fst snd]. ring.
Qed.

Lemma expectation_within_one_witness :
  let V := [[(1, 0); (0, 0)]; [(0, 0); (1, 0)]]%R in
  let exp_val := exp_val_of (O_of 2 V (diag_matrix [1; -1]%R)) [[(1, 0); (0, 0)]]%R in
  Forall (fun e => (-1 <= e <= 1)%R) exp_val
  /\ ((1 <= 10)%R -> Forall (fun e => Rgt_bool (Rabs e) 10 = false) exp_val).
Proof.
  intros V.
  apply (@expectation_within_one 2 V [1; -1]%R [[(1, 0); (0, 0)]]%R 10%R).
  - apply identity_2_keeps_norm.
  - reflexivity.
  - repeat constructor; unfold is_sign; lra.
  - repeat constructor. unfold norm2, Cnorm2. simpl. lra.
Defined.

(** ** The angles of the feature map *)

Lemma sample_x_vecs_range (G : Generator) (train_size test_size n : nat)
    (divisions : Z) (g : rng G) (xs : matrix * rng G) :
  GeneratorOK G ->
  sample_x_vecs G train_size test_size n divisions g = Ret xs ->
  Forall (Forall in_parameter_space) (fst xs).
Proof.
  intros HG. unfold sample_x_vecs.
  destruct (Z.gtb_spec divisions 0) as [Hgt|Hle].
  - destruct (modified_LHC_spec HG n (train_size + test_size) g
                (n_div := Z.to_nat divisions) ltac:(lia))
      as [x_vecs [g' [Hret [_ [Hrange _]]]]].
    rewrite Hret. intros H. injection H as <-. exact Hrange.
  - intros H. injection H as <-. apply sobol_sampling_spec. exact HG.
Qed.

Lemma phi_ij_bound (a b : R) :
  in_parameter_space a -> in_parameter_space b ->
  (- (PI * PI) <= (PI - a) * (PI - b) <= PI * PI)%R.
Proof.
  unfold in_parameter_space. intros [Ha1 Ha2] [Hb1 Hb2].
  pose proof PI_RGT_0 as Hpi.
  assert (H1 : (- PI <= PI - a <= PI)%R) by lra.
  assert (H2 : (- PI <= PI - b <= PI)%R) by lra.
  split; nra.
Qed.

(** X13: over exact real arithmetic, on the vectors the sampler step
    returns the angles of the feature map are bounded: [_phi_i] gives one
    coordinate in [[0, 2*pi)] per sample, [_phi_ij] one product
    [(pi - x_i) * (pi - x_j)] of absolute value at most [pi^2] per sample,
    and [_phi_ij] does not depend on the order of its two indices. *)
Theorem phi_of_samples (G : Generator) (train_size test_size n : nat)
    (divisions : Z) (g : rng G) (xs : matrix * rng G) (i j : nat) :
  GeneratorOK G ->
  sample_x_vecs G train_size test_size n divisions g = Ret xs ->
  i < n -> j < n ->
  let x_vecs := fst xs in
  length (_phi_i x_vecs i) = train_size + test_size
  /\ Forall in_parameter_space (_phi_i x_vecs i)
  /\ length (_phi_ij x_vecs i j) = train_size + test_size
  /\ Forall (fun p => (- (PI * PI) <= p <= PI * PI)%R) (_phi_ij x_vecs i j)
  /\ _phi_ij x_vecs i j = _phi_ij x_vecs j i.
Proof.
  intros HG Hxs Hi Hj x_vecs.
  destruct (sample_x_vecs_rows _ _ _ _ _ HG Hxs) as [Hrows Hcols].
  pose proof (sample_x_vecs_range _ _ _ _ _ HG Hxs) as Hrange.
  fold x_vecs in Hrows, Hcols, Hrange.
  assert (Hin : forall k, k < n ->
             Forall (fun x => in_parameter_space (nth k x 0%R)) x_vecs).
  { intros k Hk. rewrite Forall_forall in Hcols, Hrange |- *.
    intros x Hx. specialize (Hcols x Hx). specialize (Hrange x Hx).
    rewrite Forall_forall in Hrange. apply Hrange. apply nth_In. lia. }
  unfold _phi_i, _phi_ij. rewrite !length_map.
  split; [exact Hrows|]. split; [apply Forall_map; apply Hin; exact Hi|].
  split; [exact Hrows|]. split.
  - apply Forall_map. pose proof (Hin i Hi) as H1. pose proof (Hin j Hj) as H2.
    rewrite Forall_forall in H1, H2 |- *. intros x Hx.
    apply phi_ij_bound; [apply H1 | apply H2]; exact Hx.
  - apply map_ext. intros x. ring.
Qed.

Lemma phi_of_samples_witness :
  let G := sorting_generator in
  let xs := _sobol_sampling G 2 3 (0 : rng G) in
  let x_vecs := fst xs in
  length (_phi_i x_vecs 0) = 1 + 2
  /\ Forall in_parameter_space (_phi_i x_vecs 0)
  /\ length (_phi_ij x_vecs 0 1) = 1 + 2
  /\ Forall (fun p => (- (PI * PI) <= p <= PI * PI)%R) (_phi_ij x_vecs 0 1)
  /\ _phi_ij x_vecs 0 1 = _phi_ij x_vecs 1 0.
Proof.
  intros G xs.
  apply (@phi_of_samples sorting_generator 1 2 2 0 0 xs 0 1 sorting_generator_ok);
    [reflexivity | lia | lia].
Defined.

(** ** The entries of [_n_hadamard] *)

Lemma flat_map_pairs {A : Type} (g : nat -> A) (a len : nat) :
  flat_map (fun k => [g (2 * k); g (2 * k + 1)]) (seq a len)
  = map g (seq (2 * a) (2 * len)).
Proof.
  revert a. induction len as [|len IH]; intros a; [reflexivity|].
  replace (2 * S len) with (S (S (2 * len))) by lia.
  cbn [seq flat_map map app]. rewrite IH.
  replace (2 * a + 1) with (S (2 * a)) by lia.
  replace (2 * S a) with (S (S (2 * a))) by lia. reflexivity.
Qed.

Lemma flat_map_pairs0 {A : Type} (g : nat -> A) (len : nat) :
  flat_map (fun k => [g (2 * k); g (2 * k + 1)]) (seq 0 len)
  = map g (seq 0 (2 * len)).
Proof. apply (flat_map_pairs g 0 len). Qed.

Lemma krow2_map {A : Type} (f : A -> R) (c d : R) (l : list A) :
  kprod Rmult (map f l) [c; d] = flat_map (fun k => [(f k * c)%R; (f k * d)%R]) l.
Proof.
  induction l as [|a l IH]; [reflexivity|].
  cbn [map flat_map app].
  change (kprod Rmult (f a :: map f l) [c; d])
    with ((f a * c)%R :: (f a * d)%R :: kprod Rmult (map f l) [c; d]).
  rewrite IH. reflexivity.
Qed.

Lemma kron2_map {A : Type} (F : A -> list R) (c1 d1 c2 d2 : R) (l : list A) :
  kron (map F l) [[c1; d1]; [c2; d2]]
  = flat_map (fun j => [kprod Rmult (F j) [c1; d1]; kprod Rmult (F j) [c2; d2]]) l.
Proof.
  induction l as [|a l IH]; [reflexivity|].
  cbn [map flat_map app].
  change (kron (F a :: map F l) [[c1; d1]; [c2; d2]])
    with (kprod Rmult (F a) [c1; d1] :: kprod Rmult (F a) [c2; d2]
          :: kron (map F l) [[c1; d1]; [c2; d2]]).
  rewrite IH. reflexivity.
Qed.

Lemma sqrt2_pos : (0 < sqrt 2)%R.
Proof. apply sqrt_lt_R0. lra. Qed.

(** One more qubit: the entry for the indices [2j + a] and [2k + b]. *)
Lemma walsh_entry_step (n j k : nat) :
  walsh_entry (S n) (2 * j) (2 * k) = (walsh_entry n j k * (1 / sqrt 2))%R
  /\ walsh_entry (S n) (2 * j) (2 * k + 1) = (walsh_entry n j k * (1 / sqrt 2))%R
  /\ walsh_entry (S n) (2 * j + 1) (2 * k) = (walsh_entry n j k * (1 / sqrt 2))%R
  /\ walsh_entry (S n) (2 * j + 1) (2 * k + 1)
     = (walsh_entry n j k * (-1 / sqrt 2))%R.
Proof.
  pose proof sqrt2_pos as Hs.
  assert (Hp : (sqrt 2 ^ n <> 0)%R) by (apply pow_nonzero; lra).
  unfold walsh_entry, parity_sign.
  rewrite Nat.land_even_even, Nat.land_even_odd, Nat.land_odd_even, Nat.land_odd_odd.
  rewrite Nat.add_1_r, popcount_double, popcount_double_succ.
  cbn [pow]. repeat split; field; split; lra.
Qed.

(** The [n]-fold Hadamard matrix, entry by entry. *)
Lemma hadamard_power_entries (n : nat) :
  kron_power (Matrix hadamard_base) (S n)
  = Matrix (map (fun j => map (walsh_entry (S n) j) (seq 0 (2 ^ S n)))
                (seq 0 (2 ^ S n))).
Proof.
  induction n as [|n IH].
  - rewrite kron_power_1, hadamard_base_entries. f_equal.
    unfold walsh_entry, parity_sign. cbn. repeat f_equal; lra.
  - change (kron_power (Matrix hadamard_base) (S (S n)))
      with (np_kron (kron_power (Matrix hadamard_base) (S n)) (Matrix hadamard_base)).
    rewrite IH. cbn [np_kron]. f_equal.
    rewrite hadamard_base_entries, kron2_map.
    replace (2 ^ S (S n)) with (2 * 2 ^ S n) by (simpl; lia).
    rewrite <- (flat_map_pairs0
                  (fun j => map (walsh_entry (S (S n)) j) (seq 0 (2 * 2 ^ S n)))).
    apply flat_map_ext. intros j.
    rewrite !krow2_map, <- !flat_map_pairs0.
    f_equal; [|f_equal]; apply flat_map_ext; intros k;
      destruct (walsh_entry_step (S n) j k) as [H00 [H01 [H10 H11]]];
      rewrite ?H00, ?H01, ?H10, ?H11; reflexivity.
Qed.

(** X14: for [n >= 1], [_n_hadamard(n)] is the Walsh-Hadamard matrix: a
    symmetric [2^n] by [2^n] array whose entry [(j, k)] is [1/sqrt(2)^n]
    with the sign [(-1)^popcount(j & k)]. *)
Theorem n_hadamard_entries (n : nat) :
  1 <= n ->
  let d := 2 ^ n in
  exists h,
    _n_hadamard (Z.of_nat n) = Matrix h
    /\ has_shape d d h
    /\ forall j k, j < d -> k < d ->
         nth k (nth j h []) 0%R = walsh_entry n j k
         /\ nth k (nth j h []) 0%R = nth j (nth k h []) 0%R.
Proof.
  intros Hn d. destruct n as [|n]; [lia|].
  rewrite n_hadamard_naive, hadamard_power_entries.
  eexists. split; [reflexivity|].
  assert (Hentry : forall j k, j < d -> k < d ->
             nth k (nth j (map (fun j => map (walsh_entry (S n) j) (seq 0 d))
                               (seq 0 d)) []) 0%R
             = walsh_entry (S n) j k).
  { intros j k Hj Hk. rewrite (nth_tab _ [] Hj), (nth_tab _ 0%R Hk). reflexivity. }
  split; [split|].
  - rewrite length_map, length_seq. reflexivity.
  - apply Forall_map. apply Forall_forall. intros j _.
    rewrite length_map, length_seq. reflexivity.
  - intros j k Hj Hk. fold d. rewrite !Hentry by assumption.
    split; [reflexivity|]. unfold walsh_entry. rewrite Nat.land_comm. reflexivity.
Qed.

Lemma n_hadamard_entries_witness :
  exists h,
    _n_hadamard 2 = Matrix h
    /\ has_shape 4 4 h
    /\ forall j k, j < 4 -> k < 4 ->
         nth k (nth j h []) 0%R = walsh_entry 2 j k
         /\ nth k (nth j h []) 0%R = nth j (nth k h []) 0%R.
Proof. apply (@n_hadamard_entries 2). lia. Defined.

(** ** Where float64 departs from exact arithmetic *)

Lemma f64_edge_generator_ok : F64.GeneratorOK F64.edge_generator.
Proof.
  constructor; cbn [F64.edge_generator F64.rng_random F64.rng_shuffle fst].
  - intros _ k. apply repeat_length.
  - intros _ k. induction k as [|k IH]; [reflexivity|].
    cbn [repeat forallb]. rewrite IH. reflexivity.
  - intros _ l. apply Permutation_refl.
Qed.

(** In float64 the binary exponentiation and the factor-by-factor product
    differ for four qubits: rounded products do not associate, and the
    first entry is [(s*s)*(s*s)] in the one and [((s*s)*s)*s] in the other,
    [s] being [1/sqrt(2)] rounded. *)
Lemma f64_n_hadamard_differs :
  PrimFloat.ltb (F64.entry (F64._n_hadamard 4) 0 0)
                (F64.entry (F64.kron_power (F64.Matrix F64.hadamard_base) 4) 0 0)
  = true
  /\ F64._n_hadamard 4 <> F64.kron_power (F64.Matrix F64.hadamard_base) 4.
Proof.
  assert (Hlt : PrimFloat.ltb
                  (F64.entry (F64._n_hadamard 4) 0 0)
                  (F64.entry (F64.kron_power (F64.Matrix F64.hadamard_base) 4) 0 0)
                = true)
    by (vm_compute; reflexivity).
  split; [exact Hlt|].
  intros Heq. rewrite Heq in Hlt. vm_compute in Hlt. discriminate.
Qed.

(** In float64 a coordinate of [_modified_LHC] can exceed [2*np.pi]: with
    25 bins, the last bin and the largest offset below 1, [24 + offset]
    rounds to 25 and [25 * bin_size] to the float above [2*np.pi]. *)
Lemma f64_sample_exceeds_2pi :
  F64.GeneratorOK F64.edge_generator
  /\ exists x_vecs,
      F64._modified_LHC F64.edge_generator 1 25 25 tt = Ret (x_vecs, tt)
      /\ PrimFloat.ltb F64.two_pi (nth 0 (nth 24 x_vecs []) PrimFloat.zero) = true.
Proof.
  split; [apply f64_edge_generator_ok|].
  eexists. split; [vm_compute; reflexivity|]. vm_compute. reflexivity.
Qed.

(** In float64 a coordinate can leave the bin chosen for it: with 11 bins,
    bin 4 and the largest offset below 1 it is the lower edge of bin 5. *)
Example f64_coordinate_leaves_bin :
  exists x_vecs,
    F64._modified_LHC F64.edge_generator 1 11 11 tt = Ret (x_vecs, tt)
    /\ nth 4 (fst (fst (fst (F64.lhc_draw F64.edge_generator 11 (np_tile_arange 11 1) tt)))) 0
       = 4
    /\ nth 0 (nth 4 x_vecs []) PrimFloat.zero = F64.bin_edge 11 5.
Proof.
  eexists. split; [vm_compute; reflexivity|]. split; vm_compute; reflexivity.
Qed.
